(** * Transfer pipeline of the download bot: progress store, download
      manager, batch orchestrator and file splitter.

    The development embeds [server/storage.ts], [server/downloader.ts] and
    the WhatsApp command handler (the [.dl] and [.mdl] commands) as Rocq
    functions over an explicit world: the progress map of [MemStorage], the
    files on disk, the messages sent on the socket and the log.  Whatever
    the program receives from outside (the HTTP response, the body chunks,
    the moment another actor touches the store, the outcome of a socket
    send) is an input of the model.

    How the runtime is modelled:
    - [async] functions are computations in a state and exception monad;
      [try]/[catch] is [try_catch], a rejected promise is a thrown error.
      An exception that no [try] of the program can reach (one thrown
      inside an event listener) ends the process: the sources install no
      [uncaughtException] handler.
    - One transfer is driven by the list of events that occur while its
      body is piped to disk: chunks of the body, and writes to the store by
      other actors between two chunks.  The write stream queues the chunks
      it is given; how much of the queue has reached the file when the
      stream is destroyed is an input.
    - The progress map is a finite map; the order of [Map.values()] is not
      modelled.  The pipeline uses that array only to search a record by
      its [url], and the result of that search does not depend on the
      order as long as every record sits under its own [url].
    - Numbers are naturals ([N]): byte counts and sizes stay far below the
      range where a JavaScript number stops being exact.
    - Paths follow the POSIX flavour of Node's [path] module.  The disk
      is a finite map from paths to the contents of regular files;
      directories are not modelled ([mkdir] only succeeds or fails), so
      that a destination which names a directory is outside the model.
    - The callbacks of a [.mdl] batch are tasks that give way at every
      [await]; which task takes the next turn is an input, the schedule.
      The functions of the monad are the same callbacks given every turn
      until they settle (lemma [run_mdl_item]).
    - [./file-splitter] is not among the sources; it is modelled from the
      specification, with its naming scheme and part size as parameters. *)

From Stdlib Require Import Ascii String NArith Lia.
From Equations Require Import Equations.
From stdpp Require Import base option list strings pretty gmap.

Local Open Scope string_scope.
Local Open Scope N_scope.

(* ===================================================================== *)
(** * JavaScript values used by the program *)
(* ===================================================================== *)

(** An [Error] object, as far as the program looks at it: the constructor
    name and the [message]. *)
Record JsError := mkJsError { err_name : string; err_message : string }.

(** [new Error(message)] *)
Definition Error (message : string) : JsError := mkJsError "Error" message.

(** [new TypeError(message)] *)
Definition TypeError (message : string) : JsError := mkJsError "TypeError" message.

(** [new RangeError(message)] *)
Definition RangeError (message : string) : JsError := mkJsError "RangeError" message.

(** A [Buffer]: the bytes of a chunk or of a file. *)
Abbreviation Buffer := (list Byte.byte).

(** [chunk.length] *)
Definition buffer_length (b : Buffer) : N := N.of_nat (length b).

(* ===================================================================== *)
(** * [server/storage.ts] *)
(* ===================================================================== *)

(** [interface DownloadProgress].  [status] is a string in the source;
    [startTime] is a [Date], kept as its millisecond timestamp. *)
Record DownloadProgress := mkProgress {
  fileName : string;
  fileSize : N;
  downloadedBytes : N;
  status : string;
  url : string;
  startTime : N
}.

(** The object spread [{ ...progress, status }]. *)
Definition with_status (progress : DownloadProgress) (s : string) : DownloadProgress :=
  {| fileName := fileName progress;
     fileSize := fileSize progress;
     downloadedBytes := downloadedBytes progress;
     status := s;
     url := url progress;
     startTime := startTime progress |}.

(** The object spread [{ ...progress, downloadedBytes, status }]. *)
Definition with_bytes_status (progress : DownloadProgress) (n : N) (s : string)
  : DownloadProgress :=
  {| fileName := fileName progress;
     fileSize := fileSize progress;
     downloadedBytes := n;
     status := s;
     url := url progress;
     startTime := startTime progress |}.

(** The statuses the specification calls terminal. *)
Definition is_terminal (s : string) : bool :=
  bool_decide (s = "completed") || bool_decide (s = "stopped")
  || bool_decide (s = "failed").

Module MemStorage.

(** [private downloadProgress: Map<string, DownloadProgress>].  The other
    map of the class, [downloads], is not touched by the transfer
    pipeline and is left out. *)
Abbreviation t := (gmap string DownloadProgress).

(** [updateDownloadProgress(url, progress)]: [Map.set]. *)
Definition updateDownloadProgress (u : string) (progress : DownloadProgress)
    (m : t) : t :=
  <[u := progress]> m.

(** [getActiveDownloads()]: [Array.from(this.downloadProgress.values())],
    in the order of the finite map. *)
Definition getActiveDownloads (m : t) : list DownloadProgress :=
  (map_to_list m).*2.

(** [stopAllDownloads()]: the [for ... of entries()] loop, each iteration
    a [Map.set] on the map being built. *)
Definition stopAllDownloads (m : t) : t :=
  map_fold (fun u progress acc => <[u := with_status progress "stopped"]> acc) m m.

(** [getActiveDownloads().find(d => d.url === url)], the only way the
    program reads one record back. *)
Definition findByUrl (u : string) (m : t) : option DownloadProgress :=
  List.find (fun d => bool_decide (url d = u)) (getActiveDownloads m).

(** Every record sits under its own [url]: all writers in the program
    call [updateDownloadProgress(url, { ..., url })]. *)
Definition keyed (m : t) : Prop :=
  forall k p, m !! k = Some p -> url p = k.

End MemStorage.

Import MemStorage.

(* ===================================================================== *)
(** * Node's [path] module (POSIX flavour), as used by the downloader *)
(* ===================================================================== *)

Module Path.

Definition slash : ascii := "/"%char.

(** [s.split('/')] *)
Fixpoint split_slash (s : string) : list string :=
  match s with
  | EmptyString => [EmptyString]
  | String c r =>
      if Ascii.eqb c slash then EmptyString :: split_slash r
      else match split_slash r with
           | [] => [String c EmptyString]
           | h :: t => String c h :: t
           end
  end.

(** [segs.join('/')] *)
Fixpoint join_slash (segs : list string) : string :=
  match segs with
  | [] => ""
  | [a] => a
  | a :: rest => a +:+ "/" +:+ join_slash rest
  end.

(** One step of [normalizeString]: [stack] holds the segments kept so
    far, last one first.  Empty segments and [.] are dropped; [..]
    removes the last kept segment, or is kept when nothing can be removed
    and the path is relative. *)
Definition normalize_step (allowAboveRoot : bool) (stack : list string)
    (seg : string) : list string :=
  if bool_decide (seg = "") || bool_decide (seg = ".") then stack
  else if bool_decide (seg = "..") then
    match stack with
    | top :: below =>
        if bool_decide (top = "..")
        then (if allowAboveRoot then ".." :: stack else stack)
        else below
    | [] => if allowAboveRoot then [".."] else []
    end
  else seg :: stack.

Definition normalizeString (path : string) (allowAboveRoot : bool) : string :=
  join_slash (rev (fold_left (normalize_step allowAboveRoot) (split_slash path) [])).

Definition starts_with_slash (s : string) : bool :=
  match s with String c _ => Ascii.eqb c slash | EmptyString => false end.

Fixpoint ends_with_slash (s : string) : bool :=
  match s with
  | EmptyString => false
  | String c EmptyString => Ascii.eqb c slash
  | String _ r => ends_with_slash r
  end.

(** [path.normalize] *)
Definition normalize (path : string) : string :=
  if bool_decide (path = "") then "."
  else
    let isAbsolute := starts_with_slash path in
    let trailingSeparator := ends_with_slash path in
    let body := normalizeString path (negb isAbsolute) in
    if bool_decide (body = "") then
      (if isAbsolute then "/" else if trailingSeparator then "./" else ".")
    else
      let body := if trailingSeparator then body +:+ "/" else body in
      if isAbsolute then "/" +:+ body else body.

(** [path.join(a, b)]: empty arguments are skipped, the rest is glued
    with [/] and normalised. *)
Definition join (a b : string) : string :=
  if bool_decide (a = "") then
    (if bool_decide (b = "") then "." else normalize b)
  else if bool_decide (b = "") then normalize a
  else normalize (a +:+ "/" +:+ b).

Fixpoint drop_slashes (cs : list ascii) : list ascii :=
  match cs with
  | c :: r => if Ascii.eqb c slash then drop_slashes r else cs
  | [] => []
  end.

Fixpoint take_segment (cs : list ascii) : list ascii :=
  match cs with
  | c :: r => if Ascii.eqb c slash then [] else c :: take_segment r
  | [] => []
  end.

(** [path.basename(p)]: scanning from the end, skip the trailing slashes
    and keep what precedes them back to the previous slash. *)
Definition basename (p : string) : string :=
  string_of_list_ascii
    (rev (take_segment (drop_slashes (rev (list_ascii_of_string p))))).

End Path.

(* ===================================================================== *)
(** * [server/downloader.ts] *)
(* ===================================================================== *)

Module DownloadResult.
(** [interface DownloadResult] *)
Record t := mk { filePath : string; fileName : string; fileSize : N }.
End DownloadResult.

(** The response headers the downloader reads.  Node's HTTP parser refuses
    a response whose [Content-Length] is not a non-negative decimal
    integer, so that header, when present, is kept as its value. *)
Record Response := mkResponse {
  content_disposition : option string;
  content_length : option N
}.

(** What happens while the body is piped to disk, in order of occurrence:
    a chunk arrives on the stream, or another actor calls
    [storage.stopAllDownloads()], or another transfer calls
    [storage.updateDownloadProgress(p.url, p)]. *)
Inductive Event :=
| Data (chunk : Buffer)
| StopAll
| OtherWrite (p : DownloadProgress).

(** Everything one call of [handleDownload] receives from outside.
    [t_open]: the write stream opens the destination in the background;
    when that fails ([ENOENT] for a name with a directory that does not
    exist, [EACCES], [EMFILE]) this is its error, the listener has seen
    [t_events] by then, and [pipeline] rejects with it.  [t_end]: the
    response stream fails with this error after [t_events].
    [t_flushed]: when the write stream is destroyed, or the process ends,
    the bytes still in its queue are lost; this many of the bytes it had
    been given have reached the file. *)
Record Transfer := mkTransfer {
  t_mkdir : option JsError;     (* [mkdir] rejects with this error *)
  t_axios : JsError + Response; (* [axios] rejects (no connection, non-2xx) or resolves *)
  t_now : N;                    (* [new Date()] *)
  t_open : option JsError;
  t_events : list Event;
  t_end : option JsError;
  t_flushed : nat
}.

(** A message handed to [sock.sendMessage]. *)
Inductive Message :=
| Text (text : string)
| Document (document : Buffer) (name : string) (caption : string)
| React (text : string).

(** The state the program acts on: the progress store, the files on disk,
    the log, the messages delivered on the socket, and the two variables
    [successCount] and [failedUrls] that the [.mdl] handler closes over.
    [snapshots] is a ghost field: the progress store after each of its
    mutations, oldest first, which is what a caller polling
    [getActiveDownloads] can have seen. *)
Record World := mkWorld {
  progress_map : MemStorage.t;
  disk : gmap string Buffer;
  log_lines : list string;
  snapshots : list MemStorage.t;
  outbox : list Message;
  successCount : nat;
  failedUrls : list (string * string)
}.

(** ** A state and exception monad for [async] code with [try]/[catch] *)

(** How a piece of code ends: it returns a value, it throws (the promise
    of an [async] function rejects), or the process exits on an uncaught
    exception.  Node prints such an exception and exits with code 1; the
    world of an [Exited] outcome is the state at that moment, of which
    only the disk and the messages already sent outlive the process. *)
Inductive Outcome (A : Type) : Type :=
| Returned (a : A)
| Thrown (e : JsError)
| Exited (e : JsError).

Arguments Returned {A} a.
Arguments Thrown {A} e.
Arguments Exited {A} e.

Definition M (A : Type) : Type := World -> Outcome A * World.

Definition ret {A} (a : A) : M A := fun w => (Returned a, w).

Definition throw {A} (e : JsError) : M A := fun w => (Thrown e, w).

(** An exception that leaves an event listener: nothing catches it. *)
Definition exit_process {A} (e : JsError) : M A := fun w => (Exited e, w).

Definition bind {A B} (c : M A) (k : A -> M B) : M B :=
  fun w => match c w with
           | (Returned a, w') => k a w'
           | (Thrown e, w') => (Thrown e, w')
           | (Exited e, w') => (Exited e, w')
           end.

Definition try_catch {A} (body : M A) (handler : JsError -> M A) : M A :=
  fun w => match body w with
           | (Returned a, w') => (Returned a, w')
           | (Thrown e, w') => handler e w'
           | (Exited e, w') => (Exited e, w')
           end.

Definition gets {A} (f : World -> A) : M A := fun w => (Returned (f w), w).

Definition modify (f : World -> World) : M unit := fun w => (Returned tt, f w).

Declare Scope js_scope.
Delimit Scope js_scope with js.
Notation "x <- c ;; k" := (bind c (fun x => k))
  (at level 100, c at next level, right associativity) : js_scope.
Notation "c ;; k" := (bind c (fun _ => k))
  (at level 100, right associativity) : js_scope.
Local Open Scope js_scope.

(** ** The world operations the downloader performs *)

Definition set_store (w : World) (m : MemStorage.t) : World :=
  {| progress_map := m;
     disk := disk w;
     log_lines := log_lines w;
     snapshots := (snapshots w ++ [m])%list;
     outbox := outbox w;
     successCount := successCount w;
     failedUrls := failedUrls w |}.

Definition set_disk (w : World) (d : gmap string Buffer) : World :=
  {| progress_map := progress_map w;
     disk := d;
     log_lines := log_lines w;
     snapshots := snapshots w;
     outbox := outbox w;
     successCount := successCount w;
     failedUrls := failedUrls w |}.

Definition add_log (w : World) (line : string) : World :=
  {| progress_map := progress_map w;
     disk := disk w;
     log_lines := (log_lines w ++ [line])%list;
     snapshots := snapshots w;
     outbox := outbox w;
     successCount := successCount w;
     failedUrls := failedUrls w |}.

Definition add_outbox (w : World) (content : Message) : World :=
  {| progress_map := progress_map w;
     disk := disk w;
     log_lines := log_lines w;
     snapshots := snapshots w;
     outbox := (outbox w ++ [content])%list;
     successCount := successCount w;
     failedUrls := failedUrls w |}.

Definition set_counters (w : World) (n : nat) (failed : list (string * string)) : World :=
  {| progress_map := progress_map w;
     disk := disk w;
     log_lines := log_lines w;
     snapshots := snapshots w;
     outbox := outbox w;
     successCount := n;
     failedUrls := failed |}.

(** [storage.updateDownloadProgress(url, progress)] *)
Definition store_update (u : string) (progress : DownloadProgress) : M unit :=
  modify (fun w => set_store w (updateDownloadProgress u progress (progress_map w))).

(** [storage.stopAllDownloads()] *)
Definition store_stop_all : M unit :=
  modify (fun w => set_store w (stopAllDownloads (progress_map w))).

(** [storage.getActiveDownloads().find(d => d.url === url)] *)
Definition store_find (u : string) : M (option DownloadProgress) :=
  gets (fun w => findByUrl u (progress_map w)).

(** [log(line, source)] *)
Definition log (line : string) : M unit :=
  modify (fun w => add_log w line).

(** [await mkdir(dir, { recursive: true })]; directories are not part of
    [disk], so only the failure matters. *)
Definition mkdir (outcome : option JsError) : M unit :=
  match outcome with
  | Some e => throw e
  | None => ret tt
  end.

(** [await axios({ method: 'GET', url, responseType: 'stream' })] *)
Definition axios (outcome : JsError + Response) : M Response :=
  match outcome with
  | inl e => throw e
  | inr response => ret response
  end.

(** The write stream of a transfer, as the program uses it.
    [createWriteStream(filePath)] returns at once and opens the file in
    the background with the flags ['w']: when the open succeeds the file
    is created, or truncated; when it fails the disk is left as it is.
    The stream then queues every chunk piped to it; the closure keeps the
    bytes it has been given so far. *)
Record Writer := mkWriter {
  writer_path : string;
  writer_open : option JsError;  (* the error of the open, if it fails *)
  writer_flushed : nat           (* bytes in the file when the stream is destroyed *)
}.

Definition createWriteStream (writer : Writer) : M unit :=
  match writer_open writer with
  | None => modify (fun w => set_disk w (<[writer_path writer := []]> (disk w)))
  | Some _ => ret tt
  end.

(** The end of the body reaches a stream that is open: every queued byte
    is written before ['finish'], on which [pipeline] resolves. *)
Definition finish_writer (writer : Writer) (queued : Buffer) : M unit :=
  modify (fun w => set_disk w (<[writer_path writer := queued]> (disk w))).

(** The stream is destroyed, or the process ends: what is still in the
    queue is dropped. *)
Definition abandon_writer (writer : Writer) (queued : Buffer) : M unit :=
  match writer_open writer with
  | None =>
      modify (fun w => set_disk w (<[writer_path writer
                                     := take (writer_flushed writer) queued]> (disk w)))
  | Some _ => ret tt
  end.

(** [existsSync(path)] *)
Definition existsSync (path : string) : M bool :=
  gets (fun w => bool_decide (is_Some (disk w !! path))).

Definition quote : ascii := "034"%char.

(** The downloader imports [unlink] from ['fs'], the callback interface,
    and calls it as [unlink(filePath)].  Node checks the callback before
    anything else and throws; the file is left in place. *)
Definition ERR_INVALID_ARG_TYPE : JsError :=
  TypeError ("The " +:+ String quote ("cb" +:+ String quote
             " argument must be of type function. Received undefined")).

Definition unlink_without_callback (path : string) : M unit :=
  throw ERR_INVALID_ARG_TYPE.

(** What [pipeline] rejects with when its source is destroyed before the
    end of the body. *)
Definition ERR_STREAM_PREMATURE_CLOSE : JsError := Error "Premature close".

(** ** The file name of a transfer *)

Fixpoint strip_prefix (pre s : string) : option string :=
  match pre, s with
  | EmptyString, _ => Some s
  | String a pre', String b s' =>
      if Ascii.eqb a b then strip_prefix pre' s' else None
  | String _ _, EmptyString => None
  end.

(** The longest run of characters other than the double quote. *)
Fixpoint unquoted_run (s : string) : string :=
  match s with
  | String c r => if Ascii.eqb c quote then EmptyString else String c (unquoted_run r)
  | EmptyString => EmptyString
  end.

(** The regular expression [filename=QUOTE?([^QUOTE]+)QUOTE?] tried at the
    start of [s]; the result is capture group 1.  After [filename=] an
    optional quote is consumed, and at least one non-quote character must
    follow; giving the quote back does not help, since the group would
    then have to start on that quote. *)
Definition match_filename_at (s : string) : option string :=
  match strip_prefix "filename=" s with
  | None => None
  | Some EmptyString => None
  | Some (String c r) =>
      if Ascii.eqb c quote then
        match r with
        | String c' _ => if Ascii.eqb c' quote then None else Some (unquoted_run r)
        | EmptyString => None
        end
      else Some (unquoted_run (String c r))
  end.

(** [contentDisposition.match(...)]: the leftmost position that matches. *)
Fixpoint match_filename (s : string) : option string :=
  match match_filename_at s with
  | Some group => Some group
  | None =>
      match s with
      | String _ r => match_filename r
      | EmptyString => None
      end
  end.

(** Lines 44-48 of [handleDownload]. *)
Definition resolveFileName (u : string) (contentDisposition : option string) : string :=
  let fileName := Path.basename u in
  match contentDisposition with
  | Some header =>
      if bool_decide (header = "") then fileName
      else match match_filename header with
           | Some group => group
           | None => fileName
           end
  | None => fileName
  end.

(** ** [handleDownload] *)

Section Downloader.

(** [process.cwd()] *)
Variable cwd : string.

Definition DOWNLOAD_DIR : string := Path.join cwd "downloads".

(** [const filePath = path.join(DOWNLOAD_DIR, fileName)] *)
Definition destination (fileName : string) : string :=
  Path.join DOWNLOAD_DIR fileName.

(** [await pipeline(response.data, writer)] together with the ['data']
    listener of lines 67-82, which runs before the writer sees the chunk.
    [downloadedBytes] is the local counter of the closure, [queued] the
    bytes piped to the writer so far.  The [throw] of line 74 is inside
    the listener, which the stream calls from its own code: no [try] of
    [handleDownload] is on the stack and the exception ends the process.
    When the writer cannot open the destination, [pipeline] rejects with
    the error of the open. *)
Fixpoint pipeline (u : string) (progress : DownloadProgress) (writer : Writer)
    (downloadedBytes : N) (queued : Buffer) (events : list Event)
    (ending : option JsError) : M unit :=
  match events with
  | [] =>
      match writer_open writer, ending with
      | Some e, _ => throw e
      | None, Some e => abandon_writer writer queued ;; throw e
      | None, None => finish_writer writer queued
      end
  | Data chunk :: rest =>
      let downloadedBytes := downloadedBytes + buffer_length chunk in
      currentProgress <- store_find u ;;
      if bool_decide (status <$> currentProgress = Some "stopped") then
        (* [response.data.destroy()], then the [throw] *)
        abandon_writer writer queued ;;
        exit_process (Error "Download stopped by user")
      else
        store_update u (with_bytes_status progress downloadedBytes "downloading") ;;
        pipeline u progress writer downloadedBytes (queued ++ chunk)%list rest ending
  | StopAll :: rest =>
      store_stop_all ;;
      pipeline u progress writer downloadedBytes queued rest ending
  | OtherWrite p :: rest =>
      store_update (url p) p ;;
      pipeline u progress writer downloadedBytes queued rest ending
  end.

Definition handleDownload (u : string) (t : Transfer) : M DownloadResult.t :=
  try_catch
    (mkdir (t_mkdir t) ;;
     response <- axios (t_axios t) ;;
     let contentDisposition := content_disposition response in
     let contentLength := default 0 (content_length response) in
     let fileName := resolveFileName u contentDisposition in
     let filePath := destination fileName in
     let writer := mkWriter filePath (t_open t) (t_flushed t) in
     createWriteStream writer ;;
     let downloadedBytes := 0 in
     let startTime := t_now t in
     let progress := {| fileName := fileName;
                        fileSize := contentLength;
                        downloadedBytes := 0;
                        status := "downloading";
                        url := u;
                        startTime := startTime |} in
     store_update u progress ;;
     try_catch
       (pipeline u progress writer downloadedBytes [] (t_events t) (t_end t))
       (fun error =>
          present <- existsSync filePath ;;
          (if present : bool then unlink_without_callback filePath else ret tt) ;;
          throw error) ;;
     store_update u (with_bytes_status progress contentLength "completed") ;;
     log ("Download completed: " +:+ fileName) ;;
     ret (DownloadResult.mk filePath fileName contentLength))
    (fun error =>
       log ("Download failed: " +:+ err_message error) ;;
       throw (Error ("Failed to download file: " +:+ err_message error))).

End Downloader.

(* ===================================================================== *)
(** * [fs/promises], as the command handler uses it *)
(* ===================================================================== *)

Definition ENOENT (syscall path : string) : JsError :=
  Error ("ENOENT: no such file or directory, " +:+ syscall +:+ " '" +:+ path +:+ "'").

(** The most [fs.readFile] reads: 2^31 - 1 bytes. *)
Definition kIoMaxLength : N := 2147483647.

Definition ERR_FS_FILE_TOO_LARGE (size : N) : JsError :=
  RangeError ("File size (" +:+ pretty size +:+ ") is greater than 2 GiB").

(** [fs.readFile(path)]: the whole file in one [Buffer]; a larger file
    is refused. *)
Definition readFile (path : string) : M Buffer :=
  fun w => match disk w !! path with
           | Some content =>
               if kIoMaxLength <? buffer_length content
               then (Thrown (ERR_FS_FILE_TOO_LARGE (buffer_length content)), w)
               else (Returned content, w)
           | None => (Thrown (ENOENT "open" path), w)
           end.

(** [unlink(path)] *)
Definition unlink (path : string) : M unit :=
  fun w => match disk w !! path with
           | Some _ => (Returned tt, set_disk w (delete path (disk w)))
           | None => (Thrown (ENOENT "unlink" path), w)
           end.

(** [fs.writeFile(path, content)] *)
Definition writeFile (path : string) (content : Buffer) : M unit :=
  modify (fun w => set_disk w (<[path := content]> (disk w))).

(* ===================================================================== *)
(** * The file splitter ([./file-splitter], not part of the sources) *)
(* ===================================================================== *)

Module Splitter.

(** Modelled from the spec: section 4.3, "read the source file
    sequentially": the source is read as a stream, whatever its size. *)
Definition read_source (path : string) : M Buffer :=
  fun w => match disk w !! path with
           | Some content => (Returned content, w)
           | None => (Thrown (ENOENT "open" path), w)
           end.

(** Modelled from the spec: the [PartFile] of section 3, an index and a
    path; the index is 1-based. *)
Record PartFile := mkPart { index : nat; path : string }.

Definition SplitError (cause : JsError) : JsError :=
  mkJsError "SplitError" (err_message cause).

(** Modelled from the spec: section 4.3, the source is cut into
    successive chunks of exactly [maxPartBytes] bytes, the last one
    possibly shorter.  The part size is positive; for 0 nothing is cut. *)
Equations? chunks (maxPartBytes : nat) (bytes : Buffer) : list Buffer
  by wf (length bytes) lt :=
  chunks 0 _ := [];
  chunks (S m) [] := [];
  chunks (S m) (b :: bs) :=
    take (S m) (b :: bs) :: chunks (S m) (drop (S m) (b :: bs)).
Proof. simpl. rewrite length_drop. lia. Qed.

Section Split.

(** Modelled from the spec: section 4.3 names a part
    "deterministically from the source name plus a 1-based index";
    the naming scheme itself is not given and is a parameter. *)
Variable partPath : string -> nat -> string.

(** Modelled from the spec: section 4.3, the chunks are written to new
    part files, numbered from [i], and returned in index order. *)
Fixpoint write_parts (source : string) (i : nat) (parts : list Buffer)
    : M (list PartFile) :=
  match parts with
  | [] => ret []
  | part :: rest =>
      writeFile (partPath source i) part ;;
      written <- write_parts source (S i) rest ;;
      ret (mkPart i (partPath source i) :: written)
  end.

(** Modelled from the spec: [split(filePath, maxPartBytes)] of section
    4.3; it fails with a [SplitError] when the source cannot be read
    and does not delete the source. *)
Definition split (filePath : string) (maxPartBytes : nat) : M (list PartFile) :=
  source <- try_catch (read_source filePath) (fun e => throw (SplitError e)) ;;
  write_parts filePath 1 (chunks maxPartBytes source).

(** Reading the parts back in index order and gluing them. *)
Fixpoint reassemble (d : gmap string Buffer) (parts : list PartFile)
    : option Buffer :=
  match parts with
  | [] => Some []
  | part :: rest =>
      match d !! path part, reassemble d rest with
      | Some content, Some tail => Some (content ++ tail)%list
      | _, _ => None
      end
  end.

End Split.

(** [ceil(a / b)] on natural numbers *)
Definition ceil_div (a b : nat) : nat := Nat.div (a + b - 1) b.

End Splitter.

(* ===================================================================== *)
(** * The command handler: [.dl] and [.mdl] *)
(* ===================================================================== *)

Definition nl : string := String "010"%char EmptyString.

(** [lines.join(sep)] *)
Fixpoint join_with (sep : string) (lines : list string) : string :=
  match lines with
  | [] => ""
  | [a] => a
  | a :: rest => a +:+ sep +:+ join_with sep rest
  end.

(** What the [async] callback of the [.mdl] handler returns. *)
Record ItemReport := mkReport {
  success : bool;
  report_url : string;
  report_error : option string
}.

(** The threshold of lines 222 and 291: [2 * 1024 * 1024 * 1024]. *)
Definition SPLIT_THRESHOLD : N := 2 * 1024 * 1024 * 1024.

Section Handler.

(** [process.cwd()] *)
Variable cwd : string.

(** The socket: [sock.sendMessage] delivers a message, or rejects. *)
Variable send_outcome : Message -> option JsError.

(** The naming scheme and the part size of the absent [./file-splitter]:
    the handler calls [splitFile(filePath)] with the path only. *)
Variable partPath : string -> nat -> string.
Variable maxPartBytes : nat.

(** [await sock.sendMessage(jid, content, { quoted: message })] *)
Definition sendMessage (content : Message) : M unit :=
  fun w => match send_outcome content with
           | Some e => (Thrown e, w)
           | None => (Returned tt, add_outbox w content)
           end.

(** Modelled from the spec: [splitFile(filePath)] is [split] of section
    4.3 at the splitter's own part size; the handler uses the result as
    an array of paths. *)
Definition splitFile (filePath : string) : M (list string) :=
  parts <- Splitter.split partPath filePath maxPartBytes ;;
  ret (Splitter.path <$> parts).

Definition caption_whole (fileName : string) : string :=
  "🖇️ *" +:+ fileName +:+ "*".

Definition caption_part (fileName : string) (j totalParts : nat) : string :=
  "🖇️ *" +:+ fileName +:+ "*" +:+ nl +:+ "_(Part " +:+ pretty (j + 1)%nat
    +:+ " of " +:+ pretty totalParts +:+ ")_".

(** The [for] loop over [parts] (lines 230-239 and 298-307), from
    index [j] on. *)
Fixpoint send_parts (fileName : string) (totalParts : nat) (j : nat)
    (parts : list string) : M unit :=
  match parts with
  | [] => ret tt
  | part :: rest =>
      document <- readFile part ;;
      sendMessage (Document document
                     (fileName +:+ ".part" +:+ pretty (j + 1)%nat)
                     (caption_part fileName j totalParts)) ;;
      unlink part ;;
      send_parts fileName totalParts (S j) rest
  end.

(** Lines 222-247: what the [.mdl] handler does with a finished
    download. *)
Definition mdl_deliver (r : DownloadResult.t) : M unit :=
  let filePath := DownloadResult.filePath r in
  let fileName := DownloadResult.fileName r in
  let fileSize := DownloadResult.fileSize r in
  if SPLIT_THRESHOLD <? fileSize then
    sendMessage (Text ("⚒️ Splitting large file: " +:+ fileName)) ;;
    parts <- splitFile filePath ;;
    let totalParts := length parts in
    send_parts fileName totalParts 0 parts
  else
    document <- readFile filePath ;;
    sendMessage (Document document fileName (caption_whole fileName)).

(** Lines 291-317: the same for the [.dl] handler. *)
Definition dl_deliver (r : DownloadResult.t) : M unit :=
  let filePath := DownloadResult.filePath r in
  let fileName := DownloadResult.fileName r in
  let fileSize := DownloadResult.fileSize r in
  if SPLIT_THRESHOLD <? fileSize then
    sendMessage (React "⚒️") ;;
    parts <- splitFile filePath ;;
    let totalParts := length parts in
    sendMessage (React "⬆️") ;;
    send_parts fileName totalParts 0 parts
  else
    sendMessage (React "⬆️") ;;
    document <- readFile filePath ;;
    sendMessage (Document document fileName (caption_whole fileName)).

(** Lines 249-252 and 319-322. *)
Definition cleanup (filePath : string) : M unit :=
  present <- existsSync filePath ;;
  if present : bool then
    unlink filePath ;;
    log ("Cleaned up file: " +:+ filePath)
  else ret tt.

(** The [.dl] command, from line 287 on, for the URL of the command. *)
Definition dl_command (u : string) (t : Transfer) : M unit :=
  try_catch
    (sendMessage (React "⬇️") ;;
     r <- handleDownload cwd u t ;;
     dl_deliver r ;;
     cleanup (DownloadResult.filePath r) ;;
     sendMessage (React "✅"))
    (fun error =>
       log ("Error processing download: " +:+ err_name error +:+ ": "
              +:+ err_message error) ;;
       sendMessage (React "💔") ;;
       sendMessage (Text ("❌ *Error:* " +:+ err_message error))).

Definition incr_successCount : M unit :=
  modify (fun w => set_counters w (S (successCount w)) (failedUrls w)).

Definition push_failedUrls (u error : string) : M unit :=
  modify (fun w => set_counters w (successCount w) (failedUrls w ++ [(u, error)])%list).

(** The [async (url, i) => ...] callback of lines 218-268; [total] is
    [urls.length]. *)
Definition mdl_item (total : nat) (i : nat) (u : string) (t : Transfer)
    : M ItemReport :=
  try_catch
    (r <- handleDownload cwd u t ;;
     mdl_deliver r ;;
     cleanup (DownloadResult.filePath r) ;;
     incr_successCount ;;
     sendMessage (Text ("✅ Successfully downloaded (" +:+ pretty (i + 1)%nat +:+ "/"
                          +:+ pretty total +:+ "): " +:+ DownloadResult.fileName r)) ;;
     ret (mkReport true u None))
    (fun error =>
       log ("Error downloading " +:+ u +:+ ": " +:+ err_message error) ;;
       push_failedUrls u (err_message error) ;;
       sendMessage (Text ("❌ Failed to download (" +:+ pretty (i + 1)%nat +:+ "/"
                            +:+ pretty total +:+ "): " +:+ u +:+ nl +:+ "Error: "
                            +:+ err_message error)) ;;
       ret (mkReport false u (Some (err_message error)))).

Definition summaryText (total : nat) (w : World) : string :=
  "✨ *Download Summary*" +:+ nl +:+ nl +:+
  "✅ Successfully downloaded: " +:+ pretty (successCount w) +:+ "/" +:+ pretty total
    +:+ nl +:+ nl +:+
  (if bool_decide (0 < length (failedUrls w))%nat
   then "❌ Failed downloads:" +:+ nl +:+
        join_with (nl +:+ nl)
          ((fun f => fst f +:+ nl +:+ "Error: " +:+ snd f) <$> failedUrls w)
   else "").

End Handler.

(* ===================================================================== *)
(** * [async] callbacks and the event loop *)
(* ===================================================================== *)

(** An [async] function cut at its [await]s.  It has settled, or it
    waits: when the event loop gives it a turn, the operation it waits
    for takes [effect] on the world, and the function goes on as [next],
    up to its next [await].  Both are functions of the world in which the
    turn is taken, which holds what other callbacks did in between. *)
Inductive Task (A : Type) : Type :=
| Settled (o : Outcome A)
| Await (next : World -> Task A) (effect : World -> World).

Arguments Settled {A} o.
Arguments Await {A} next effect.

(** A stretch of code that runs in one turn. *)
Definition step {A} (c : M A) : Task A :=
  Await (fun w => Settled (fst (c w))) (fun w => snd (c w)).

Fixpoint tbind {A B} (p : Task A) (k : A -> Task B) : Task B :=
  match p with
  | Settled (Returned a) => k a
  | Settled (Thrown e) => Settled (Thrown e)
  | Settled (Exited e) => Settled (Exited e)
  | Await next effect => Await (fun w => tbind (next w) k) effect
  end.

(** [try { p } catch (error) { handler }] around code with [await]s *)
Fixpoint ttry {A} (p : Task A) (handler : JsError -> Task A) : Task A :=
  match p with
  | Settled (Returned a) => Settled (Returned a)
  | Settled (Thrown e) => handler e
  | Settled (Exited e) => Settled (Exited e)
  | Await next effect => Await (fun w => ttry (next w) handler) effect
  end.

(** A callback that is given every turn until it settles: no other
    callback runs in between. *)
Fixpoint run {A} (p : Task A) : M A :=
  fun w => match p with
           | Settled o => (o, w)
           | Await next effect => run (next w) (effect w)
           end.

Declare Scope task_scope.
Delimit Scope task_scope with task.
Notation "x <~ p ;; k" := (tbind p (fun x => k))
  (at level 100, p at next level, right associativity) : task_scope.
Notation "p ~;; k" := (tbind p (fun _ => k))
  (at level 100, right associativity) : task_scope.

(** The functions of the downloader and of the [.mdl] handler once more,
    with their [await]s: every operation is a turn of its own, and the
    ['data'] listener, which is synchronous, is one turn per chunk.  A
    turn never spans an [await]; where one ends without an [await], the
    callbacks can interleave in more ways than the event loop allows, not
    in fewer. *)
Module Async.

Local Open Scope task_scope.

Section Downloader.

Variable cwd : string.

(** [await pipeline(response.data, writer)], event by event *)
Fixpoint pipeline (u : string) (progress : DownloadProgress) (writer : Writer)
    (downloadedBytes : N) (queued : Buffer) (events : list Event)
    (ending : option JsError) : Task unit :=
  match events with
  | [] =>
      step (match writer_open writer, ending with
            | Some e, _ => throw e
            | None, Some e => (abandon_writer writer queued ;; throw e)%js
            | None, None => finish_writer writer queued
            end)
  | Data chunk :: rest =>
      let downloadedBytes := downloadedBytes + buffer_length chunk in
      step (currentProgress <- store_find u ;;
            if bool_decide (status <$> currentProgress = Some "stopped") then
              abandon_writer writer queued ;;
              exit_process (Error "Download stopped by user")
            else
              store_update u
                (with_bytes_status progress downloadedBytes "downloading"))%js ~;;
      pipeline u progress writer downloadedBytes (queued ++ chunk)%list rest ending
  | StopAll :: rest =>
      step store_stop_all ~;;
      pipeline u progress writer downloadedBytes queued rest ending
  | OtherWrite p :: rest =>
      step (store_update (url p) p) ~;;
      pipeline u progress writer downloadedBytes queued rest ending
  end.

Definition handleDownload (u : string) (t : Transfer) : Task DownloadResult.t :=
  ttry
    (step (mkdir (t_mkdir t)) ~;;
     response <~ step (axios (t_axios t)) ;;
     let contentDisposition := content_disposition response in
     let contentLength := default 0 (content_length response) in
     let fileName := resolveFileName u contentDisposition in
     let filePath := destination cwd fileName in
     let writer := mkWriter filePath (t_open t) (t_flushed t) in
     step (createWriteStream writer) ~;;
     let downloadedBytes := 0 in
     let startTime := t_now t in
     let progress := {| fileName := fileName;
                        fileSize := contentLength;
                        downloadedBytes := 0;
                        status := "downloading";
                        url := u;
                        startTime := startTime |} in
     step (store_update u progress) ~;;
     ttry
       (pipeline u progress writer downloadedBytes [] (t_events t) (t_end t))
       (fun error =>
          present <~ step (existsSync filePath) ;;
          (if present : bool then step (unlink_without_callback filePath)
           else Settled (Returned tt)) ~;;
          Settled (Thrown error)) ~;;
     step (store_update u (with_bytes_status progress contentLength "completed")) ~;;
     step (log ("Download completed: " +:+ fileName)) ~;;
     Settled (Returned (DownloadResult.mk filePath fileName contentLength)))
    (fun error =>
       step (log ("Download failed: " +:+ err_message error)) ~;;
       Settled (Thrown (Error ("Failed to download file: " +:+ err_message error)))).

End Downloader.

Section Handler.

Variable cwd : string.
Variable send_outcome : Message -> option JsError.
Variable partPath : string -> nat -> string.
Variable maxPartBytes : nat.

Fixpoint send_parts (fileName : string) (totalParts : nat) (j : nat)
    (parts : list string) : Task unit :=
  match parts with
  | [] => Settled (Returned tt)
  | part :: rest =>
      document <~ step (readFile part) ;;
      step (sendMessage send_outcome
              (Document document
                 (fileName +:+ ".part" +:+ pretty (j + 1)%nat)
                 (caption_part fileName j totalParts))) ~;;
      step (unlink part) ~;;
      send_parts fileName totalParts (S j) rest
  end.

Definition mdl_deliver (r : DownloadResult.t) : Task unit :=
  let filePath := DownloadResult.filePath r in
  let fileName := DownloadResult.fileName r in
  let fileSize := DownloadResult.fileSize r in
  if SPLIT_THRESHOLD <? fileSize then
    step (sendMessage send_outcome
            (Text ("⚒️ Splitting large file: " +:+ fileName))) ~;;
    parts <~ step (splitFile partPath maxPartBytes filePath) ;;
    let totalParts := length parts in
    send_parts fileName totalParts 0 parts
  else
    document <~ step (readFile filePath) ;;
    step (sendMessage send_outcome
            (Document document fileName (caption_whole fileName))).

Definition cleanup (filePath : string) : Task unit :=
  present <~ step (existsSync filePath) ;;
  if present : bool then
    step (unlink filePath) ~;;
    step (log ("Cleaned up file: " +:+ filePath))
  else Settled (Returned tt).

(** The [async (url, i) => ...] callback of lines 218-268. *)
Definition mdl_item (total : nat) (i : nat) (u : string) (t : Transfer)
    : Task ItemReport :=
  ttry
    (r <~ handleDownload cwd u t ;;
     mdl_deliver r ~;;
     cleanup (DownloadResult.filePath r) ~;;
     step incr_successCount ~;;
     step (sendMessage send_outcome
             (Text ("✅ Successfully downloaded (" +:+ pretty (i + 1)%nat +:+ "/"
                      +:+ pretty total +:+ "): " +:+ DownloadResult.fileName r))) ~;;
     Settled (Returned (mkReport true u None)))
    (fun error =>
       step (log ("Error downloading " +:+ u +:+ ": " +:+ err_message error)) ~;;
       step (push_failedUrls u (err_message error)) ~;;
       step (sendMessage send_outcome
               (Text ("❌ Failed to download (" +:+ pretty (i + 1)%nat +:+ "/"
                        +:+ pretty total +:+ "): " +:+ u +:+ nl +:+ "Error: "
                        +:+ err_message error))) ~;;
       Settled (Returned (mkReport false u (Some (err_message error))))).

End Handler.

End Async.

(** The promises of the callbacks started by [urls.map], and the order
    in which they have settled so far. *)
Record Pool (A : Type) := mkPool {
  callbacks : list (Task A);
  settled : list nat
}.

Arguments mkPool {A} callbacks settled.
Arguments callbacks {A} p.
Arguments settled {A} p.

(** One turn of the event loop, given to the callback [i].  A callback
    that has settled takes no turn.  An exception that nothing catches
    ends the process, and with it every callback. *)
Definition turn {A} (i : nat) (pool : Pool A) : M (Pool A) :=
  fun w => match callbacks pool !! i with
           | Some (Await next effect) =>
               match next w with
               | Settled (Exited e) => (Exited e, effect w)
               | Settled o =>
                   (Returned (mkPool (<[i := Settled o]> (callbacks pool))
                                (settled pool ++ [i])), effect w)
               | p => (Returned (mkPool (<[i := p]> (callbacks pool)) (settled pool)),
                       effect w)
               end
           | _ => (Returned pool, w)
           end.

(** The turns of a schedule, one after the other. *)
Fixpoint turns {A} (schedule : list nat) (pool : Pool A) : M (Pool A) :=
  match schedule with
  | [] => ret pool
  | i :: rest => pool <- turn i pool ;; turns rest pool
  end.

(** The callback [i] is given every turn until it settles. *)
Definition finish {A} (i : nat) (pool : Pool A) : M (Pool A) :=
  fun w => match callbacks pool !! i with
           | Some (Await next effect) =>
               match run (Await next effect) w with
               | (Exited e, w') => (Exited e, w')
               | (o, w') =>
                   (Returned (mkPool (<[i := Settled o]> (callbacks pool))
                                (settled pool ++ [i])), w')
               end
           | _ => (Returned pool, w)
           end.

Fixpoint finish_each {A} (waiting : list nat) (pool : Pool A) : M (Pool A) :=
  match waiting with
  | [] => ret pool
  | i :: rest => pool <- finish i pool ;; finish_each rest pool
  end.

(** The event loop until every callback has settled: [schedule] says
    whose turn it is; the callbacks that still wait when it is used up
    are finished one after the other. *)
Definition event_loop {A} (schedule : list nat) (tasks : list (Task A)) : M (Pool A) :=
  pool <- turns schedule (mkPool tasks []) ;;
  finish_each (seq 0 (length tasks)) pool.

Definition rejection {A} (pool : Pool A) (i : nat) : option JsError :=
  match callbacks pool !! i with
  | Some (Settled (Thrown e)) => Some e
  | _ => None
  end.

Definition fulfilment {A} (p : Task A) : option A :=
  match p with
  | Settled (Returned a) => Some a
  | _ => None
  end.

(** [await Promise.all(promises)], once the promises have settled: it
    rejects with the rejection that came first, and resolves with the
    values, in the order of the promises, when there is none. *)
Definition promise_all {A} (pool : Pool A) : M (list A) :=
  match head (omap (rejection pool) (settled pool)) with
  | Some e => throw e
  | None => ret (omap fulfilment (callbacks pool))
  end.

(** The [.mdl] command, from line 204 on: [jobs] are the URLs of the
    command with what each download receives, [schedule] the turns the
    event loop gives to the callbacks, each named by the index of its
    URL. *)
Definition mdl_command (cwd : string) (send_outcome : Message -> option JsError)
    (partPath : string -> nat -> string) (maxPartBytes : nat)
    (jobs : list (string * Transfer)) (schedule : list nat) : M unit :=
  let urls := fst <$> jobs in
  if bool_decide (length urls = 0%nat) then
    sendMessage send_outcome
      (Text ("❌ No valid URLs found. Please provide at least one valid URL."
               +:+ nl +:+ nl +:+ "Example usage:" +:+ nl
               +:+ ".mdl https://example.com/file1" +:+ nl
               +:+ "https://example.com/file2"))
  else
    sendMessage send_outcome
      (Text ("📥 Starting download of " +:+ pretty (length urls) +:+ " files..."
               +:+ nl +:+ nl +:+
               join_with nl (imap (fun i u => pretty (i + 1)%nat +:+ ". " +:+ u) urls))) ;;
    modify (fun w => set_counters w 0 []) ;;
    let downloadPromises :=
      imap (fun i job =>
              Async.mdl_item cwd send_outcome partPath maxPartBytes
                (length urls) i (fst job) (snd job)) jobs in
    pool <- event_loop schedule downloadPromises ;;
    promise_all pool ;;
    text <- gets (summaryText (length urls)) ;;
    sendMessage send_outcome (Text text).

(* ===================================================================== *)
(** * Observations and summaries used to state the properties *)
(* ===================================================================== *)

(** Nothing below is part of the program.  [new_snapshots], [records_of]
    and [documents] read a world; [trace], [aborted] and [transfer_outcome]
    compute, from the inputs of a transfer alone, what the lemmas
    [pipeline_refine] and [handleDownload_run] prove the program does. *)

Definition world0 : World :=
  {| progress_map := ∅; disk := ∅; log_lines := [];
     snapshots := []; outbox := []; successCount := 0; failedUrls := [] |}.

(** The states of the store that appeared between world [w] and the later
    world [w']. *)
Definition new_snapshots (w w' : World) : list MemStorage.t :=
  drop (length (snapshots w)) (snapshots w').

(** The record read under [u] in each state of a history. *)
Definition records_of (u : string) (h : list MemStorage.t) : list DownloadProgress :=
  omap (fun m => m !! u) h.

(** A sequence of records cut after the first one in a terminal status. *)
Fixpoint until_terminal (l : list DownloadProgress) : list DownloadProgress :=
  match l with
  | [] => []
  | p :: rest => if is_terminal (status p) then [p] else p :: until_terminal rest
  end.

Fixpoint nondecreasing (l : list N) : bool :=
  match l with
  | a :: rest =>
      match rest with
      | b :: _ => (a <=? b) && nondecreasing rest
      | [] => true
      end
  | [] => true
  end.

(** The bytes of all chunks of a body. *)
Fixpoint received (events : list Event) : N :=
  match events with
  | [] => 0
  | Data chunk :: rest => buffer_length chunk + received rest
  | _ :: rest => received rest
  end.

(** An event that leaves the record of [u] to its own transfer. *)
Definition foreign (u : string) (ev : Event) : Prop :=
  match ev with
  | OtherWrite p => url p <> u
  | _ => True
  end.

(** Whether an event is a chunk of the body, or a call of
    [stopAllDownloads]. *)
Definition is_chunk (ev : Event) : bool :=
  match ev with
  | Data _ => true
  | _ => false
  end.


(** The record of [u] after each store mutation of [pipeline], computed
    without the store: [cur] is the record before the first event. *)
Fixpoint trace (u : string) (progress : DownloadProgress) (n : N)
    (cur : DownloadProgress) (events : list Event) : list DownloadProgress :=
  match events with
  | [] => []
  | Data chunk :: rest =>
      if bool_decide (status cur = "stopped") then []
      else
        let n' := n + buffer_length chunk in
        let cur' := with_bytes_status progress n' "downloading" in
        cur' :: trace u progress n' cur' rest
  | StopAll :: rest =>
      let cur' := with_status cur "stopped" in
      cur' :: trace u progress n cur' rest
  | OtherWrite p :: rest =>
      let cur' := if bool_decide (url p = u) then p else cur in
      cur' :: trace u progress n cur' rest
  end.

(** Whether [pipeline] meets a chunk while the record of [u] is stopped;
    [st] is the status before the first event. *)
Fixpoint aborted (u : string) (st : string) (events : list Event) : bool :=
  match events with
  | [] => false
  | Data _ :: rest =>
      if bool_decide (st = "stopped") then true else aborted u "downloading" rest
  | StopAll :: rest => aborted u "stopped" rest
  | OtherWrite p :: rest =>
      aborted u (if bool_decide (url p = u) then status p else st) rest
  end.

(** How [pipeline] ends, computed from its inputs: [opening] is the error
    of the writer's open, [ending] that of the response stream. *)
Definition pipeline_outcome (u st : string) (events : list Event)
    (opening ending : option JsError) : Outcome unit :=
  if aborted u st events then Exited (Error "Download stopped by user")
  else match opening, ending with
       | Some e, _ => Thrown e
       | None, Some e => Thrown e
       | None, None => Returned tt
       end.

(** The bytes of the chunks of a body, in order of arrival. *)
Fixpoint body (events : list Event) : Buffer :=
  match events with
  | [] => []
  | Data chunk :: rest => (chunk ++ body rest)%list
  | _ :: rest => body rest
  end.

(** The bytes that [pipeline] pipes to the writer: those of the chunks met
    before a chunk finds the record of [u] stopped; [st] is the status
    before the first event. *)
Fixpoint written (u : string) (st : string) (events : list Event) : Buffer :=
  match events with
  | [] => []
  | Data chunk :: rest =>
      if bool_decide (st = "stopped") then []
      else (chunk ++ written u "downloading" rest)%list
  | StopAll :: rest => written u "stopped" rest
  | OtherWrite p :: rest =>
      written u (if bool_decide (url p = u) then status p else st) rest
  end.

(** The record of lines 57-64, written when the transfer starts. *)
Definition first_record (u : string) (t : Transfer) (response : Response)
    : DownloadProgress :=
  {| fileName := resolveFileName u (content_disposition response);
     fileSize := default 0 (content_length response);
     downloadedBytes := 0;
     status := "downloading";
     url := u;
     startTime := t_now t |}.

(** [new Error(`Failed to download file: ${error.message}`)] *)
Definition wrapped (cause : JsError) : JsError :=
  Error ("Failed to download file: " +:+ err_message cause).

(** How [handleDownload] ends, computed from its inputs and the files
    [files] on disk when it starts.  After a failure of [pipeline] the
    cleanup finds the destination when the writer has opened it, or when
    it was there before; the [unlink] it then calls throws. *)
Definition transfer_outcome (cwd u : string) (t : Transfer)
    (files : gmap string Buffer) : Outcome DownloadResult.t :=
  match t_mkdir t with
  | Some e => Thrown (wrapped e)
  | None =>
      match t_axios t with
      | inl e => Thrown (wrapped e)
      | inr response =>
          let fileName := resolveFileName u (content_disposition response) in
          let filePath := destination cwd fileName in
          match pipeline_outcome u "downloading" (t_events t) (t_open t) (t_end t) with
          | Exited e => Exited e
          | Thrown e =>
              match t_open t, files !! filePath with
              | Some _, None => Thrown (wrapped e)
              | _, _ => Thrown (wrapped ERR_INVALID_ARG_TYPE)
              end
          | Returned _ =>
              Returned (DownloadResult.mk filePath fileName
                          (default 0 (content_length response)))
          end
      end
  end.

(** What the file of a writer holds once [pipeline] has ended as [o],
    of the bytes [piped] to the writer: all of them when [pipeline]
    resolves, else what had been flushed. *)
Definition file_content (flushed : nat) (piped : Buffer) (o : Outcome unit) : Buffer :=
  match o with
  | Returned _ => piped
  | _ => take flushed piped
  end.

(** The content of the destination file after [handleDownload], when the
    writer has opened it. *)
Definition file_after (u : string) (t : Transfer) : Buffer :=
  file_content (t_flushed t) (written u "downloading" (t_events t))
    (pipeline_outcome u "downloading" (t_events t) (t_open t) (t_end t)).

(** The body of a transfer does not exceed the announced length. *)
Definition within_length (t : Transfer) : Prop :=
  match t_axios t with
  | inr response => received (t_events t) <= default 0 (content_length response)
  | inl _ => True
  end.

(** A file name that is a single path segment: not empty, not [.] or
    [..], and without a slash. *)
Fixpoint has_slash (s : string) : bool :=
  match s with
  | EmptyString => false
  | String c r => Ascii.eqb c Path.slash || has_slash r
  end.

Definition plain_name (n : string) : bool :=
  negb (bool_decide (n = "")) && negb (bool_decide (n = "."))
  && negb (bool_decide (n = "..")) && negb (has_slash n).

(** What [path.join(a, n)] puts in front of a plain name [n]. *)
Definition join_prefix (a : string) : string :=
  if bool_decide (a = "") then ""
  else
    let stack := fold_left (Path.normalize_step (negb (Path.starts_with_slash a)))
                   (Path.split_slash a) [] in
    (if Path.starts_with_slash a then "/" else "") +:+
    (match stack with
     | [] => ""
     | _ :: _ => Path.join_slash (rev stack) +:+ "/"
     end).

(** The part files that [write_parts] returns for the chunks [parts],
    numbered from [i]. *)
Fixpoint part_files (partPath : string -> nat -> string) (source : string)
    (i : nat) (parts : list Buffer) : list Splitter.PartFile :=
  match parts with
  | [] => []
  | _ :: rest =>
      Splitter.mkPart i (partPath source i) :: part_files partPath source (S i) rest
  end.

(** The messages delivered between world [w] and the later world [w']. *)
Definition new_outbox (w w' : World) : list Message :=
  drop (length (outbox w)) (outbox w').

(** The documents among some messages: file name and content. *)
Definition documents (messages : list Message) : list (string * Buffer) :=
  omap (fun m => match m with
                 | Document document name _ => Some (name, document)
                 | _ => None
                 end) messages.

(** The names [fileName.part1], [fileName.part2], ... given to [n] parts. *)
Definition part_names (fileName : string) (n : nat) : list string :=
  (fun j => fileName +:+ ".part" +:+ pretty (j + 1)%nat) <$> seq 0 n.

(** The documents with which the handlers deliver a finished download
    whose file holds [content]: the parts of the splitter, named
    [fileName.part1], ..., above the threshold, and the file itself
    otherwise. *)
Definition delivered_documents (maxPartBytes : nat) (r : DownloadResult.t)
    (content : Buffer) : list (string * Buffer) :=
  if SPLIT_THRESHOLD <? DownloadResult.fileSize r then
    let chunks := Splitter.chunks maxPartBytes content in
    zip (part_names (DownloadResult.fileName r) (length chunks)) chunks
  else [(DownloadResult.fileName r, content)].

(** A download that is sent whole must fit what [fs.readFile] reads. *)
Definition readable (r : DownloadResult.t) (content : Buffer) : Prop :=
  DownloadResult.fileSize r <= SPLIT_THRESHOLD ->
  buffer_length content <= kIoMaxLength.

(** The messages the [for] loop over the parts sends for the part
    contents [contents], from index [j] on. *)
Fixpoint part_documents (fileName : string) (totalParts : nat) (j : nat)
    (contents : list Buffer) : list Message :=
  match contents with
  | [] => []
  | content :: rest =>
      Document content (fileName +:+ ".part" +:+ pretty (j + 1)%nat)
        (caption_part fileName j totalParts)
      :: part_documents fileName totalParts (S j) rest
  end.

(** ** Sample inputs *)

Definition sample_url : string := "http://a.example/f.bin".

Definition bytes5 : Buffer := [Byte.x01; Byte.x02; Byte.x03; Byte.x04; Byte.x05].

(** A response without [Content-Length] (chunked encoding): one chunk of
    five bytes, then the end of the stream. *)
Definition chunked_transfer : Transfer :=
  mkTransfer None (inr (mkResponse None None)) 7 None [Data bytes5] None 0.

(** Five bytes announced and received. *)
Definition plain_transfer : Transfer :=
  mkTransfer None (inr (mkResponse None (Some 5))) 7 None [Data bytes5] None 0.

(** Ten bytes announced; after five the connection breaks, when three
    bytes have reached the file. *)
Definition broken_transfer : Transfer :=
  mkTransfer None (inr (mkResponse None (Some 10))) 7 None [Data bytes5]
    (Some (Error "aborted")) 3.

(** Ten bytes announced; after five the server closes the stream. *)
Definition dropped_transfer : Transfer :=
  mkTransfer None (inr (mkResponse None (Some 10))) 7 None [Data bytes5]
    (Some ERR_STREAM_PREMATURE_CLOSE) 5.

(** Ten bytes announced; [stopAllDownloads] runs after the first chunk of
    five bytes, and a second chunk follows; the five bytes have reached
    the file by then. *)
Definition cancelled_transfer : Transfer :=
  mkTransfer None (inr (mkResponse None (Some 10))) 7 None
    [Data bytes5; StopAll; Data bytes5] None 5.

(** Ten bytes announced; [stopAllDownloads] runs after the first chunk of
    five bytes, and then the connection breaks. *)
Definition stopped_then_broken_transfer : Transfer :=
  mkTransfer None (inr (mkResponse None (Some 10))) 7 None
    [Data bytes5; StopAll] (Some (Error "aborted")) 5.



(** Ten bytes announced and received in two chunks; between them a second
    download of the same URL starts and writes its first record. *)
Definition restarted_transfer : Transfer :=
  mkTransfer None (inr (mkResponse None (Some 10))) 7 None
    [Data bytes5;
     OtherWrite (mkProgress "f.bin" 10 0 "downloading" sample_url 9);
     Data bytes5] None 0.

(** The request itself fails. *)
Definition refused_transfer : Transfer :=
  mkTransfer None (inl (Error "connect ECONNREFUSED")) 7 None [] None 0.

Definition finished_record : DownloadProgress :=
  {| fileName := "f.bin"; fileSize := 10; downloadedBytes := 10;
     status := "completed"; url := "http://a.example/f.bin"; startTime := 0 |}.

(** A naming scheme for the parts: the source path, [.part] and the index
    in decimal. *)
Definition decimal_partPath (source : string) (i : nat) : string :=
  source +:+ ".part" +:+ pretty i.

(** A socket on which every send succeeds. *)
Definition reliable_socket (content : Message) : option JsError := None.

(** A world whose disk holds the single file [f.bin], of five bytes. *)
Definition small_world : World :=
  set_disk world0 {[ "/srv/downloads/f.bin" := bytes5 ]}.

Definition small_result : DownloadResult.t :=
  DownloadResult.mk "/srv/downloads/f.bin" "f.bin" 5.

(** A file of 2 GiB and one byte, all zero, and a world that holds it. *)
Definition big_file : Buffer := replicate (N.to_nat 2147483649) Byte.x00.

Definition big_world : World :=
  set_disk world0 {[ "/srv/downloads/big.bin" := big_file ]}.

Definition big_result : DownloadResult.t :=
  DownloadResult.mk "/srv/downloads/big.bin" "big.bin" 2147483649.

(** A part size of 1 GiB. *)
(** A finished download of exactly 2 GiB, the largest the handlers send
    whole. *)
Definition two_GiB_file : Buffer := replicate (N.to_nat 2147483648) Byte.x00.

Definition two_GiB_world : World :=
  set_disk world0 {[ "/srv/downloads/two.bin" := two_GiB_file ]}.

Definition two_GiB_result : DownloadResult.t :=
  DownloadResult.mk "/srv/downloads/two.bin" "two.bin" 2147483648.

(** A download announced with 2 GiB + 1 bytes of which 5 are on disk:
    [Content-Length] counts the bytes on the wire, which for a compressed
    body are not the bytes of the file. *)
Definition short_result : DownloadResult.t :=
  DownloadResult.mk "/srv/downloads/f.bin" "f.bin" 2147483649.

Definition one_GiB : nat := N.to_nat 1073741824.


(** How the fetch of a job ends: [handleDownload] run on its own on the
    inputs of the job, in the world [w]. *)
Definition fetch_outcome (cwd : string) (w : World) (job : string * Transfer)
    : Outcome DownloadResult.t :=
  fst (handleDownload cwd (fst job) (snd job) w).

(** The text that confirms item [i] of [total]. *)
Definition confirmation (total i : nat) (fileName : string) : Message :=
  Text ("✅ Successfully downloaded (" +:+ pretty (i + 1)%nat +:+ "/"
          +:+ pretty total +:+ "): " +:+ fileName).


(** A batch of two: the first request is refused, the second download
    succeeds. *)
(** A schedule for two callbacks that take their turns one after the
    other, [n] times. *)
Definition alternating (n : nat) : list nat := concat (replicate n [0; 1]%nat).

(** The first message of a [.mdl] command. *)
Definition start_notice (urls : list string) : Message :=
  Text ("📥 Starting download of " +:+ pretty (length urls) +:+ " files..."
          +:+ nl +:+ nl +:+
          join_with nl (imap (fun i u => pretty (i + 1)%nat +:+ ". " +:+ u) urls)).

Definition sample_jobs : list (string * Transfer) :=
  [("http://a.example/f.bin", refused_transfer);
   ("http://a.example/g.bin", plain_transfer)].
(* ===================================================================== *)
(** * [server/storage.ts]: the download records *)
(* ===================================================================== *)

Module Downloads.

Section WithInsert.

(** The type [InsertDownload] of [@shared/schema], which is not among the
    sources: the fields a caller supplies. *)
Variable InsertDownload : Type.

(** [Download]: the spread [{ ...insertDownload, id, status, filename,
    parts, createdAt }]; the fields written out win over those of
    [insertDownload]. *)
Record Download := mkDownload {
  insert : InsertDownload;
  id : N;
  status : string;
  filename : option string;
  parts : N;
  createdAt : N
}.

(** The fields [downloads] and [currentId] of [MemStorage]. *)
Record t := mk { downloads : gmap N Download; currentId : N }.

(** The constructor. *)
Definition empty : t := mk ∅ 1.

(** [getDownload(id)] *)
Definition getDownload (i : N) (s : t) : option Download := downloads s !! i.

(** [createDownload(insertDownload)]; [now] is [new Date()]. *)
Definition createDownload (insertDownload : InsertDownload) (now : N) (s : t)
    : Download * t :=
  let id := currentId s in
  let download := mkDownload insertDownload id "pending" None 1 now in
  (download, mk (<[id := download]> (downloads s)) (currentId s + 1)).

(** The spread [{ ...download, status }]. *)
Definition with_status (download : Download) (st : string) : Download :=
  mkDownload (insert download) (id download) st (filename download)
    (parts download) (createdAt download).

(** [updateDownloadStatus(id, status)] *)
Definition updateDownloadStatus (i : N) (st : string) (s : t)
    : option Download * t :=
  match getDownload i s with
  | Some download =>
      let updatedDownload := with_status download st in
      (Some updatedDownload, mk (<[i := updatedDownload]> (downloads s)) (currentId s))
  | None => (None, s)
  end.

(** A call of one of the three methods, and a sequence of calls on a
    storage. *)
Inductive Call :=
| CreateDownload (insertDownload : InsertDownload) (now : N)
| UpdateDownloadStatus (i : N) (st : string)
| GetDownload (i : N).

Definition step (s : t) (c : Call) : t :=
  match c with
  | CreateDownload insertDownload now => snd (createDownload insertDownload now s)
  | UpdateDownloadStatus i st => snd (updateDownloadStatus i st s)
  | GetDownload _ => s
  end.

Definition run (calls : list Call) : t := fold_left step calls empty.

(** The number of [createDownload] calls in a sequence. *)
Fixpoint created (calls : list Call) : N :=
  match calls with
  | [] => 0
  | CreateDownload _ _ :: rest => 1 + created rest
  | _ :: rest => created rest
  end.

End WithInsert.

Arguments mkDownload {InsertDownload}.
Arguments insert {InsertDownload}.
Arguments id {InsertDownload}.
Arguments status {InsertDownload}.
Arguments filename {InsertDownload}.
Arguments parts {InsertDownload}.
Arguments createdAt {InsertDownload}.
Arguments mk {InsertDownload}.
Arguments downloads {InsertDownload}.
Arguments currentId {InsertDownload}.
Arguments empty {InsertDownload}.
Arguments getDownload {InsertDownload}.
Arguments createDownload {InsertDownload}.
Arguments with_status {InsertDownload}.
Arguments updateDownloadStatus {InsertDownload}.
Arguments CreateDownload {InsertDownload}.
Arguments UpdateDownloadStatus {InsertDownload}.
Arguments GetDownload {InsertDownload}.
Arguments step {InsertDownload}.
Arguments run {InsertDownload}.
Arguments created {InsertDownload}.

End Downloads.

(* ===================================================================== *)
(** * More observations on a transfer *)
(* ===================================================================== *)

Fixpoint has_quote (s : string) : bool :=
  match s with
  | EmptyString => false
  | String c r => Ascii.eqb c quote || has_quote r
  end.

(** The header [attachment; filename=QUOTE name QUOTE]. *)
Definition attachment_header (name : string) : string :=
  "attachment; filename=" +:+ String quote (name +:+ String quote EmptyString).


(** The text that reports the failure of item [i] of [total]. *)
Definition failure_notice (total i : nat) (u error : string) : Message :=
  Text ("❌ Failed to download (" +:+ pretty (i + 1)%nat +:+ "/"
          +:+ pretty total +:+ "): " +:+ u +:+ nl +:+ "Error: " +:+ error).

(** A socket that refuses the confirmations of the [.mdl] handler and
    delivers everything else. *)
Definition unconfirming_socket (content : Message) : option JsError :=
  match content with
  | Text text =>
      if bool_decide (strip_prefix "✅" text <> None)
      then Some (Error "Connection Closed") else None
  | _ => None
  end.

(* ===================================================================== *)
(** * The admin commands of the handler ([.add], [.remove]) *)
(* ===================================================================== *)

(** [const SUDO_USER] *)
Definition SUDO_USER : string := "94711797456@s.whatsapp.net".

Module Admin.

(** Strings are kept as their UTF-8 bytes.  The prefixes tested and cut
    off are ASCII, so [startsWith] and [slice] on bytes agree with
    JavaScript's, which count UTF-16 units. *)

(** [s.startsWith(pre)] *)
Definition startsWith (pre s : string) : bool :=
  match strip_prefix pre s with
  | Some _ => true
  | None => false
  end.

(** [s.slice(n)] *)
Fixpoint slice (n : nat) (s : string) : string :=
  match n, s with
  | O, _ => s
  | S n', String _ r => slice n' r
  | S _, EmptyString => EmptyString
  end.

(** The white space and line terminators that [trim] removes: TAB, LF,
    VT, FF, CR and SPACE, of one byte; U+00A0, of two; U+1680,
    U+2000 to U+200A, U+2028, U+2029, U+202F, U+205F, U+3000 and U+FEFF,
    of three. *)
Definition is_ws1 (a : ascii) : bool :=
  let n := N_of_ascii a in (9 <=? n) && (n <=? 13) || (n =? 32).

Definition is_ws2 (a b : ascii) : bool :=
  (N_of_ascii a =? 194) && (N_of_ascii b =? 160).

Definition is_ws3 (a b c : ascii) : bool :=
  let x := N_of_ascii a in
  let y := N_of_ascii b in
  let z := N_of_ascii c in
  (x =? 225) && (y =? 154) && (z =? 128)
  || (x =? 226) && (y =? 128)
     && ((128 <=? z) && (z <=? 138) || (z =? 168) || (z =? 169) || (z =? 175))
  || (x =? 226) && (y =? 129) && (z =? 159)
  || (x =? 227) && (y =? 128) && (z =? 128)
  || (x =? 239) && (y =? 187) && (z =? 191).

(** [trimStart] on the bytes, first to last. *)
Fixpoint trimStart (s : list ascii) : list ascii :=
  match s with
  | a :: r1 =>
      if is_ws1 a then trimStart r1
      else match r1 with
           | b :: r2 =>
               if is_ws2 a b then trimStart r2
               else match r2 with
                    | c :: r3 => if is_ws3 a b c then trimStart r3 else s
                    | [] => s
                    end
           | [] => s
           end
  | [] => []
  end.

(** [trimEnd] on the bytes, last to first. *)
Fixpoint trimEnd_reversed (s : list ascii) : list ascii :=
  match s with
  | a :: r1 =>
      if is_ws1 a then trimEnd_reversed r1
      else match r1 with
           | b :: r2 =>
               if is_ws2 b a then trimEnd_reversed r2
               else match r2 with
                    | c :: r3 => if is_ws3 c b a then trimEnd_reversed r3 else s
                    | [] => s
                    end
           | [] => s
           end
  | [] => []
  end.

(** [s.trim()] *)
Definition trim (s : string) : string :=
  string_of_list_ascii
    (rev (trimEnd_reversed (rev (trimStart (list_ascii_of_string s))))).

Definition is_digit (a : ascii) : bool :=
  let n := N_of_ascii a in (48 <=? n) && (n <=? 57).

(** [s.replace(/[^0-9]/g, '')]: a byte of a character that is not ASCII is
    not a digit. *)
Definition digits (s : string) : string :=
  string_of_list_ascii (List.filter is_digit (list_ascii_of_string s)).

(** [textMessage.slice(n).trim().replace(/[^0-9]/g, '') + '@s.whatsapp.net'] *)
Definition jid_of (n : nat) (textMessage : string) : string :=
  digits (trim (slice n textMessage)) +:+ "@s.whatsapp.net".

(** What the handler reads of an incoming message: the text, if it has
    one, [message.key.remoteJid] and [message.key.participant]. *)
Record Incoming := mkIncoming {
  textMessage : option string;
  remoteJid : string;
  participant : option string
}.

(** [message.key.participant || message.key.remoteJid] *)
Definition sender (m : Incoming) : string :=
  match participant m with
  | Some p => if bool_decide (p = "") then remoteJid m else p
  | None => remoteJid m
  end.

(** [const admins = new Set([SUDO_USER])] *)
Definition initial : gset string := {[ SUDO_USER ]}.

Definition isAdmin (admins : gset string) (jid : string) : bool :=
  bool_decide (jid ∈ admins).

(** Lines 111-117: the set after the command and the text of the reply.
    The set is changed before the reply is sent. *)
Definition add (admins : gset string) (text : string) : gset string * string :=
  let numberToAdd := jid_of 5 text in
  if bool_decide (numberToAdd ∈ admins) then
    (admins, "❌ User is already an admin")
  else
    ({[ numberToAdd ]} ∪ admins, "✅ Admin added successfully").

(** Lines 123-132. *)
Definition remove (admins : gset string) (text : string) : gset string * string :=
  let numberToRemove := jid_of 8 text in
  if bool_decide (numberToRemove = SUDO_USER) then
    (admins, "❌ Cannot remove sudo user")
  else if negb (bool_decide (numberToRemove ∈ admins)) then
    (admins, "❌ User is not an admin")
  else
    (admins ∖ {[ numberToRemove ]}, "✅ Admin removed successfully").

(** The two admin branches of the loop body (lines 110 and 122), tried in
    this order; [None] when neither condition holds and the message goes
    on to the other commands, none of which touches [admins]. *)
Definition command (admins : gset string) (m : Incoming)
    : option (gset string * string) :=
  match textMessage m with
  | None => None
  | Some text =>
      if startsWith ".add " text && isAdmin admins (sender m) then
        Some (add admins text)
      else if startsWith ".remove " text && isAdmin admins (sender m) then
        Some (remove admins text)
      else None
  end.

(** The set [admins] after the handler has processed message [m]. *)
Definition after (admins : gset string) (m : Incoming) : gset string :=
  match command admins m with
  | Some (admins', _) => admins'
  | None => admins
  end.

(** A string of decimal digits. *)
Definition all_digits (s : string) : bool :=
  forallb is_digit (list_ascii_of_string s).

End Admin.

(* ===================================================================== *)
(** * [cleanDirectory] *)
(* ===================================================================== *)

Module Dir.

(** A directory as [cleanDirectory] meets it.  An entry carries the error
    with which [unlink] rejects on it, if it does: the call fails on a
    sub-directory, or for lack of permission. *)
Record Entry := mkEntry { name : string; unlink_error : option JsError }.

(** [Missing]: [existsSync(dir)] is false.  [Unreadable e]: [readdir(dir)]
    rejects with [e].  [Listing entries]: [readdir] resolves to the names
    of [entries], in this order. *)
Inductive t :=
| Missing
| Unreadable (e : JsError)
| Listing (entries : list Entry).

(** The [for] loop (lines 35-38): the error that ends it or the final
    [count], and the entries that are left. *)
Fixpoint unlink_each (files : list Entry) (count : nat)
    : (JsError + nat) * list Entry :=
  match files with
  | [] => (inr count, [])
  | file :: rest =>
      match unlink_error file with
      | Some e => (inl e, file :: rest)
      | None => unlink_each rest (S count)
      end
  end.

(** The line logged by the [catch] block. *)
Definition error_line (dir : string) (e : JsError) : string :=
  "Error cleaning directory " +:+ dir +:+ ": " +:+ err_name e +:+ ": "
    +:+ err_message e.

(** [cleanDirectory(dir)]: the number returned, the directory afterwards
    and the lines logged. *)
Definition cleanDirectory (dir : string) (d : t) : nat * t * list string :=
  match d with
  | Missing => (0%nat, Missing, [])
  | Unreadable e => (0%nat, Unreadable e, [error_line dir e])
  | Listing files =>
      match unlink_each files 0 with
      | (inr count, remaining) => (count, Listing remaining, [])
      | (inl e, remaining) => (0%nat, Listing remaining, [error_line dir e])
      end
  end.

End Dir.

(* ===================================================================== *)
(** * [formatBytes] (the same function in the downloader and the handler) *)
(* ===================================================================== *)

Module Format.

(** The variable [size] of the loop is [bytes / 1024^k].  For an integer
    [bytes] below 2^53 (the handler passes a [Content-Length]) each
    division by 1024 is exact in floating point, so [size] is kept as the
    exact fraction [num / den]. *)
Record Size := mkSize { num : N; den : N }.

Definition units : list string := ["B"; "KB"; "MB"; "GB"].

(** The [while] loop.  [unitIndex] grows at each turn and the loop stops
    at [units.length - 1], so it makes at most three turns from 0. *)
Fixpoint scale (fuel : nat) (size : Size) (unitIndex : nat) : Size * nat :=
  match fuel with
  | O => (size, unitIndex)
  | S fuel' =>
      if (1024 * den size <=? num size) && (unitIndex <? length units - 1)%nat
      then scale fuel' (mkSize (num size) (den size * 1024)) (S unitIndex)
      else (size, unitIndex)
  end.

(** [size.toFixed(2)] takes the integer [n] for which [n / 100] is nearest
    to [size], the larger one on a tie. *)
Definition hundredths (size : Size) : N :=
  (200 * num size + den size) / (2 * den size).

Definition two_digits (n : N) : string :=
  if n <? 10 then "0" +:+ pretty n else pretty n.

Definition toFixed2 (size : Size) : string :=
  let n := hundredths size in
  pretty (n / 100) +:+ "." +:+ two_digits (n mod 100).

Definition formatBytes (bytes : N) : string :=
  let '(size, unitIndex) := scale (length units) (mkSize bytes 1) 0 in
  toFixed2 size +:+ " " +:+ default "" (units !! unitIndex).

End Format.
(* ===================================================================== *)
(** * What a callback reads and writes *)
(* ===================================================================== *)

(** The part of the world that belongs to one callback: the record of
    its URL in the progress store, and its files. *)
Record Footprint := mkFootprint {
  own_url : string;
  owns : string -> Prop
}.

(** Two callbacks that share neither a URL nor a file. *)
Definition separate (F G : Footprint) : Prop :=
  own_url F <> own_url G /\ forall p, owns F p -> ~ owns G p.

(** Two worlds that look the same to a callback. *)
Definition agree (F : Footprint) (w1 w2 : World) : Prop :=
  progress_map w1 !! own_url F = progress_map w2 !! own_url F /\
  forall p, owns F p -> disk w1 !! p = disk w2 !! p.

(** A change of the world that stays within a footprint: the store
    stays keyed, the records of other URLs and the files of others are
    left alone, and messages, successes and failure entries are only
    added. *)
Record Moves (F : Footprint) (w w' : World) (sent : list Message)
    (counted : nat) (failed : list (string * string)) : Prop := mkMoves {
  moves_keyed : keyed (progress_map w) -> keyed (progress_map w');
  moves_store : forall u, u <> own_url F -> progress_map w' !! u = progress_map w !! u;
  moves_disk : forall p, ~ owns F p -> disk w' !! p = disk w !! p;
  moves_outbox : outbox w' = (outbox w ++ sent)%list;
  moves_count : successCount w' = (successCount w + counted)%nat;
  moves_failed : failedUrls w' = (failedUrls w ++ failed)%list
}.

(** The same change, made in two worlds that look the same. *)
Definition same_move (F : Footprint) (w1 w1' w2 w2' : World) : Prop :=
  agree F w1' w2' /\
  exists sent counted failed,
    Moves F w1 w1' sent counted failed /\ Moves F w2 w2' sent counted failed.

(** No condition on the value returned. *)
Abbreviation anything := (fun _ => True).

(** Code that reads and writes within a footprint: in worlds that look
    the same it ends the same way, with a value in [P] if it returns,
    and makes the same change. *)
Definition local {A} (F : Footprint) (P : A -> Prop) (c : M A) : Prop :=
  forall w1 w2,
    keyed (progress_map w1) -> keyed (progress_map w2) -> agree F w1 w2 ->
    fst (c w1) = fst (c w2) /\
    (forall a, fst (c w1) = Returned a -> P a) /\
    same_move F w1 (snd (c w1)) w2 (snd (c w2)).

(** Two callbacks that go on in the same way, turn by turn, as long as
    their worlds look the same. *)
Fixpoint similar {A} (F : Footprint) (P : A -> Prop) (p q : Task A) : Prop :=
  match p, q with
  | Settled o1, Settled o2 => o1 = o2 /\ forall a, o1 = Returned a -> P a
  | Await next1 effect1, Await next2 effect2 =>
      forall w1 w2,
        keyed (progress_map w1) -> keyed (progress_map w2) -> agree F w1 w2 ->
        similar F P (next1 w1) (next2 w2) /\
        same_move F w1 (effect1 w1) w2 (effect2 w2)
  | _, _ => False
  end.

(** What the callback of a job of the [.mdl] handler owns: the record of
    its URL, its destination file and the parts of that file. *)
Definition footprint (cwd : string) (partPath : string -> nat -> string)
    (job : string * Transfer) : Footprint :=
  {| own_url := fst job;
     owns p :=
       match t_axios (snd job) with
       | inr response =>
           let filePath :=
             destination cwd (resolveFileName (fst job) (content_disposition response)) in
           p = filePath \/ exists k, p = partPath filePath k
       | inl _ => False
       end |}.

(** A result of [handleDownload] that names a file of the footprint,
    with its parts. *)
Definition names_destination (F : Footprint) (partPath : string -> nat -> string)
    (r : DownloadResult.t) : Prop :=
  owns F (DownloadResult.filePath r) /\
  forall k, owns F (partPath (DownloadResult.filePath r) k).

(** The jobs of a batch have different URLs and share no file. *)
Definition apart (cwd : string) (partPath : string -> nat -> string)
    (jobs : list (string * Transfer)) : Prop :=
  forall i j a b,
    i <> j -> jobs !! i = Some a -> jobs !! j = Some b ->
    separate (footprint cwd partPath a) (footprint cwd partPath b).

(** During a transfer nobody else writes the store. *)
Definition undisturbed (t : Transfer) : Prop :=
  Forall (fun ev => is_chunk ev = true) (t_events t).

(** The failure entry of a job whose fetch fails, and whether the fetch
    of a job succeeds, in the world in which the batch starts. *)
Definition fetch_failure (cwd : string) (w : World) (job : string * Transfer)
    : option (string * string) :=
  match fetch_outcome cwd w job with
  | Thrown e => Some (fst job, err_message e)
  | _ => None
  end.

Definition fetched (cwd : string) (w : World) (job : string * Transfer) : bool :=
  match fetch_outcome cwd w job with
  | Returned _ => true
  | _ => false
  end.

(** A job whose download, if it succeeds, can be delivered. *)
Definition deliverable (cwd : string) (w : World) (job : string * Transfer) : Prop :=
  forall r, fetch_outcome cwd w job = Returned r ->
            readable r (body (t_events (snd job))).

(** A callback of a pool and the same callback on its own: how far the
    latter has come, in which world, and what it has added so far. *)
Record Alone (A : Type) := mkAlone {
  alone_task : Task A;
  alone_world : World;
  alone_sent : list Message;
  alone_counted : nat;
  alone_failed : list (string * string)
}.

Arguments mkAlone {A} alone_task alone_world alone_sent alone_counted alone_failed.
Arguments alone_task {A} a.
Arguments alone_world {A} a.
Arguments alone_sent {A} a.
Arguments alone_counted {A} a.
Arguments alone_failed {A} a.

(** The callbacks [pool] in the world [w], next to the callbacks that
    started as [tasks] in [w0] and run each on its own: every callback
    of the pool goes on as its twin, in a world that looks the same to
    it, and the world of the pool holds what the twins have added, in
    some order. *)
Record Isolated {A} (Fs : list Footprint) (tasks : list (Task A)) (w0 : World)
    (pool : list (Task A)) (w : World) (twins : list (Alone A)) : Prop := mkIsolated {
  iso_keyed : keyed (progress_map w);
  iso_pool : length pool = length tasks;
  iso_twins : length twins = length tasks;
  iso_each : forall i F p0 p x,
    Fs !! i = Some F -> tasks !! i = Some p0 ->
    pool !! i = Some p -> twins !! i = Some x ->
    similar F (fun _ => True) p (alone_task x) /\
    agree F w (alone_world x) /\
    keyed (progress_map (alone_world x)) /\
    run (alone_task x) (alone_world x) = run p0 w0 /\
    Moves F w0 (alone_world x) (alone_sent x) (alone_counted x) (alone_failed x);
  iso_outbox : exists merged,
    outbox w = (outbox w0 ++ merged)%list /\
    merged ≡ₚ concat (alone_sent <$> twins);
  iso_count :
    successCount w = (successCount w0 + sum_list (alone_counted <$> twins))%nat;
  iso_failed : exists merged,
    failedUrls w = (failedUrls w0 ++ merged)%list /\
    merged ≡ₚ concat (alone_failed <$> twins)
}.

(* ===================================================================== *)
(** * Facts about the progress store *)
(* ===================================================================== *)

Section StoreFacts.

Implicit Types (m : MemStorage.t) (p : DownloadProgress) (u k : string).

Lemma stop_loop_union m acc :
  map_fold (fun u progress a => <[u := with_status progress "stopped"]> a) acc m
  = ((fun p => with_status p "stopped") <$> m) ∪ acc.
Proof.
  apply (map_fold_weak_ind
           (fun r m' => r = ((fun p => with_status p "stopped") <$> m') ∪ acc)).
  - by rewrite fmap_empty, (left_id_L ∅ (∪)).
  - intros i x m' r Hi ->. by rewrite fmap_insert, insert_union_l.
Qed.

Lemma stopAllDownloads_fmap m :
  stopAllDownloads m = (fun p => with_status p "stopped") <$> m.
Proof.
  unfold stopAllDownloads. rewrite stop_loop_union.
  apply map_eq. intros k. rewrite lookup_union, lookup_fmap.
  destruct (m !! k); reflexivity.
Qed.

Lemma stopAllDownloads_lookup m k :
  stopAllDownloads m !! k = (fun p => with_status p "stopped") <$> (m !! k).
Proof. by rewrite stopAllDownloads_fmap, lookup_fmap. Qed.

Lemma keyed_empty : keyed ∅.
Proof. intros k p H. by rewrite lookup_empty in H. Qed.

Lemma keyed_update m p : keyed m -> keyed (updateDownloadProgress (url p) p m).
Proof.
  intros Hk k q. unfold updateDownloadProgress.
  destruct (decide (k = url p)) as [->|Hne].
  - rewrite lookup_insert_eq. by intros [= <-].
  - rewrite lookup_insert_ne by done. apply Hk.
Qed.

Lemma keyed_stopAll m : keyed m -> keyed (stopAllDownloads m).
Proof.
  intros Hk k q. rewrite stopAllDownloads_lookup.
  destruct (m !! k) as [p|] eqn:E; simpl; [|done].
  intros [= <-]. simpl. by apply Hk.
Qed.

(** Under [keyed], the linear search of [find] is a map lookup. *)
Lemma findByUrl_lookup m u : keyed m -> findByUrl u m = m !! u.
Proof.
  intros Hk. unfold findByUrl, getActiveDownloads.
  destruct (List.find _ _) as [q|] eqn:F.
  - apply List.find_some in F as [Hin Hq].
    apply bool_decide_eq_true in Hq.
    apply list_elem_of_In, list_elem_of_fmap in Hin as [[k q'] [-> Hin]].
    apply elem_of_map_to_list in Hin. simpl in *.
    rewrite <- Hq, (Hk _ _ Hin). done.
  - destruct (m !! u) as [p|] eqn:E; [|done].
    exfalso.
    assert (Hin : In p (map_to_list m).*2).
    { apply list_elem_of_In, list_elem_of_fmap. exists (u, p).
      split; [done|]. by apply elem_of_map_to_list. }
    pose proof (List.find_none _ _ F p Hin) as Hf.
    apply bool_decide_eq_false in Hf. apply Hf. by apply Hk.
Qed.

End StoreFacts.

(* ===================================================================== *)
(** * [stopAllDownloads] *)
(* ===================================================================== *)

(** C3, as stated, fails: a record whose status is completed does not stay
    unchanged; after [stopAllDownloads] its status is stopped. *)
Lemma stopAllDownloads_changes_completed :
  status finished_record = "completed" /\
  stopAllDownloads {[ "http://a.example/f.bin" := finished_record ]}
    !! "http://a.example/f.bin"
  = Some (with_status finished_record "stopped") /\
  with_status finished_record "stopped" <> finished_record.
Proof.
  split; [reflexivity|]. split; [|discriminate].
  rewrite stopAllDownloads_lookup, lookup_singleton_eq. reflexivity.
Qed.

(** C3, amended: [stopAllDownloads] sets the status to stopped for every
    record of the store, whatever its status was, completed included; the
    record read under a key afterwards is the one read before with its
    status replaced, and a key without a record stays without one. *)
Theorem stopAllDownloads_stops_every_record (m : MemStorage.t) (k : string) :
  stopAllDownloads m !! k
  = match m !! k with
    | Some p => Some (with_status p "stopped")
    | None => None
    end.
Proof. rewrite stopAllDownloads_lookup. by destruct (m !! k). Qed.

(** C10: [stopAllDownloads] changes nothing but the status field: the
    store has the same keys before and after, and under every key the
    fields url, fileName, fileSize, downloadedBytes and startTime are the
    same before and after. *)
Theorem stopAllDownloads_frame (m : MemStorage.t) :
  dom (stopAllDownloads m) = dom m /\
  forall k,
    match m !! k, stopAllDownloads m !! k with
    | Some p, Some q =>
        url q = url p /\ fileName q = fileName p /\ fileSize q = fileSize p /\
        downloadedBytes q = downloadedBytes p /\ startTime q = startTime p
    | None, None => True
    | _, _ => False
    end.
Proof.
  split.
  - rewrite stopAllDownloads_fmap. apply dom_fmap_L.
  - intros k. rewrite stopAllDownloads_lookup.
    destruct (m !! k) as [p|]; simpl; auto.
Qed.
(* ===================================================================== *)
(** * The streaming loop of [handleDownload] *)
(* ===================================================================== *)

Ltac run_js :=
  unfold bind, ret, throw, exit_process, try_catch, gets, modify, store_find,
    store_update, store_stop_all, log, createWriteStream, finish_writer,
    abandon_writer, existsSync, unlink_without_callback; simpl.

Lemma bool_decide_Some_eq {A} `{EqDecision A} (a b : A) :
  bool_decide (Some a = Some b) = bool_decide (a = b).
Proof. apply bool_decide_ext. split; [by intros [= ->]|by intros ->]. Qed.

Lemma default_last_cons {A} (x d : A) (l : list A) :
  default d (last (x :: l)) = default x (last l).
Proof. rewrite last_cons. by destruct (last l). Qed.

Section PipelineFacts.

Variables (u : string) (progress : DownloadProgress).
Variables (fp : string) (opening : option JsError) (flushed : nat).
Variable ending : option JsError.
Hypothesis progress_url : url progress = u.

Let writer := mkWriter fp opening flushed.

(** The loop does what [pipeline_outcome], [trace] and [written] compute:
    it ends as the first says, the records of [u] it leaves in the store
    are those of the second, and the file of a writer that opened holds
    the bytes of the third, or as many of them as were flushed. *)
Lemma pipeline_refine (events : list Event) :
  forall (n : N) (queued : Buffer) (cur : DownloadProgress) (w : World),
    keyed (progress_map w) ->
    progress_map w !! u = Some cur ->
    let o := pipeline_outcome u (status cur) events opening ending in
    exists w' added,
      pipeline u progress writer n queued events ending w = (o, w') /\
      keyed (progress_map w') /\
      snapshots w' = (snapshots w ++ added)%list /\
      records_of u added = trace u progress n cur events /\
      length added = length (trace u progress n cur events) /\
      progress_map w' !! u = Some (default cur (last (trace u progress n cur events))) /\
      disk w' = match opening with
                | Some _ => disk w
                | None =>
                    <[fp := file_content flushed
                              (queued ++ written u (status cur) events) o]> (disk w)
                end.
Proof.
  induction events as [|ev rest IH]; intros n queued cur w Hk Hcur; cbv zeta.
  - unfold pipeline_outcome. cbn [pipeline aborted written trace writer_open writer].
    rewrite app_nil_r.
    destruct opening as [e|].
    + exists w, []. rewrite app_nil_r. by repeat split.
    + destruct ending as [e|].
      * eexists _, []. unfold bind, abandon_writer. cbn [writer_open writer].
        unfold modify, throw. simpl. rewrite app_nil_r. by repeat split.
      * eexists _, []. unfold finish_writer, modify. simpl.
        rewrite app_nil_r. by repeat split.
  - destruct ev as [chunk| |p]; cbn [pipeline trace aborted written].
    + unfold bind at 1, store_find at 1, gets at 1.
      rewrite (findByUrl_lookup _ _ Hk), Hcur. cbn [fmap option_fmap option_map].
      rewrite bool_decide_Some_eq. unfold pipeline_outcome. cbn [aborted].
      destruct (bool_decide (status cur = "stopped")) eqn:Hst.
      * rewrite app_nil_r. destruct opening as [e|].
        -- exists w, []. unfold bind, abandon_writer, exit_process.
           cbn [writer_open writer]. unfold ret. rewrite app_nil_r. by repeat split.
        -- eexists _, []. unfold bind, abandon_writer, exit_process.
           cbn [writer_open writer]. unfold modify. simpl.
           rewrite app_nil_r. by repeat split.
      * set (n' := n + buffer_length chunk).
        set (cur' := with_bytes_status progress n' "downloading").
        set (w1 := set_store w (updateDownloadProgress u cur' (progress_map w))).
        destruct (IH n' (queued ++ chunk)%list cur' w1)
          as (w' & added & Hrun & Hk' & Hsn & Hrec & Hlen & Hlast & Hdisk).
        { simpl. rewrite <- progress_url. apply (keyed_update _ cur'), Hk. }
        { simpl. apply lookup_insert_eq. }
        exists w', (updateDownloadProgress u cur' (progress_map w) :: added).
        split; [|split; [done|split; [|split; [|split; [by rewrite length_cons, Hlen|split]]]]].
        -- unfold bind, store_update, modify. simpl.
           fold n' cur' w1. rewrite Hrun. reflexivity.
        -- rewrite Hsn. simpl. by rewrite <- (assoc_L (++)).
        -- unfold records_of in *. simpl.
           unfold updateDownloadProgress at 1. rewrite lookup_insert_eq.
           cbn [mbind option_bind]. f_equal. exact Hrec.
        -- by rewrite default_last_cons.
        -- rewrite Hdisk. cbv zeta. unfold pipeline_outcome.
           cbn [status cur' with_bytes_status]. simpl.
           by rewrite <- (assoc_L (++)).
    + set (cur' := with_status cur "stopped").
      set (w1 := set_store w (stopAllDownloads (progress_map w))).
      destruct (IH n queued cur' w1)
        as (w' & added & Hrun & Hk' & Hsn & Hrec & Hlen & Hlast & Hdisk).
      { simpl. by apply keyed_stopAll. }
      { simpl. rewrite stopAllDownloads_lookup, Hcur. reflexivity. }
      exists w', (stopAllDownloads (progress_map w) :: added).
      split; [|split; [done|split; [|split; [|split; [by rewrite length_cons, Hlen|split]]]]].
      * unfold bind, store_stop_all, modify. simpl. fold w1. rewrite Hrun.
        unfold pipeline_outcome. reflexivity.
      * rewrite Hsn. simpl. by rewrite <- (assoc_L (++)).
      * unfold records_of in *. simpl.
        rewrite stopAllDownloads_lookup, Hcur.
        cbn [fmap option_fmap option_map]. f_equal. exact Hrec.
      * by rewrite default_last_cons.
      * rewrite Hdisk. reflexivity.
    + set (cur' := if bool_decide (url p = u) then p else cur).
      set (w1 := set_store w (updateDownloadProgress (url p) p (progress_map w))).
      assert (Hcur' : progress_map w1 !! u = Some cur').
      { simpl. unfold updateDownloadProgress, cur'. case_bool_decide as E.
        - rewrite E. apply lookup_insert_eq.
        - by rewrite lookup_insert_ne. }
      assert (Hst' : status cur' = if bool_decide (url p = u) then status p else status cur).
      { unfold cur'. by destruct (bool_decide (url p = u)). }
      destruct (IH n queued cur' w1)
        as (w' & added & Hrun & Hk' & Hsn & Hrec & Hlen & Hlast & Hdisk).
      { simpl. by apply keyed_update. }
      { done. }
      exists w', (updateDownloadProgress (url p) p (progress_map w) :: added).
      split; [|split; [done|split; [|split; [|split; [by rewrite length_cons, Hlen|split]]]]].
      * unfold bind, store_update, modify. simpl. fold w1. rewrite Hrun.
        unfold pipeline_outcome. cbn [aborted]. by rewrite Hst'.
      * rewrite Hsn. simpl. by rewrite <- (assoc_L (++)).
      * unfold records_of in *. simpl. simpl in Hcur'. rewrite Hcur'.
        f_equal. exact Hrec.
      * by rewrite default_last_cons.
      * rewrite Hdisk. cbv zeta. unfold pipeline_outcome. cbn [aborted].
        by rewrite Hst'.
Qed.

(** The loop touches neither the socket nor the counters of the [.mdl]
    handler, and it takes no record out of the store. *)
Lemma pipeline_frame (events : list Event) :
  forall (n : N) (queued : Buffer) (w : World) r w',
    pipeline u progress writer n queued events ending w = (r, w') ->
    outbox w' = outbox w /\ successCount w' = successCount w /\
    failedUrls w' = failedUrls w /\
    dom (progress_map w) ⊆ dom (progress_map w').
Proof.
  induction events as [|ev rest IH]; intros n queued w r w' H.
  - cbn [pipeline writer_open writer] in H.
    destruct opening; [by injection H as <- <-|].
    destruct ending; injection H as <- <-; by repeat split.
  - destruct ev as [chunk| |p]; cbn [pipeline] in H.
    + unfold bind at 1, store_find at 1, gets at 1 in H. cbv beta iota in H.
      destruct (bool_decide (status <$> findByUrl u (progress_map w) = Some "stopped")).
      * unfold bind, abandon_writer, exit_process in H. cbn [writer_open writer] in H.
        destruct opening; injection H as <- <-; by repeat split.
      * unfold bind at 1, store_update at 1, modify at 1 in H.
        cbv beta iota in H.
        apply IH in H as (H1 & H2 & H3 & H4).
        simpl in *. repeat split; try done.
        etrans; [|exact H4]. unfold updateDownloadProgress.
        rewrite dom_insert. apply union_subseteq_r.
    + unfold bind at 1, store_stop_all at 1, modify at 1 in H. cbv beta iota in H.
      apply IH in H as (H1 & H2 & H3 & H4). simpl in *. repeat split; try done.
      etrans; [|exact H4]. by rewrite stopAllDownloads_fmap, dom_fmap.
    + unfold bind at 1, store_update at 1, modify at 1 in H. cbv beta iota in H.
      apply IH in H as (H1 & H2 & H3 & H4). simpl in *. repeat split; try done.
      etrans; [|exact H4]. unfold updateDownloadProgress.
      rewrite dom_insert. apply union_subseteq_r.
Qed.

End PipelineFacts.

(* ===================================================================== *)
(** * One call of [handleDownload] *)
(* ===================================================================== *)

Lemma new_snapshots_app (w w' : World) (added : list MemStorage.t) :
  snapshots w' = (snapshots w ++ added)%list -> new_snapshots w w' = added.
Proof. intros H. unfold new_snapshots. by rewrite H, drop_app_length. Qed.

Lemma records_of_app (u : string) (h1 h2 : list MemStorage.t) :
  records_of u (h1 ++ h2) = (records_of u h1 ++ records_of u h2)%list.
Proof. apply omap_app. Qed.

(** One call of [handleDownload] ends as [transfer_outcome] computes; it
    leaves the socket and the counters alone; when the response has
    arrived, the records it writes are the first record, those of [trace]
    and, on success, the completed one, and of the files it changes at
    most the destination, and that only when the writer has opened it. *)
Lemma handleDownload_run (cwd u : string) (t : Transfer) (w : World) :
  keyed (progress_map w) ->
  exists w',
    handleDownload cwd u t w = (transfer_outcome cwd u t (disk w), w') /\
    keyed (progress_map w') /\
    outbox w' = outbox w /\ successCount w' = successCount w /\
    failedUrls w' = failedUrls w /\
    match t_mkdir t, t_axios t with
    | None, inr response =>
        let progress := first_record u t response in
        let tr := trace u progress 0 progress (t_events t) in
        let final := with_bytes_status progress (fileSize progress) "completed" in
        let fp := destination cwd (fileName progress) in
        disk w' = match t_open t with
                  | Some _ => disk w
                  | None => <[fp := file_after u t]> (disk w)
                  end /\
        length (new_snapshots w w') = length (records_of u (new_snapshots w w')) /\
        match pipeline_outcome u "downloading" (t_events t) (t_open t) (t_end t) with
        | Returned _ =>
            records_of u (new_snapshots w w') = (progress :: tr ++ [final])%list /\
            progress_map w' !! u = Some final
        | _ =>
            records_of u (new_snapshots w w') = progress :: tr /\
            progress_map w' !! u = Some (default progress (last tr))
        end
    | _, _ =>
        progress_map w' = progress_map w /\ snapshots w' = snapshots w /\
        disk w' = disk w
    end.
Proof.
  intros Hk. unfold handleDownload, transfer_outcome.
  destruct (t_mkdir t) as [e|].
  { eexists. run_js. repeat split; auto. }
  destruct (t_axios t) as [e|response].
  { eexists. run_js. repeat split; auto. }
  set (progress := first_record u t response).
  set (fp := destination cwd (fileName progress)).
  set (d0 := match t_open t with
             | Some _ => disk w
             | None => <[fp := []]> (disk w)
             end).
  set (w0 := set_store (set_disk w d0)
               (updateDownloadProgress u progress (progress_map w))).
  destruct (pipeline_refine u progress fp (t_open t) (t_flushed t) (t_end t) eq_refl
              (t_events t) 0 [] progress w0)
    as (w1 & added & Hrun & Hk1 & Hsn & Hrec & Hlen & Hlast & Hdisk).
  { simpl. apply (keyed_update _ progress), Hk. }
  { simpl. apply lookup_insert_eq. }
  destruct (pipeline_frame u progress fp (t_open t) (t_flushed t) (t_end t)
              (t_events t) 0 [] w0 _ _ Hrun) as (Ho & Hc & Hf & _).
  cbv zeta in Hrun, Hdisk. change (status progress) with "downloading" in Hrun, Hdisk.
  cbn [app] in Hdisk. fold (file_after u t) in Hdisk.
  assert (Hd1 : disk w1 = match t_open t with
                          | Some _ => disk w
                          | None => <[fp := file_after u t]> (disk w)
                          end).
  { rewrite Hdisk. simpl. unfold d0. destruct (t_open t); [done|].
    apply insert_insert_eq. }
  assert (Hstart : bind (createWriteStream (mkWriter fp (t_open t) (t_flushed t)))
                     (fun _ => bind (store_update u progress) (fun _ => ret tt)) w
                   = (Returned tt, w0)).
  { unfold bind, createWriteStream, store_update, modify, ret, w0, d0.
    cbn [writer_open writer_path]. destruct (t_open t); reflexivity. }
  assert (Hsnap : snapshots w1
                  = (snapshots w ++ updateDownloadProgress u progress (progress_map w)
                       :: added)%list).
  { rewrite Hsn. simpl. by rewrite <- (assoc_L (++)). }
  assert (Hfirst : records_of u (updateDownloadProgress u progress (progress_map w) :: added)
                   = progress :: trace u progress 0 progress (t_events t)).
  { unfold records_of in *. simpl. unfold updateDownloadProgress at 1.
    rewrite lookup_insert_eq. cbn [mbind option_bind]. f_equal. exact Hrec. }
  assert (Hlen1 : length (updateDownloadProgress u progress (progress_map w) :: added)
                  = length (records_of u
                              (updateDownloadProgress u progress (progress_map w) :: added))).
  { rewrite Hfirst. simpl. by rewrite Hlen. }
  unfold try_catch at 1, bind at 1, mkdir, ret.
  unfold bind at 1, axios, ret. cbv beta iota zeta.
  change (resolveFileName u (content_disposition response)) with (fileName progress).
  fold fp. change (mkProgress _ _ _ _ _ _) with progress.
  unfold bind at 1.
  assert (Hcw : createWriteStream (mkWriter fp (t_open t) (t_flushed t)) w
                = (Returned tt, set_disk w d0)).
  { unfold createWriteStream, modify, ret, d0. cbn [writer_open writer_path].
    destruct (t_open t); [|done]. by destruct w. }
  rewrite Hcw.
  unfold bind at 1, store_update at 1, modify.
  change (set_store (set_disk w d0) _) with w0.
  unfold bind at 1, try_catch at 1.
  rewrite Hrun.
  destruct (pipeline_outcome u "downloading" (t_events t) (t_open t) (t_end t))
    as [[]|e|e] eqn:Hout.
  - eexists. run_js. split; [reflexivity|]. simpl.
    split; [by apply (keyed_update _ (with_bytes_status progress _ "completed"))|].
    set (final := updateDownloadProgress u
                    (with_bytes_status progress (fileSize progress) "completed")
                    (progress_map w1)).
    assert (Hall : forall w2,
               snapshots w2 = (snapshots w1 ++ [final])%list ->
               new_snapshots w w2
               = ((updateDownloadProgress u progress (progress_map w) :: added) ++
                  [final])%list).
    { intros w2 H2. apply new_snapshots_app. rewrite H2, Hsnap.
      by rewrite <- !(assoc_L (++)). }
    assert (Hfinal : records_of u [final]
                     = [with_bytes_status progress (fileSize progress) "completed"]).
    { unfold records_of, final, updateDownloadProgress. simpl.
      by rewrite lookup_insert_eq. }
    rewrite Ho, Hc, Hf. simpl. repeat split; try done.
    + match goal with |- context [new_snapshots w ?x] => rewrite (Hall x eq_refl) end.
      rewrite records_of_app, !length_app, Hlen1.
      by rewrite Hfinal.
    + match goal with |- context [new_snapshots w ?x] => rewrite (Hall x eq_refl) end.
      rewrite records_of_app, Hfirst, Hfinal. reflexivity.
    + unfold updateDownloadProgress. apply lookup_insert_eq.
  - unfold bind at 1, existsSync at 1, gets. cbv beta iota. rewrite Hd1.
    destruct (t_open t) as [eo|] eqn:Hopen.
    + destruct (disk w !! fp) as [old|] eqn:Hold.
      * rewrite bool_decide_eq_true_2 by eauto.
        eexists. run_js. split; [reflexivity|]. simpl.
        split; [done|]. rewrite Ho, Hc, Hf. simpl. repeat split; try done.
        all: unfold new_snapshots; simpl; by rewrite Hsnap, drop_app_length.
      * rewrite bool_decide_eq_false_2 by (by intros [? ?]).
        eexists. run_js. split; [reflexivity|]. simpl.
        split; [done|]. rewrite Ho, Hc, Hf. simpl. repeat split; try done.
        all: unfold new_snapshots; simpl; by rewrite Hsnap, drop_app_length.
    + rewrite bool_decide_eq_true_2 by (rewrite lookup_insert_eq; eauto).
      eexists. run_js. split; [reflexivity|]. simpl.
      split; [done|]. rewrite Ho, Hc, Hf. simpl. repeat split; try done.
      all: unfold new_snapshots; simpl; by rewrite Hsnap, drop_app_length.
  - eexists. run_js. split; [reflexivity|]. simpl.
    split; [done|]. rewrite Ho, Hc, Hf. simpl. repeat split; try done.
    all: unfold new_snapshots; simpl; by rewrite Hsnap, drop_app_length.
Qed.

(* ===================================================================== *)
(** * What a transfer leaves on disk *)
(* ===================================================================== *)

Lemma written_all (u st : string) (events : list Event) :
  aborted u st events = false -> written u st events = body events.
Proof.
  revert st. induction events as [|ev rest IH]; intros st Hab; [done|].
  destruct ev as [chunk| |p]; cbn [aborted written body] in *.
  - destruct (bool_decide (st = "stopped")); [done|]. by rewrite IH.
  - by apply IH.
  - by apply IH.
Qed.

(** The bytes let through before a chunk finds the record stopped. *)
Lemma written_until_stop (u st : string) (pre post : list Event) (chunk : Buffer) :
  aborted u st pre = false ->
  written u st (pre ++ StopAll :: Data chunk :: post) = body pre.
Proof.
  revert st. induction pre as [|ev pre IH]; intros st Hpre; [done|].
  destruct ev as [c| |p]; cbn [app written body aborted] in *.
  - destruct (bool_decide (st = "stopped")); [done|]. by rewrite IH.
  - by apply IH.
  - by apply IH.
Qed.

Lemma body_length (events : list Event) :
  buffer_length (body events) = received events.
Proof.
  unfold buffer_length. induction events as [|ev rest IH]; [done|].
  destruct ev; cbn [body received]; [|done|done].
  rewrite length_app, Nat2N.inj_add, IH. reflexivity.
Qed.

(** A call of [handleDownload] that resolves: the directory was made,
    the response arrived, the writer opened the destination, no chunk
    found the record stopped and the stream ended normally; the result
    names the destination and the destination holds the body. *)
Lemma successful_download
    (cwd u : string) (t : Transfer) (w w' : World) (r : DownloadResult.t) :
  keyed (progress_map w) ->
  handleDownload cwd u t w = (Returned r, w') ->
  exists response,
    t_mkdir t = None /\ t_axios t = inr response /\ t_open t = None /\
    aborted u "downloading" (t_events t) = false /\ t_end t = None /\
    r = DownloadResult.mk
          (destination cwd (resolveFileName u (content_disposition response)))
          (resolveFileName u (content_disposition response))
          (default 0 (content_length response)) /\
    transfer_outcome cwd u t (disk w) = Returned r /\
    disk w' = <[DownloadResult.filePath r := body (t_events t)]> (disk w).
Proof.
  intros Hk Hrun.
  destruct (handleDownload_run cwd u t w Hk) as (w2 & Hrun2 & _ & _ & _ & _ & Hcase).
  rewrite Hrun in Hrun2. injection Hrun2 as Hout <-.
  symmetry in Hout. pose proof Hout as Hout'. unfold transfer_outcome in Hout.
  destruct (t_mkdir t) eqn:Hmk; [done|].
  destruct (t_axios t) as [|response] eqn:Hax; [done|].
  cbv zeta in Hcase. destruct Hcase as [Hdisk _].
  unfold file_after, pipeline_outcome in *.
  destruct (aborted u "downloading" (t_events t)) eqn:Hab; [done|].
  destruct (t_open t) eqn:Hop; [by destruct (disk w !! _)|].
  destruct (t_end t); [done|]. injection Hout as <-.
  exists response. repeat split; try done.
  rewrite Hdisk. cbn [file_content fileName first_record DownloadResult.filePath].
  by rewrite (written_all _ _ _ Hab).
Qed.

Lemma successful_download_on_disk
    (cwd u : string) (t : Transfer) (w w' : World) (r : DownloadResult.t) :
  keyed (progress_map w) ->
  handleDownload cwd u t w = (Returned r, w') ->
  disk w' !! DownloadResult.filePath r = Some (body (t_events t)) /\
  forall p, p <> DownloadResult.filePath r -> disk w' !! p = disk w !! p.
Proof.
  intros Hk Hrun.
  destruct (successful_download cwd u t w w' r Hk Hrun)
    as (response & _ & _ & _ & _ & _ & _ & _ & ->).
  split; [apply lookup_insert_eq|]. intros p Hp. by rewrite lookup_insert_ne.
Qed.

(* ===================================================================== *)
(** * The record of a transfer, event by event *)
(* ===================================================================== *)

Lemma nondecreasing_cons (a : N) (l : list N) :
  nondecreasing (a :: l) = true <->
  match l with
  | b :: _ => a <= b /\ nondecreasing l = true
  | [] => True
  end.
Proof.
  destruct l as [|b l]; [done|].
  cbn [nondecreasing]. rewrite andb_true_iff, N.leb_le. reflexivity.
Qed.

Lemma nondecreasing_snoc (l : list N) (x : N) :
  nondecreasing l = true -> Forall (fun y => y <= x) l ->
  nondecreasing (l ++ [x]) = true.
Proof.
  induction l as [|a l IH]; intros Hs Hle; [done|].
  apply Forall_cons in Hle as [Ha Hl].
  apply nondecreasing_cons in Hs.
  change ((a :: l) ++ [x])%list with (a :: (l ++ [x]))%list.
  apply nondecreasing_cons.
  destruct l as [|b l]; simpl.
  - split; [done|reflexivity].
  - destruct Hs as [Hab Hs]. split; [done|]. by apply IH.
Qed.

Section TraceFacts.

Variables (u : string) (progress : DownloadProgress).

(** While no other actor writes the record of [u], the byte counts of its
    successive states never decrease, stay within what was received, and
    its status is downloading, or stopped once [stopAllDownloads] ran. *)
Lemma trace_facts (events : list Event) :
  forall (n : N) (cur : DownloadProgress),
    Forall (foreign u) events ->
    downloadedBytes cur = n ->
    status cur = "downloading" \/ status cur = "stopped" ->
    nondecreasing (n :: (downloadedBytes <$> trace u progress n cur events)) = true /\
    Forall (fun p =>
              downloadedBytes p <= n + received events /\
              (status p = "downloading" \/
               status p = "stopped" /\ (status cur = "stopped" \/ In StopAll events)))
           (trace u progress n cur events).
Proof.
  induction events as [|ev rest IH]; intros n cur Hf Hn Hst; [by split|].
  apply Forall_cons in Hf as [Hev Hf].
  destruct ev as [chunk| |p]; cbn [trace received].
  - case_bool_decide as Hs; [by split|].
    destruct (IH (n + buffer_length chunk)
                (with_bytes_status progress (n + buffer_length chunk) "downloading"))
      as [IH1 IH2]; [done|done|by left|].
    split.
    + cbn [fmap list_fmap]. apply nondecreasing_cons.
      cbn [downloadedBytes with_bytes_status]. split; [lia|exact IH1].
    + constructor.
      * simpl. split; [lia|by left].
      * eapply Forall_impl; [exact IH2|]. simpl. intros q [Hq1 Hq2].
        split; [lia|]. simpl in Hq2.
        destruct Hq2 as [?|[? [?|?]]]; [by left|discriminate|].
        right. split; [done|]. right. simpl. by right.
  - destruct (IH n (with_status cur "stopped")) as [IH1 IH2]; [done|done|by right|].
    split.
    + cbn [fmap list_fmap]. apply nondecreasing_cons.
      cbn [downloadedBytes with_status]. split; [lia|].
      rewrite Hn. exact IH1.
    + constructor.
      * simpl. split; [lia|]. right. split; [done|]. right. by left.
      * eapply Forall_impl; [exact IH2|]. simpl. intros q [Hq1 Hq2].
        split; [done|]. destruct Hq2 as [?|[? _]]; [by left|].
        right. split; [done|]. right. simpl. by left.
  - simpl in Hev. rewrite (bool_decide_eq_false_2 _ Hev).
    destruct (IH n cur) as [IH1 IH2]; [done|done|done|].
    split.
    + cbn [fmap list_fmap]. apply nondecreasing_cons. split; [lia|].
      rewrite Hn. exact IH1.
    + constructor.
      * split; [lia|]. destruct Hst; [by left|]. right. split; [done|by left].
      * eapply Forall_impl; [exact IH2|]. simpl. intros q [Hq1 Hq2].
        split; [done|]. destruct Hq2 as [?|[? [?|?]]]; [by left| |].
        -- right. split; [done|]. by left.
        -- right. split; [done|]. right. simpl. by right.
Qed.

(** A stop followed by a chunk ends the loop. *)
Lemma aborted_after_stop (mid post : list Event) (chunk : Buffer) :
  Forall (foreign u) mid ->
  aborted u "stopped" (mid ++ Data chunk :: post) = true.
Proof.
  induction mid as [|ev mid IH]; intros Hf; [done|].
  apply Forall_cons in Hf as [Hev Hf].
  destruct ev as [c| |p]; simpl; auto.
  simpl in Hev. rewrite (bool_decide_eq_false_2 _ Hev). auto.
Qed.

Lemma aborted_stop_then_chunk (pre mid post : list Event) (chunk : Buffer) (st : string) :
  Forall (foreign u) (pre ++ StopAll :: mid ++ Data chunk :: post) ->
  aborted u st (pre ++ StopAll :: mid ++ Data chunk :: post) = true.
Proof.
  revert st. induction pre as [|ev pre IH]; intros st Hf.
  - simpl in *. apply Forall_cons in Hf as [_ Hf].
    apply Forall_app in Hf as [Hf _]. by apply aborted_after_stop.
  - change ((ev :: pre) ++ ?l)%list with (ev :: (pre ++ l))%list in *.
    apply Forall_cons in Hf as [Hev Hf].
    destruct ev as [c| |p]; cbn [aborted].
    + case_bool_decide; auto.
    + auto.
    + simpl in Hev. rewrite (bool_decide_eq_false_2 _ Hev). auto.
Qed.

(** When the loop was ended by a stop, the record is left stopped. *)
Lemma aborted_leaves_stopped (events : list Event) :
  forall (n : N) (cur : DownloadProgress),
    Forall (foreign u) events ->
    aborted u (status cur) events = true ->
    status (default cur (last (trace u progress n cur events))) = "stopped".
Proof.
  induction events as [|ev rest IH]; intros n cur Hf Hab; [done|].
  apply Forall_cons in Hf as [Hev Hf].
  destruct ev as [chunk| |p]; cbn [trace aborted] in *.
  - case_bool_decide as Hs; [done|].
    rewrite default_last_cons. by apply IH.
  - rewrite default_last_cons. by apply IH.
  - simpl in Hev. rewrite (bool_decide_eq_false_2 _ Hev) in *.
    rewrite default_last_cons. by apply IH.
Qed.



End TraceFacts.
(* ===================================================================== *)
(** * Properties of a transfer *)
(* ===================================================================== *)

Lemma filter_all {A} (P : A -> Prop) `{forall x, Decision (P x)} (l : list A) :
  Forall P l -> filter P l = l.
Proof.
  induction 1 as [|x l Hx Hl IH]; [done|].
  rewrite filter_cons_True by done. by rewrite IH.
Qed.

Lemma new_snapshots_same (w w' : World) :
  snapshots w' = snapshots w -> new_snapshots w w' = [].
Proof. intros H. apply new_snapshots_app. by rewrite (right_id_L [] (++)). Qed.

(** C1, as stated, fails.  First run: without a [Content-Length] header
    the record is created with 0 bytes, the chunk raises it to 5, and the
    write that sets status completed puts it back to 0.  Second run: a
    second download of the same URL starts while the first is at 5 bytes,
    and its first record, with 0 bytes, replaces the one of the first. *)
Lemma completion_lowers_downloadedBytes :
  let w1 := snd (handleDownload "/srv" sample_url chunked_transfer world0) in
  let recs1 := until_terminal (records_of sample_url (new_snapshots world0 w1)) in
  let w2 := snd (handleDownload "/srv" sample_url restarted_transfer world0) in
  let recs2 := until_terminal (records_of sample_url (new_snapshots world0 w2)) in
  downloadedBytes <$> recs1 = [0; 5; 0] /\
  status <$> recs1 = ["downloading"; "downloading"; "completed"] /\
  nondecreasing (downloadedBytes <$> recs1) = false /\
  downloadedBytes <$> recs2 = [0; 5; 0; 10; 10] /\
  nondecreasing (downloadedBytes <$> recs2) = false.
Proof. vm_compute. auto 10. Qed.

(** C1, amended: for a transfer whose record no other actor overwrites, the
    downloadedBytes values readable under its URL never decrease over the
    states written before the one that sets status completed; and over all
    states, the completing write included, when the bytes received do not
    exceed fileSize (the completing write sets downloadedBytes to
    fileSize). *)
Theorem downloadedBytes_monotone_until_completion
    (cwd u : string) (t : Transfer) (w : World) :
  keyed (progress_map w) ->
  Forall (foreign u) (t_events t) ->
  let w' := snd (handleDownload cwd u t w) in
  let recs := records_of u (new_snapshots w w') in
  nondecreasing
    (downloadedBytes <$> filter (fun p => status p <> "completed") recs) = true /\
  (within_length t -> nondecreasing (downloadedBytes <$> recs) = true).
Proof.
  intros Hk Hf.
  destruct (handleDownload_run cwd u t w Hk) as (w' & Hrun & _ & _ & _ & _ & Hcase).
  rewrite Hrun. cbn [snd]. unfold within_length.
  destruct (t_mkdir t) as [e|].
  { destruct Hcase as (_ & Hs & _). by rewrite (new_snapshots_same _ _ Hs). }
  destruct (t_axios t) as [e|response].
  { destruct Hcase as (_ & Hs & _). by rewrite (new_snapshots_same _ _ Hs). }
  cbv zeta in Hcase. destruct Hcase as (_ & _ & Hcase).
  set (progress := first_record u t response) in *.
  destruct (trace_facts u progress (t_events t) 0 progress Hf eq_refl (or_introl eq_refl))
    as [Hmono Hall].
  assert (Hnc : Forall (fun p => status p <> "completed")
                  (progress :: trace u progress 0 progress (t_events t))).
  { constructor; [discriminate|]. eapply Forall_impl; [exact Hall|].
    simpl. intros q [_ [Hq|[Hq _]]]; rewrite Hq; discriminate. }
  destruct (pipeline_outcome u "downloading" (t_events t) (t_open t) (t_end t))
    as [[]|e|e]; destruct Hcase as [-> _].
  - split.
    + change (progress :: ?l ++ ?r)%list with ((progress :: l) ++ r)%list.
      rewrite filter_app, (filter_all _ _ Hnc).
      rewrite filter_cons_False by (simpl; intros Hc; by apply Hc).
      rewrite filter_nil, (right_id_L [] (++)). exact Hmono.
    + intros Hlen.
      change (progress :: ?l ++ ?r)%list with ((progress :: l) ++ r)%list.
      rewrite fmap_app. apply nondecreasing_snoc; [exact Hmono|].
      apply Forall_fmap. constructor; [simpl; lia|].
      eapply Forall_impl; [exact Hall|]. simpl. intros q [Hq _]. lia.
  - rewrite (filter_all _ _ Hnc). split; [exact Hmono|]. intros _. exact Hmono.
  - rewrite (filter_all _ _ Hnc). split; [exact Hmono|]. intros _. exact Hmono.
Qed.

Lemma downloadedBytes_monotone_witness :
  keyed (progress_map world0) /\
  Forall (foreign sample_url) (t_events plain_transfer) /\
  within_length plain_transfer /\
  nondecreasing
    (downloadedBytes <$>
       records_of sample_url
         (new_snapshots world0
            (snd (handleDownload "/srv" sample_url plain_transfer world0)))) = true.
Proof.
  split; [apply keyed_empty|]. split; [repeat constructor|].
  split; [vm_compute; discriminate|].
  apply (downloadedBytes_monotone_until_completion "/srv" sample_url plain_transfer world0).
  - apply keyed_empty.
  - repeat constructor.
  - vm_compute. discriminate.
Defined.

(** C2, as stated, fails: the connection breaks after the first chunk,
    [handleDownload] rejects, and the record is left in status
    downloading, which is not terminal. *)
Lemma broken_transfer_stays_downloading :
  let run := handleDownload "/srv" sample_url broken_transfer world0 in
  (exists e, fst run = Thrown e) /\
  status <$> (progress_map (snd run) !! sample_url) = Some "downloading" /\
  is_terminal "downloading" = false.
Proof. vm_compute. eauto. Qed.

(** C2, amended: a transfer that fails is not given a failure status.  When
    [mkdir] or the request fails, the store is left as it was.  Otherwise,
    with no other actor writing the record, the record keeps the status
    downloading, unless [stopAllDownloads] ran during the transfer, in
    which case it may be stopped; the failure itself reaches the caller
    only as the rejection of [handleDownload], or not at all when it is
    the exception of the ['data'] listener. *)
Theorem failure_leaves_status (cwd u : string) (t : Transfer) (w : World) :
  keyed (progress_map w) ->
  Forall (foreign u) (t_events t) ->
  match handleDownload cwd u t w with
  | (Returned _, _) => True
  | (Thrown _, w') | (Exited _, w') =>
      match t_mkdir t, t_axios t with
      | None, inr _ =>
          exists p, progress_map w' !! u = Some p /\
                    (status p = "downloading" \/
                     status p = "stopped" /\ In StopAll (t_events t))
      | _, _ => progress_map w' = progress_map w
      end
  end.
Proof.
  intros Hk Hf.
  destruct (handleDownload_run cwd u t w Hk) as (w' & Hrun & _ & _ & _ & _ & Hcase).
  rewrite Hrun. unfold transfer_outcome in *.
  destruct (t_mkdir t) as [e|]; [by destruct Hcase|].
  destruct (t_axios t) as [e|response]; [by destruct Hcase|].
  cbv zeta in Hcase. destruct Hcase as (_ & _ & Hcase).
  set (progress := first_record u t response) in *.
  destruct (trace_facts u progress (t_events t) 0 progress Hf eq_refl (or_introl eq_refl))
    as [_ Hall].
  assert (Hstatus : progress_map w' !! u
                    = Some (default progress (last (trace u progress 0 progress (t_events t)))) ->
                    exists p, progress_map w' !! u = Some p /\
                              (status p = "downloading" \/
                               status p = "stopped" /\ In StopAll (t_events t))).
  { intros Hlast. eexists. split; [exact Hlast|].
    destruct (last (trace u progress 0 progress (t_events t))) as [q|] eqn:Hq;
      simpl; [|by left].
    apply last_Some_elem_of in Hq.
    rewrite Forall_forall in Hall. destruct (Hall q Hq) as [_ [?|[? [?|?]]]]; auto.
    discriminate. }
  destruct (pipeline_outcome u "downloading" (t_events t) (t_open t) (t_end t))
    as [[]|e|e]; [done| |].
  - destruct Hcase as [_ Hlast].
    destruct (t_open t); [destruct (_ !! _)|]; by apply Hstatus.
  - destruct Hcase as [_ Hlast]. by apply Hstatus.
Qed.

Lemma failure_leaves_status_witness :
  keyed (progress_map world0) /\
  Forall (foreign sample_url) (t_events broken_transfer) /\
  exists p,
    progress_map (snd (handleDownload "/srv" sample_url broken_transfer world0))
      !! sample_url = Some p /\
    (status p = "downloading" \/
     status p = "stopped" /\ In StopAll (t_events broken_transfer)).
Proof.
  split; [apply keyed_empty|]. split; [repeat constructor|].
  pose proof (failure_leaves_status "/srv" sample_url broken_transfer world0
                keyed_empty ltac:(repeat constructor)) as H.
  vm_compute in H. vm_compute. exact H.
Defined.




(** The cleanup of lines 86-92 removes nothing: after a transfer whose
    writer has opened the destination, the file is on disk, however the
    transfer ended. *)
Lemma failed_transfer_keeps_file (cwd u : string) (t : Transfer) (w : World)
    (response : Response) :
  keyed (progress_map w) ->
  t_mkdir t = None ->
  t_axios t = inr response ->
  t_open t = None ->
  is_Some (disk (snd (handleDownload cwd u t w))
             !! destination cwd (resolveFileName u (content_disposition response))).
Proof.
  intros Hk Hmk Hax Hop.
  destruct (handleDownload_run cwd u t w Hk) as (w' & Hrun & _ & _ & _ & _ & Hcase).
  rewrite Hrun, Hmk, Hax, Hop in *. cbv zeta in Hcase. destruct Hcase as [Hfile _].
  cbn [snd]. rewrite Hfile. cbn [fileName first_record].
  rewrite lookup_insert_eq. eauto.
Qed.

(** C5 fails on the code.  First run: the record is stopped between two
    chunks; the error [Download stopped by user] is thrown inside the
    ['data'] listener, where neither [try] block of [handleDownload]
    catches it, so that it is not raised to the caller.  Second run: the
    record is stopped and the stream then breaks; the caller gets the
    rejection it gets in the third run, where the connection breaks with
    no stop at all. *)
Lemma cancellation_is_not_told_apart :
  let cancelled := fst (handleDownload "/srv" sample_url cancelled_transfer world0) in
  let stopped := fst (handleDownload "/srv" sample_url stopped_then_broken_transfer world0) in
  let broken := fst (handleDownload "/srv" sample_url broken_transfer world0) in
  cancelled = Exited (Error "Download stopped by user") /\
  stopped = Thrown (wrapped ERR_INVALID_ARG_TYPE) /\
  broken = stopped.
Proof. vm_compute. auto. Qed.

(* ===================================================================== *)
(** * Destination paths *)
(* ===================================================================== *)

Section PathFacts.

Import Path.

Lemma app_assoc_s (a b c : string) : (a +:+ b) +:+ c = a +:+ (b +:+ c).
Proof.
  induction a as [|x a IH]; [done|].
  change (String x ((a +:+ b) +:+ c) = String x (a +:+ (b +:+ c))).
  by rewrite IH.
Qed.

Lemma append_cancel_l (a b c : string) : a +:+ b = a +:+ c -> b = c.
Proof.
  induction a as [|x a IH]; [done|].
  change (String x (a +:+ b) = String x (a +:+ c) -> b = c).
  intros [= H]. auto.
Qed.

Lemma split_slash_nonempty (s : string) : split_slash s <> [].
Proof.
  induction s as [|c r IH]; simpl; [done|].
  destruct (Ascii.eqb c slash); [done|]. by destruct (split_slash r).
Qed.

Lemma split_slash_plain (n : string) : has_slash n = false -> split_slash n = [n].
Proof.
  induction n as [|c r IH]; simpl; [done|].
  intros H. apply orb_false_iff in H as [Hc Hr].
  rewrite Hc, (IH Hr). reflexivity.
Qed.

Lemma split_slash_app (a n : string) :
  split_slash (a +:+ "/" +:+ n) = (split_slash a ++ split_slash n)%list.
Proof.
  induction a as [|c r IH]; [reflexivity|].
  change (String c r +:+ "/" +:+ n) with (String c (r +:+ "/" +:+ n)).
  cbn [split_slash]. rewrite IH.
  destruct (Ascii.eqb c slash); [reflexivity|].
  pose proof (split_slash_nonempty r).
  by destruct (split_slash r).
Qed.

Lemma ends_with_slash_plain (n : string) :
  has_slash n = false -> ends_with_slash n = false.
Proof.
  induction n as [|c r IH]; simpl; [done|].
  intros H. apply orb_false_iff in H as [Hc Hr].
  destruct r; [done|]. by apply IH.
Qed.

Lemma ends_with_slash_app (a n : string) :
  n <> "" -> ends_with_slash (a +:+ n) = ends_with_slash n.
Proof.
  intros Hn. induction a as [|c r IH]; [done|].
  change (String c r +:+ n) with (String c (r +:+ n)).
  cbn [ends_with_slash]. destruct (r +:+ n) eqn:E; [|done].
  destruct r; simpl in E; [done|discriminate].
Qed.

Lemma ends_with_slash_joined (a n : string) :
  n <> "" -> has_slash n = false -> ends_with_slash (a +:+ "/" +:+ n) = false.
Proof.
  intros Hne Hns. rewrite (ends_with_slash_app a ("/" +:+ n)) by done.
  change ("/" +:+ n) with (String slash n).
  destruct n as [|c r]; [done|].
  change (ends_with_slash (String slash (String c r)))
    with (ends_with_slash (String c r)).
  by apply ends_with_slash_plain.
Qed.

Lemma join_slash_snoc (l : list string) (n : string) :
  join_slash (l ++ [n])
  = match l with
    | [] => n
    | _ :: _ => join_slash l +:+ "/" +:+ n
    end.
Proof.
  induction l as [|a l IH]; [done|].
  destruct l as [|b l]; [reflexivity|].
  change (join_slash ((a :: b :: l) ++ [n]))
    with (a +:+ "/" +:+ join_slash ((b :: l) ++ [n])).
  rewrite IH.
  change (join_slash (a :: b :: l)) with (a +:+ "/" +:+ join_slash (b :: l)).
  by rewrite !app_assoc_s.
Qed.

Lemma normalize_step_plain (allow : bool) (stack : list string) (n : string) :
  plain_name n = true -> normalize_step allow stack n = n :: stack.
Proof.
  unfold plain_name, normalize_step. rewrite !andb_true_iff, !negb_true_iff.
  intros [[[-> ->] ->] _]. reflexivity.
Qed.

Lemma app_nonempty_r (a n : string) : n <> "" -> a +:+ n <> "".
Proof. intros Hn. destruct a; simpl; [done|discriminate]. Qed.

Lemma plain_name_nonempty (n : string) : plain_name n = true -> n <> "".
Proof.
  unfold plain_name. rewrite !andb_true_iff, !negb_true_iff.
  intros [[[H _] _] _]. by apply bool_decide_eq_false in H.
Qed.

Lemma plain_name_no_slash (n : string) : plain_name n = true -> has_slash n = false.
Proof.
  unfold plain_name. rewrite !andb_true_iff, !negb_true_iff. by intros [_ H].
Qed.

Lemma starts_with_slash_app (a n : string) :
  a <> "" -> starts_with_slash (a +:+ n) = starts_with_slash a.
Proof. by destruct a. Qed.

(** [path.join] only puts a prefix, fixed by the directory, in front of a
    plain name. *)
Lemma join_plain (a n : string) :
  plain_name n = true -> join a n = join_prefix a +:+ n.
Proof.
  intros Hp.
  pose proof (plain_name_nonempty n Hp) as Hne.
  pose proof (plain_name_no_slash n Hp) as Hns.
  unfold join, join_prefix. rewrite (bool_decide_eq_false_2 (n = "") Hne).
  case_bool_decide as Ha.
  - unfold normalize. rewrite (bool_decide_eq_false_2 (n = "") Hne).
    unfold normalizeString. rewrite (split_slash_plain n Hns). cbn [fold_left].
    rewrite (normalize_step_plain _ _ _ Hp). cbn [rev join_slash app].
    rewrite (bool_decide_eq_false_2 (n = "") Hne), (ends_with_slash_plain n Hns).
    destruct n as [|c r]; [done|]. simpl in Hns.
    apply orb_false_iff in Hns as [Hc _]. simpl. by rewrite Hc.
  - unfold normalize.
    assert (Hpath : a +:+ "/" +:+ n <> "") by (by destruct a).
    rewrite (bool_decide_eq_false_2 _ Hpath).
    rewrite (starts_with_slash_app a _ Ha).
    rewrite (ends_with_slash_joined a n Hne Hns).
    unfold normalizeString. rewrite split_slash_app, (split_slash_plain n Hns).
    rewrite fold_left_app. cbn [fold_left].
    rewrite (normalize_step_plain _ _ _ Hp).
    set (stack := fold_left _ (split_slash a) []).
    cbn [rev]. rewrite join_slash_snoc.
    assert (Hbody : match rev stack with
                    | [] => n
                    | _ :: _ => join_slash (rev stack) +:+ "/" +:+ n
                    end
                    = match stack with
                      | [] => ""
                      | _ :: _ => join_slash (rev stack) +:+ "/"
                      end +:+ n).
    { destruct stack as [|x st]; [reflexivity|].
      destruct (rev (x :: st)) eqn:E.
      - apply (f_equal length) in E. rewrite length_rev in E. discriminate.
      - by rewrite !app_assoc_s. }
    rewrite Hbody.
    rewrite bool_decide_eq_false_2 by (by apply app_nonempty_r).
    destruct (starts_with_slash a); simpl; [|done].
    reflexivity.
Qed.

End PathFacts.

(** C9, as stated, fails: two distinct URLs that end in the same name are
    given the same destination path, and both transfers write to it. *)
Lemma distinct_urls_share_destination :
  "http://a.example/f.bin" <> "http://b.example/f.bin" /\
  destination "/srv" (resolveFileName "http://a.example/f.bin" None)
  = destination "/srv" (resolveFileName "http://b.example/f.bin" None) /\
  fst (handleDownload "/srv" "http://a.example/f.bin" plain_transfer world0)
  = Returned (DownloadResult.mk "/srv/downloads/f.bin" "f.bin" 5) /\
  fst (handleDownload "/srv" "http://b.example/f.bin" chunked_transfer world0)
  = Returned (DownloadResult.mk "/srv/downloads/f.bin" "f.bin" 0).
Proof. split; [discriminate|]. vm_compute. auto. Qed.

(** C9, amended: the destination path of a transfer is fixed by its
    resolved file name (the Content-Disposition name, else the base name of
    the URL), not by its URL: two transfers whose resolved file names are
    distinct plain names (not empty, not [.] or [..], without a slash) have
    distinct destination paths. *)
Theorem distinct_names_distinct_destinations
    (cwd u1 u2 : string) (cd1 cd2 : option string) :
  plain_name (resolveFileName u1 cd1) = true ->
  plain_name (resolveFileName u2 cd2) = true ->
  resolveFileName u1 cd1 <> resolveFileName u2 cd2 ->
  destination cwd (resolveFileName u1 cd1) <> destination cwd (resolveFileName u2 cd2).
Proof.
  intros H1 H2 Hne Heq. apply Hne. unfold destination in Heq.
  rewrite !join_plain in Heq by done.
  by apply append_cancel_l in Heq.
Qed.

Lemma distinct_names_distinct_destinations_witness :
  destination "/srv" (resolveFileName "http://a.example/f.bin" None)
  <> destination "/srv" (resolveFileName "http://a.example/g.bin" None).
Proof.
  apply (distinct_names_distinct_destinations "/srv"
           "http://a.example/f.bin" "http://a.example/g.bin" None None).
  - reflexivity.
  - reflexivity.
  - vm_compute. discriminate.
Defined.
(* ===================================================================== *)
(** * The file splitter *)
(* ===================================================================== *)

Section SplitterFacts.

Import Splitter.

Lemma chunks_concat (m : nat) (bytes : Buffer) :
  (0 < m)%nat -> concat (chunks m bytes) = bytes.
Proof.
  funelim (chunks m bytes); intros Hm; simp chunks; [lia|done|].
  cbn [concat]. rewrite H by lia. apply take_drop.
Qed.

Lemma ceil_div_small (n m : nat) : (0 < n <= m)%nat -> ceil_div n m = 1%nat.
Proof.
  intros Hn. unfold ceil_div.
  replace (n + m - 1)%nat with (1 * m + (n - 1))%nat by lia.
  rewrite Nat.div_add_l by lia. rewrite Nat.div_small by lia. reflexivity.
Qed.

Lemma ceil_div_step (n m : nat) :
  (0 < m < n)%nat -> ceil_div n m = S (ceil_div (n - m) m).
Proof.
  intros Hn. unfold ceil_div.
  replace (n + m - 1)%nat with (1 * m + (n - m + m - 1))%nat by lia.
  rewrite Nat.div_add_l by lia. reflexivity.
Qed.

Lemma chunks_length (m : nat) (bytes : Buffer) :
  (0 < m)%nat -> length (chunks m bytes) = ceil_div (length bytes) m.
Proof.
  funelim (chunks m bytes); intros Hm; simp chunks; [lia| |].
  - unfold ceil_div. symmetry. apply Nat.div_small. simpl. lia.
  - cbn [length]. rewrite H by lia. rewrite length_drop.
    destruct (decide (length (b :: bs) <= S m)%nat) as [Hle|Hgt].
    + rewrite (ceil_div_small (length (b :: bs))) by (simpl in *; lia).
      replace (length (b :: bs) - S m)%nat with 0%nat by lia.
      f_equal. unfold ceil_div. apply Nat.div_small. lia.
    + rewrite (ceil_div_step (length (b :: bs))) by lia. reflexivity.
Qed.

Lemma chunks_bounded (m : nat) (bytes : Buffer) :
  Forall (fun part => (0 < length part <= m)%nat) (chunks m bytes).
Proof.
  funelim (chunks m bytes); simp chunks; [done|done|].
  constructor; [|done]. rewrite length_take. simpl. lia.
Qed.

Variable partPath : string -> nat -> string.
Variable source : string.
Hypothesis partPath_inj : forall i j, partPath source i = partPath source j -> i = j.

Lemma part_files_length (i : nat) (parts : list Buffer) :
  length (part_files partPath source i parts) = length parts.
Proof.
  revert i. induction parts as [|p rest IH]; intros i; [done|].
  simpl. f_equal. apply IH.
Qed.

Lemma part_files_index (i : nat) (parts : list Buffer) :
  index <$> part_files partPath source i parts = seq i (length parts).
Proof.
  revert i. induction parts as [|p rest IH]; intros i; [done|].
  simpl. by rewrite IH.
Qed.

Lemma part_files_path (i : nat) (parts : list Buffer) :
  path <$> part_files partPath source i parts
  = partPath source <$> seq i (length parts).
Proof.
  revert i. induction parts as [|p rest IH]; intros i; [done|].
  simpl. by rewrite IH.
Qed.

(** Writing the parts returns them in index order, changes the disk at the
    part paths only, and leaves each part readable. *)
Lemma write_parts_run (parts : list Buffer) :
  forall (i : nat) (w : World),
  exists w',
    write_parts partPath source i parts w
    = (Returned (part_files partPath source i parts), w') /\
    (forall p, (forall k, (i <= k < i + length parts)%nat -> partPath source k <> p) ->
               disk w' !! p = disk w !! p) /\
    reassemble (disk w') (part_files partPath source i parts) = Some (concat parts) /\
    Forall2 (fun p content => disk w' !! p = Some content)
      (partPath source <$> seq i (length parts)) parts /\
    outbox w' = outbox w /\ successCount w' = successCount w /\
    failedUrls w' = failedUrls w /\ progress_map w' = progress_map w.
Proof.
  induction parts as [|part rest IH]; intros i w.
  - exists w. simpl. repeat split; auto.
  - set (w1 := set_disk w (<[partPath source i := part]> (disk w))).
    destruct (IH (S i) w1) as (w' & Hrun & Hother & Hre & Hall & Ho & Hc & Hf & Hp).
    assert (Hi : disk w' !! partPath source i = Some part).
    { rewrite Hother.
      - simpl. apply lookup_insert_eq.
      - intros k Hk E. apply partPath_inj in E. lia. }
    exists w'. split; [|split; [|split; [|split]]].
    + cbn [write_parts part_files]. unfold bind at 1, writeFile, modify.
      fold w1. unfold bind at 1. rewrite Hrun. reflexivity.
    + intros p Hp'. rewrite Hother.
      * simpl. apply lookup_insert_ne. apply Hp'. simpl. lia.
      * intros k Hk. apply Hp'. simpl. lia.
    + simpl. rewrite Hi, Hre. reflexivity.
    + simpl. constructor; [exact Hi|exact Hall].
    + by rewrite Ho, Hc, Hf, Hp.
Qed.

End SplitterFacts.

(** C8: for every file and every positive part size, [split] returns part
    files whose contents, read back in index order and concatenated, are
    the bytes of the source, and their number is
    [ceil(fileSize / maxPartBytes)]; the indices are 1, 2, ... without
    gaps.  The naming scheme is any that gives distinct indices distinct
    paths. *)
Theorem split_round_trip (partPath : string -> nat -> string)
    (filePath : string) (maxPartBytes : nat) (source : Buffer) (w : World) :
  (0 < maxPartBytes)%nat ->
  (forall i j, partPath filePath i = partPath filePath j -> i = j) ->
  disk w !! filePath = Some source ->
  exists parts w',
    Splitter.split partPath filePath maxPartBytes w = (Returned parts, w') /\
    Splitter.reassemble (disk w') parts = Some source /\
    length parts = Splitter.ceil_div (length source) maxPartBytes /\
    Splitter.index <$> parts = seq 1 (length parts).
Proof.
  intros Hm Hinj Hsrc.
  destruct (write_parts_run partPath filePath Hinj
              (Splitter.chunks maxPartBytes source) 1 w)
    as (w' & Hrun & _ & Hre & _).
  exists (part_files partPath filePath 1 (Splitter.chunks maxPartBytes source)), w'.
  split; [|split; [|split]].
  - unfold Splitter.split, bind at 1, try_catch, Splitter.read_source.
    rewrite Hsrc. exact Hrun.
  - rewrite Hre, chunks_concat by done. reflexivity.
  - rewrite part_files_length. by apply chunks_length.
  - rewrite part_files_index. by rewrite part_files_length.
Qed.
(* ===================================================================== *)
(** * Delivery of a finished download *)
(* ===================================================================== *)

Lemma new_outbox_app (w w' : World) (sent : list Message) :
  outbox w' = (outbox w ++ sent)%list -> new_outbox w w' = sent.
Proof. intros H. unfold new_outbox. by rewrite H, drop_app_length. Qed.

Lemma documents_part_documents (fileName : string) (total : nat) (contents : list Buffer) :
  forall j,
    documents (part_documents fileName total j contents)
    = zip ((fun k => fileName +:+ ".part" +:+ pretty (k + 1)%nat)
             <$> seq j (length contents)) contents.
Proof.
  induction contents as [|c rest IH]; intros j; [done|].
  simpl. f_equal. apply IH.
Qed.

Lemma ceil_div_ge_2 (n m : nat) :
  (0 < m < n)%nat -> (2 <= Splitter.ceil_div n m)%nat.
Proof.
  intros H. rewrite ceil_div_step by done.
  assert (1 <= Splitter.ceil_div (n - m) m)%nat; [|lia].
  unfold Splitter.ceil_div.
  replace (n - m + m - 1)%nat with (1 * m + (n - m - 1))%nat by lia.
  rewrite Nat.div_add_l by lia. lia.
Qed.

Lemma Forall2_impl_elem {A B} (P Q : A -> B -> Prop) (l : list A) (k : list B) :
  Forall2 P l k -> (forall x y, x ∈ l -> P x y -> Q x y) -> Forall2 Q l k.
Proof.
  induction 1 as [|x y l k Hxy Hlk IH]; intros Himp; [constructor|].
  constructor.
  - apply Himp; [by left|done].
  - apply IH. intros x' y' Hin. apply Himp. by right.
Qed.

Lemma readFile_run (path : string) (content : Buffer) (w : World) :
  disk w !! path = Some content ->
  buffer_length content <= kIoMaxLength ->
  readFile path w = (Returned content, w).
Proof.
  intros Hfile Hsize. unfold readFile. rewrite Hfile.
  by rewrite (proj2 (N.ltb_ge _ _) Hsize).
Qed.

Lemma readFile_too_large (path : string) (content : Buffer) (w : World) :
  disk w !! path = Some content ->
  kIoMaxLength < buffer_length content ->
  readFile path w = (Thrown (ERR_FS_FILE_TOO_LARGE (buffer_length content)), w).
Proof.
  intros Hfile Hsize. unfold readFile. rewrite Hfile.
  by rewrite (proj2 (N.ltb_lt _ _) Hsize).
Qed.

Section DeliveryFacts.

Variable send_outcome : Message -> option JsError.
Variable partPath : string -> nat -> string.
Variable maxPartBytes : nat.
Hypothesis socket_delivers : forall m, send_outcome m = None.

Lemma sendMessage_run (content : Message) (w : World) :
  sendMessage send_outcome content w = (Returned tt, add_outbox w content).
Proof. unfold sendMessage. by rewrite socket_delivers. Qed.

(** The loop over the parts sends one document per part and removes the
    part file. *)
Lemma send_parts_run (fileName : string) (total : nat) (paths : list string) :
  forall (contents : list Buffer) (j : nat) (w : World),
    NoDup paths ->
    Forall2 (fun p content => disk w !! p = Some content) paths contents ->
    Forall (fun content => buffer_length content <= kIoMaxLength) contents ->
    exists w',
      send_parts send_outcome fileName total j paths w = (Returned tt, w') /\
      outbox w' = (outbox w ++ part_documents fileName total j contents)%list /\
      successCount w' = successCount w /\ failedUrls w' = failedUrls w /\
      progress_map w' = progress_map w /\
      (forall p, p ∉ paths -> disk w' !! p = disk w !! p).
Proof.
  induction paths as [|p rest IH]; intros contents j w Hnd Hall Hsizes.
  - apply Forall2_nil_inv_l in Hall as ->. exists w. simpl.
    rewrite (right_id_L [] (++)). repeat split; auto.
  - apply Forall2_cons_inv_l in Hall as (c & contents' & Hp & Hall & ->).
    apply Forall_cons in Hsizes as [Hsize Hsizes].
    apply NoDup_cons in Hnd as [Hnotin Hnd].
    set (doc := Document c (fileName +:+ ".part" +:+ pretty (j + 1)%nat)
                  (caption_part fileName j total)).
    set (w1 := set_disk (add_outbox w doc) (delete p (disk w))).
    destruct (IH contents' (S j) w1 Hnd) as (w' & Hrun & Ho & Hc & Hf & Hpm & Hd).
    { eapply Forall2_impl_elem; [exact Hall|]. intros q c' Hin Hq. simpl.
      rewrite lookup_delete_ne; [done|]. by intros ->. }
    { exact Hsizes. }
    exists w'. split; [|split; [|split; [|split; [|split]]]]; try done.
    + cbn [send_parts]. unfold bind at 1. rewrite (readFile_run _ _ _ Hp Hsize).
      unfold bind at 1. rewrite sendMessage_run. fold doc.
      unfold bind at 1, unlink. cbn [disk add_outbox]. rewrite Hp.
      exact Hrun.
    + rewrite Ho. simpl. by rewrite <- (assoc_L (++)).
    + intros q Hq. apply not_elem_of_cons in Hq as [Hqp Hq].
      rewrite (Hd q Hq). simpl. by rewrite lookup_delete_ne.
Qed.

(** [splitFile], and then the loop over its parts, started in any world
    [between] that has the disk [splitFile] left. *)
Lemma split_and_send (filePath fileName : string) (content : Buffer) (w : World) :
  (forall i j, partPath filePath i = partPath filePath j -> i = j) ->
  disk w !! filePath = Some content ->
  N.of_nat maxPartBytes <= kIoMaxLength ->
  let chunks := Splitter.chunks maxPartBytes content in
  let paths := partPath filePath <$> seq 1 (length chunks) in
  exists w1,
    splitFile partPath maxPartBytes filePath w = (Returned paths, w1) /\
    length paths = length chunks /\
    outbox w1 = outbox w /\ successCount w1 = successCount w /\
    failedUrls w1 = failedUrls w /\ progress_map w1 = progress_map w /\
    (forall p, p ∉ paths -> disk w1 !! p = disk w !! p) /\
    (forall (between : World),
        disk between = disk w1 ->
        exists w',
          send_parts send_outcome fileName (length paths) 0 paths between = (Returned tt, w') /\
          outbox w' = (outbox between ++
                       part_documents fileName (length paths) 0 chunks)%list /\
          successCount w' = successCount between /\
          failedUrls w' = failedUrls between /\
          progress_map w' = progress_map between /\
          (forall p, p ∉ paths -> disk w' !! p = disk between !! p)).
Proof.
  intros Hinj Hsrc Hpart chunks paths.
  destruct (write_parts_run partPath filePath Hinj chunks 1 w)
    as (w1 & Hrun & Hother & _ & Hall & Ho & Hc & Hf & Hpm).
  exists w1.
  assert (Hlen : length paths = length chunks).
  { unfold paths. by rewrite length_fmap, length_seq. }
  split; [|split; [done|split; [done|split; [done|split; [done|split; [done|split]]]]]].
  - unfold splitFile, bind at 1, Splitter.split, bind at 1, try_catch,
      Splitter.read_source.
    rewrite Hsrc. fold chunks. rewrite Hrun. unfold ret.
    by rewrite part_files_path.
  - intros p Hp. apply Hother. intros k Hk E. apply Hp. unfold paths.
    apply list_elem_of_fmap. exists k. split; [done|]. apply elem_of_seq. lia.
  - intros between Hdisk.
    destruct (send_parts_run fileName (length paths) paths chunks 0 between)
      as (w' & Hsend & Ho' & Hc' & Hf' & Hpm' & Hd').
    + apply (NoDup_fmap_2_strong (partPath filePath)); [|apply NoDup_seq].
      intros i j _ _. apply Hinj.
    + by rewrite Hdisk.
    + eapply Forall_impl; [apply chunks_bounded|]. simpl.
      intros part Hlen'. unfold buffer_length. lia.
    + exists w'. auto 10.
Qed.

Lemma not_a_part (filePath p : string) (n : nat) :
  (forall k, partPath filePath k <> p) -> p ∉ partPath filePath <$> seq 1 n.
Proof.
  intros Hp Hin. apply list_elem_of_fmap in Hin as (k & -> & _). by apply (Hp k).
Qed.

End DeliveryFacts.


Lemma decimal_partPath_inj (source : string) (i j : nat) :
  decimal_partPath source i = decimal_partPath source j -> i = j.
Proof.
  unfold decimal_partPath. intros H.
  apply append_cancel_l, append_cancel_l in H.
  by apply (inj pretty) in H.
Qed.

Lemma documents_app (a b : list Message) :
  documents (a ++ b) = (documents a ++ documents b)%list.
Proof. apply omap_app. Qed.

Lemma chunks_short (m : nat) (bytes : Buffer) :
  (0 < length bytes <= m)%nat -> Splitter.chunks m bytes = [bytes].
Proof.
  intros Hlen. destruct m as [|m]; [lia|].
  destruct bytes as [|b bs]; [simpl in Hlen; lia|].
  simp chunks. rewrite take_ge, drop_ge by lia. by simp chunks.
Qed.

(** What both handlers do with a download above the threshold whose
    file is on disk: the file goes to the splitter and its parts are
    sent, in order, as the documents [fileName.part1], ...; of the files
    on disk only the parts are touched. *)
Lemma large_download_is_split
    (send_outcome : Message -> option JsError)
    (partPath : string -> nat -> string) (maxPartBytes : nat)
    (deliver : DownloadResult.t -> M unit)
    (r : DownloadResult.t) (content : Buffer) (w : World) :
  deliver = mdl_deliver send_outcome partPath maxPartBytes \/
  deliver = dl_deliver send_outcome partPath maxPartBytes ->
  (forall m, send_outcome m = None) ->
  disk w !! DownloadResult.filePath r = Some content ->
  SPLIT_THRESHOLD < DownloadResult.fileSize r ->
  N.of_nat maxPartBytes <= kIoMaxLength ->
  (forall i j, partPath (DownloadResult.filePath r) i
               = partPath (DownloadResult.filePath r) j -> i = j) ->
  let chunks := Splitter.chunks maxPartBytes content in
  exists w' sent,
    deliver r w = (Returned tt, w') /\
    outbox w' = (outbox w ++ sent)%list /\
    documents sent
    = zip (part_names (DownloadResult.fileName r) (length chunks)) chunks /\
    successCount w' = successCount w /\ failedUrls w' = failedUrls w /\
    progress_map w' = progress_map w /\
    (forall p, (forall k, partPath (DownloadResult.filePath r) k <> p) ->
               disk w' !! p = disk w !! p).
Proof.
  intros Hdeliver Hsend Hfile Hbig Hpart Hinj chunks.
  apply N.ltb_lt in Hbig as Hbig'.
  set (fileName := DownloadResult.fileName r).
  assert (Hdocs : forall note,
             documents note = [] ->
             documents (note ++ part_documents fileName (length chunks) 0 chunks)
             = zip (part_names fileName (length chunks)) chunks).
  { intros note Hnote. rewrite documents_app, Hnote.
    cbn [app]. by rewrite documents_part_documents. }
  destruct Hdeliver as [-> | ->].
  - unfold mdl_deliver. rewrite Hbig'.
    unfold bind at 1. rewrite (sendMessage_run _ Hsend).
    set (wa := add_outbox w _).
    destruct (split_and_send send_outcome partPath maxPartBytes Hsend
                (DownloadResult.filePath r) fileName content wa Hinj Hfile Hpart)
      as (w1 & Hsplit & Hlen & Ho1 & Hc1 & Hf1 & Hp1 & Hd1 & Hloop).
    destruct (Hloop w1 eq_refl) as (w' & Hrun & Ho' & Hc' & Hf' & Hp' & Hd').
    exists w', ([Text ("⚒️ Splitting large file: " +:+ fileName)] ++
                part_documents fileName (length chunks) 0 chunks)%list.
    split; [|split; [|split; [|split; [|split; [|split]]]]].
    + unfold bind at 1. rewrite Hsplit. exact Hrun.
    + rewrite Ho', Ho1, Hlen. simpl. by rewrite <- (assoc_L (++)).
    + by apply Hdocs.
    + rewrite Hc'. simpl. by rewrite Hc1.
    + rewrite Hf'. simpl. by rewrite Hf1.
    + rewrite Hp'. simpl. by rewrite Hp1.
    + intros p Hp. rewrite Hd', Hd1 by (by apply not_a_part). reflexivity.
  - unfold dl_deliver. rewrite Hbig'.
    unfold bind at 1. rewrite (sendMessage_run _ Hsend).
    set (wa := add_outbox w _).
    destruct (split_and_send send_outcome partPath maxPartBytes Hsend
                (DownloadResult.filePath r) fileName content wa Hinj Hfile Hpart)
      as (w1 & Hsplit & Hlen & Ho1 & Hc1 & Hf1 & Hp1 & Hd1 & Hloop).
    destruct (Hloop (add_outbox w1 (React "⬆️")) eq_refl)
      as (w' & Hrun & Ho' & Hc' & Hf' & Hp' & Hd').
    exists w', ([React "⚒️"; React "⬆️"] ++
                part_documents fileName (length chunks) 0 chunks)%list.
    split; [|split; [|split; [|split; [|split; [|split]]]]].
    + unfold bind at 1. rewrite Hsplit.
      unfold bind at 1. rewrite (sendMessage_run _ Hsend). exact Hrun.
    + rewrite Ho'. simpl. rewrite Ho1, Hlen. simpl.
      by rewrite <- !(assoc_L (++)).
    + by apply Hdocs.
    + rewrite Hc'. simpl. by rewrite Hc1.
    + rewrite Hf'. simpl. by rewrite Hf1.
    + rewrite Hp'. simpl. by rewrite Hp1.
    + intros p Hp. rewrite Hd' by (by apply not_a_part). simpl.
      rewrite Hd1 by (by apply not_a_part). reflexivity.
Qed.

(** C7, as stated, fails.  First run: a finished download of exactly
    2 GiB is within the threshold, so that both handlers read it whole,
    and [fs.readFile], which reads at most 2^31 - 1 bytes, rejects:
    nothing is delivered.  Second run: a download announced with
    2 GiB + 1 bytes of which 5 are on disk is handed to the splitter, and
    is delivered as one part. *)
Lemma threshold_is_not_the_whole_story :
  (exists e,
     mdl_deliver reliable_socket decimal_partPath one_GiB two_GiB_result two_GiB_world
     = (Thrown e, two_GiB_world) /\
     dl_deliver reliable_socket decimal_partPath one_GiB two_GiB_result two_GiB_world
     = (Thrown e, add_outbox two_GiB_world (React "⬆️")) /\
     err_name e = "RangeError") /\
  DownloadResult.fileSize two_GiB_result <= SPLIT_THRESHOLD /\
  (exists w',
     dl_deliver reliable_socket decimal_partPath one_GiB short_result small_world
     = (Returned tt, w') /\
     documents (new_outbox small_world w') = [("f.bin.part1", bytes5)]) /\
  SPLIT_THRESHOLD < DownloadResult.fileSize short_result.
Proof.
  assert (Hfile : disk two_GiB_world !! "/srv/downloads/two.bin" = Some two_GiB_file).
  { apply lookup_singleton_eq. }
  assert (Hsize : buffer_length two_GiB_file = 2147483648).
  { unfold buffer_length, two_GiB_file. by rewrite length_replicate, N2Nat.id. }
  assert (Hlarge : kIoMaxLength < buffer_length two_GiB_file).
  { rewrite Hsize. reflexivity. }
  split; [|split; [by vm_compute|split; [|reflexivity]]].
  - exists (ERR_FS_FILE_TOO_LARGE (buffer_length two_GiB_file)). split; [|split].
    + unfold mdl_deliver.
      change (SPLIT_THRESHOLD <? DownloadResult.fileSize two_GiB_result) with false.
      cbv iota. unfold bind.
      change (DownloadResult.filePath two_GiB_result) with "/srv/downloads/two.bin".
      by rewrite (readFile_too_large _ _ _ Hfile Hlarge).
    + unfold dl_deliver.
      change (SPLIT_THRESHOLD <? DownloadResult.fileSize two_GiB_result) with false.
      cbv iota. unfold bind at 1, sendMessage at 1, reliable_socket.
      unfold bind.
      change (DownloadResult.filePath two_GiB_result) with "/srv/downloads/two.bin".
      by rewrite (readFile_too_large _ _ (add_outbox two_GiB_world (React "⬆️"))
                    Hfile Hlarge).
    + reflexivity.
  - destruct (large_download_is_split reliable_socket decimal_partPath one_GiB _
                short_result bytes5 small_world (or_intror eq_refl))
      as (w' & sent & Hrun & Ho & Hdocs & _).
    + reflexivity.
    + reflexivity.
    + reflexivity.
    + unfold one_GiB. rewrite N2Nat.id. by vm_compute.
    + apply decimal_partPath_inj.
    + exists w'. split; [exact Hrun|]. rewrite (new_outbox_app _ _ _ Ho), Hdocs.
      rewrite chunks_short by (unfold one_GiB; simpl; lia). reflexivity.
Qed.

(** C7, amended: with a socket that delivers and the finished download
    on disk, both handlers ([.mdl] and [.dl]) do this.  A download whose
    fileSize is at most 2 GiB and whose file holds at most 2^31 - 1 bytes,
    what [fs.readFile] reads, is sent as one document, the whole file
    under its own name, and nothing is split.  A download whose fileSize
    exceeds 2 GiB is handed to the splitter and, when the file on disk
    holds fileSize bytes and the part size of the splitter is positive and
    at most 2^31 - 1 bytes, is sent as the documents [fileName.part1],
    [fileName.part2], ..., at least two of them, whose contents in order
    are the file. *)
Theorem threshold_policy
    (send_outcome : Message -> option JsError)
    (partPath : string -> nat -> string) (maxPartBytes : nat)
    (deliver : DownloadResult.t -> M unit)
    (r : DownloadResult.t) (content : Buffer) (w : World) :
  deliver = mdl_deliver send_outcome partPath maxPartBytes \/
  deliver = dl_deliver send_outcome partPath maxPartBytes ->
  (forall m, send_outcome m = None) ->
  disk w !! DownloadResult.filePath r = Some content ->
  (DownloadResult.fileSize r <= SPLIT_THRESHOLD ->
   buffer_length content <= kIoMaxLength ->
   exists w',
     deliver r w = (Returned tt, w') /\
     documents (new_outbox w w') = [(DownloadResult.fileName r, content)] /\
     disk w' = disk w) /\
  (SPLIT_THRESHOLD < DownloadResult.fileSize r ->
   buffer_length content = DownloadResult.fileSize r ->
   (0 < maxPartBytes)%nat ->
   N.of_nat maxPartBytes <= kIoMaxLength ->
   (forall i j, partPath (DownloadResult.filePath r) i
                = partPath (DownloadResult.filePath r) j -> i = j) ->
   exists w',
     deliver r w = (Returned tt, w') /\
     let docs := documents (new_outbox w w') in
     (2 <= length docs)%nat /\
     length docs = Splitter.ceil_div (length content) maxPartBytes /\
     docs.*1 = part_names (DownloadResult.fileName r) (length docs) /\
     concat docs.*2 = content).
Proof.
  intros Hdeliver Hsend Hfile. split.
  - intros Hsmall Hsize. apply N.ltb_ge in Hsmall.
    destruct Hdeliver as [-> | ->].
    + eexists. unfold mdl_deliver. rewrite Hsmall.
      unfold bind at 1. rewrite (readFile_run _ _ _ Hfile Hsize).
      rewrite (sendMessage_run _ Hsend). split; [reflexivity|].
      split; [|reflexivity].
      by rewrite (new_outbox_app w _ [Document content (DownloadResult.fileName r)
                                       (caption_whole (DownloadResult.fileName r))]).
    + eexists. unfold dl_deliver. rewrite Hsmall.
      unfold bind at 1. rewrite (sendMessage_run _ Hsend).
      unfold bind at 1.
      rewrite (readFile_run _ _ (add_outbox w (React "⬆️")) Hfile Hsize).
      rewrite (sendMessage_run _ Hsend). split; [reflexivity|].
      split; [|reflexivity].
      rewrite (new_outbox_app w _ [React "⬆️";
                                    Document content (DownloadResult.fileName r)
                                      (caption_whole (DownloadResult.fileName r))]).
      * reflexivity.
      * simpl. by rewrite <- (assoc_L (++)).
  - intros Hbig Hsize Hpos Hpart Hinj.
    assert (Hlong : (maxPartBytes < length content)%nat).
    { unfold buffer_length, SPLIT_THRESHOLD, kIoMaxLength in *. lia. }
    destruct (large_download_is_split send_outcome partPath maxPartBytes deliver
                r content w Hdeliver Hsend Hfile Hbig Hpart Hinj)
      as (w' & sent & Hrun & Ho & Hdocs & _).
    exists w'. split; [exact Hrun|]. cbv zeta.
    rewrite (new_outbox_app _ _ _ Ho), Hdocs.
    set (chunks := Splitter.chunks maxPartBytes content).
    assert (Hl : length (zip (part_names (DownloadResult.fileName r) (length chunks))
                           chunks) = length chunks).
    { unfold part_names. rewrite length_zip_with, length_fmap, length_seq. lia. }
    rewrite Hl. unfold chunks at 1 2. rewrite chunks_length by done.
    split; [by apply ceil_div_ge_2|]. split; [reflexivity|]. split.
    + apply fst_zip. unfold part_names. rewrite length_fmap, length_seq. lia.
    + rewrite snd_zip by (unfold part_names; rewrite length_fmap, length_seq; lia).
      by apply chunks_concat.
Qed.

Lemma split_round_trip_witness :
  exists parts w',
    Splitter.split decimal_partPath "/srv/downloads/f.bin" 2 small_world
    = (Returned parts, w') /\
    Splitter.reassemble (disk w') parts = Some bytes5 /\
    length parts = Splitter.ceil_div (length bytes5) 2 /\
    Splitter.index <$> parts = seq 1 (length parts).
Proof.
  apply (split_round_trip decimal_partPath "/srv/downloads/f.bin" 2 bytes5 small_world).
  - lia.
  - apply decimal_partPath_inj.
  - reflexivity.
Defined.

Lemma threshold_policy_witness :
  (exists w',
     mdl_deliver reliable_socket decimal_partPath one_GiB small_result small_world
     = (Returned tt, w') /\
     documents (new_outbox small_world w') = [("f.bin", bytes5)] /\
     disk w' = disk small_world) /\
  (exists w',
     dl_deliver reliable_socket decimal_partPath one_GiB big_result big_world
     = (Returned tt, w') /\
     let docs := documents (new_outbox big_world w') in
     (2 <= length docs)%nat /\
     length docs = Splitter.ceil_div (length big_file) one_GiB /\
     docs.*1 = part_names "big.bin" (length docs) /\
     concat docs.*2 = big_file).
Proof.
  split.
  - apply (threshold_policy reliable_socket decimal_partPath one_GiB _
             small_result bytes5 small_world (or_introl eq_refl)).
    + reflexivity.
    + reflexivity.
    + unfold SPLIT_THRESHOLD. simpl. lia.
    + by vm_compute.
  - apply (threshold_policy reliable_socket decimal_partPath one_GiB _
             big_result big_file big_world (or_intror eq_refl)).
    + reflexivity.
    + apply lookup_singleton_eq.
    + unfold SPLIT_THRESHOLD. cbn [DownloadResult.fileSize big_result]. lia.
    + unfold buffer_length, big_file. rewrite length_replicate, N2Nat.id. reflexivity.
    + unfold one_GiB. lia.
    + unfold one_GiB, kIoMaxLength. rewrite N2Nat.id. lia.
    + apply decimal_partPath_inj.
Defined.
(* ===================================================================== *)
(** * One item of a [.mdl] batch, run on its own *)
(* ===================================================================== *)

Section BatchFacts.

Variable cwd : string.
Variable send_outcome : Message -> option JsError.
Variable partPath : string -> nat -> string.
Variable maxPartBytes : nat.
Hypothesis socket_delivers : forall m, send_outcome m = None.
Hypothesis partPath_inj : forall source i j, partPath source i = partPath source j -> i = j.
Hypothesis part_readable : N.of_nat maxPartBytes <= kIoMaxLength.

Lemma cleanup_run (filePath : string) (w : World) :
  exists w',
    cleanup filePath w = (Returned tt, w') /\
    outbox w' = outbox w /\ successCount w' = successCount w /\
    failedUrls w' = failedUrls w /\ progress_map w' = progress_map w /\
    disk w' = delete filePath (disk w).
Proof.
  unfold cleanup, bind at 1, existsSync, gets.
  case_bool_decide as Hex.
  - destruct Hex as [content Hc]. eexists.
    unfold bind, unlink, log, modify. rewrite Hc. simpl. auto 10.
  - exists w. unfold ret. repeat split; auto.
    symmetry. apply delete_id. by apply eq_None_not_Some.
Qed.

(** The delivery of a finished download whose file is on disk. *)
Lemma mdl_deliver_run (r : DownloadResult.t) (content : Buffer) (w : World) :
  disk w !! DownloadResult.filePath r = Some content ->
  readable r content ->
  exists w' sent,
    mdl_deliver send_outcome partPath maxPartBytes r w = (Returned tt, w') /\
    outbox w' = (outbox w ++ sent)%list /\
    documents sent = delivered_documents maxPartBytes r content /\
    successCount w' = successCount w /\
    failedUrls w' = failedUrls w /\ progress_map w' = progress_map w /\
    (forall p, (forall k, partPath (DownloadResult.filePath r) k <> p) ->
               disk w' !! p = disk w !! p).
Proof.
  intros Hfile Hread. unfold delivered_documents.
  destruct (SPLIT_THRESHOLD <? DownloadResult.fileSize r) eqn:Hgate.
  - apply N.ltb_lt in Hgate.
    apply (large_download_is_split send_outcome partPath maxPartBytes _ r content w
             (or_introl eq_refl) socket_delivers Hfile Hgate part_readable
             (partPath_inj _)).
  - unfold mdl_deliver. rewrite Hgate. apply N.ltb_ge in Hgate.
    unfold bind at 1. rewrite (readFile_run _ _ _ Hfile (Hread Hgate)).
    rewrite (sendMessage_run _ socket_delivers). eexists _, [_]. simpl. auto 10.
Qed.

(** An item whose download succeeds is delivered, its file removed, and
    it is counted and confirmed. *)
Lemma mdl_item_success (total i : nat) (u : string) (t : Transfer)
    (r : DownloadResult.t) (w : World) :
  keyed (progress_map w) ->
  transfer_outcome cwd u t (disk w) = Returned r ->
  readable r (body (t_events t)) ->
  exists w' sent,
    mdl_item cwd send_outcome partPath maxPartBytes total i u t w
    = (Returned (mkReport true u None), w') /\
    keyed (progress_map w') /\
    outbox w' = (outbox w ++ sent ++
                 [confirmation total i (DownloadResult.fileName r)])%list /\
    documents sent = delivered_documents maxPartBytes r (body (t_events t)) /\
    successCount w' = S (successCount w) /\
    failedUrls w' = failedUrls w /\
    disk w' !! DownloadResult.filePath r = None /\
    (forall p, p <> DownloadResult.filePath r ->
               (forall k, partPath (DownloadResult.filePath r) k <> p) ->
               disk w' !! p = disk w !! p).
Proof.
  intros Hk Hout Hread.
  destruct (handleDownload_run cwd u t w Hk) as (w1 & Hrun & Hk1 & Ho1 & Hc1 & Hf1 & _).
  rewrite Hout in Hrun.
  destruct (successful_download_on_disk cwd u t w w1 r Hk Hrun) as [Hfile Hother].
  destruct (mdl_deliver_run r _ w1 Hfile Hread)
    as (w2 & sent & Hdel & Ho2 & Hdocs & Hc2 & Hf2 & Hp2 & Hd2).
  destruct (cleanup_run (DownloadResult.filePath r) w2)
    as (w3 & Hclean & Ho3 & Hc3 & Hf3 & Hp3 & Hd3).
  eexists _, sent. split; [|split; [|split; [|split; [|split; [|split; [|split]]]]]].
  - unfold mdl_item, try_catch. unfold bind at 1. rewrite Hrun.
    unfold bind at 1. rewrite Hdel. unfold bind at 1. rewrite Hclean.
    unfold bind at 1, incr_successCount, modify.
    unfold bind at 1. rewrite (sendMessage_run _ socket_delivers).
    unfold ret. reflexivity.
  - simpl. by rewrite Hp3, Hp2.
  - simpl. rewrite Ho3, Ho2, Ho1. unfold confirmation.
    by rewrite <- (assoc_L (++)).
  - exact Hdocs.
  - simpl. by rewrite Hc3, Hc2, Hc1.
  - simpl. by rewrite Hf3, Hf2, Hf1.
  - simpl. rewrite Hd3. apply lookup_delete_eq.
  - intros p Hp Hparts. simpl. rewrite Hd3, lookup_delete_ne by done.
    rewrite (Hd2 p Hparts). by apply Hother.
Qed.

(** An item whose download fails is recorded with its URL and the message
    of the error, and reported; nothing is delivered. *)
Lemma mdl_item_failure (total i : nat) (u : string) (t : Transfer)
    (e : JsError) (w : World) :
  keyed (progress_map w) ->
  transfer_outcome cwd u t (disk w) = Thrown e ->
  exists w',
    mdl_item cwd send_outcome partPath maxPartBytes total i u t w
    = (Returned (mkReport false u (Some (err_message e))), w') /\
    keyed (progress_map w') /\
    outbox w' = (outbox w ++ [failure_notice total i u (err_message e)])%list /\
    successCount w' = successCount w /\
    failedUrls w' = (failedUrls w ++ [(u, err_message e)])%list.
Proof.
  intros Hk Hout.
  destruct (handleDownload_run cwd u t w Hk) as (w1 & Hrun & Hk1 & Ho1 & Hc1 & Hf1 & _).
  rewrite Hout in Hrun.
  eexists. split; [|split; [|split; [|split]]].
  - unfold mdl_item, try_catch. unfold bind at 1. rewrite Hrun.
    unfold bind at 1, log, modify. unfold bind at 1, push_failedUrls, modify.
    unfold bind at 1. rewrite (sendMessage_run _ socket_delivers).
    unfold ret. reflexivity.
  - done.
  - simpl. by rewrite Ho1.
  - simpl. by rewrite Hc1.
  - simpl. by rewrite Hf1.
Qed.

End BatchFacts.

(* ===================================================================== *)
(** * Callbacks with [await]s, run without interruption *)
(* ===================================================================== *)

Lemma bind_ext {A B} (c1 c2 : M A) (k1 k2 : A -> M B) (w : World) :
  (forall w', c1 w' = c2 w') -> (forall a w', k1 a w' = k2 a w') ->
  bind c1 k1 w = bind c2 k2 w.
Proof.
  intros Hc Hk. unfold bind. rewrite Hc.
  destruct (c2 w) as [[a|e|e] w']; [apply Hk|done|done].
Qed.

Lemma try_catch_ext {A} (c1 c2 : M A) (h1 h2 : JsError -> M A) (w : World) :
  (forall w', c1 w' = c2 w') -> (forall e w', h1 e w' = h2 e w') ->
  try_catch c1 h1 w = try_catch c2 h2 w.
Proof.
  intros Hc Hh. unfold try_catch. rewrite Hc.
  destruct (c2 w) as [[a|e|e] w']; [done|apply Hh|done].
Qed.

Lemma run_step {A} (c : M A) (w : World) : run (step c) w = c w.
Proof. simpl. by destruct (c w). Qed.

Lemma run_tbind {A B} (p : Task A) (k : A -> Task B) :
  forall w, run (tbind p k) w = bind (run p) (fun a => run (k a)) w.
Proof.
  induction p as [[a|e|e]|next IH effect]; intros w; try reflexivity.
  cbn [tbind run]. rewrite IH. reflexivity.
Qed.

Lemma run_ttry {A} (p : Task A) (h : JsError -> Task A) :
  forall w, run (ttry p h) w = try_catch (run p) (fun e => run (h e)) w.
Proof.
  induction p as [[a|e|e]|next IH effect]; intros w; try reflexivity.
  cbn [ttry run]. rewrite IH. reflexivity.
Qed.

(** Goals [run p w = c w] where the task [p] and the code [c] have the
    same shape. *)
Ltac same_code :=
  repeat first
    [ reflexivity
    | rewrite run_step
    | rewrite run_ttry; apply try_catch_ext; intros
    | rewrite run_tbind; apply bind_ext; intros
    | match goal with
      | |- run (if ?b then _ else _) _ = _ => destruct b
      end ].

Section RunAlone.

Variable cwd : string.
Variable send_outcome : Message -> option JsError.
Variable partPath : string -> nat -> string.
Variable maxPartBytes : nat.

Lemma run_pipeline (u : string) (progress : DownloadProgress) (writer : Writer)
    (ending : option JsError) (events : list Event) :
  forall (n : N) (queued : Buffer) (w : World),
    run (Async.pipeline u progress writer n queued events ending) w
    = pipeline u progress writer n queued events ending w.
Proof.
  induction events as [|ev rest IH]; intros n queued w.
  - cbn [Async.pipeline pipeline]. apply run_step.
  - destruct ev as [chunk| |p]; cbn [Async.pipeline pipeline].
    + rewrite run_tbind. unfold bind at 1. rewrite run_step.
      unfold bind at 1 3. destruct (store_find u w) as [[cur|e|e] w1]; try reflexivity.
      destruct (bool_decide (status <$> cur = Some "stopped")).
      * unfold bind. destruct (abandon_writer writer queued w1) as [[[]|e|e] w2];
          reflexivity.
      * unfold bind.
        destruct (store_update u _ w1) as [[[]|e|e] w2]; try reflexivity.
        apply IH.
    + same_code. apply IH.
    + same_code. apply IH.
Qed.

Lemma run_handleDownload (u : string) (t : Transfer) (w : World) :
  run (Async.handleDownload cwd u t) w = handleDownload cwd u t w.
Proof.
  unfold Async.handleDownload, handleDownload. cbv zeta.
  same_code. apply run_pipeline.
Qed.

Lemma run_send_parts (fileName : string) (total : nat) (parts : list string) :
  forall (j : nat) (w : World),
    run (Async.send_parts send_outcome fileName total j parts) w
    = send_parts send_outcome fileName total j parts w.
Proof.
  induction parts as [|part rest IH]; intros j w; [reflexivity|].
  cbn [Async.send_parts send_parts]. same_code. apply IH.
Qed.

Lemma run_mdl_deliver (r : DownloadResult.t) (w : World) :
  run (Async.mdl_deliver send_outcome partPath maxPartBytes r) w
  = mdl_deliver send_outcome partPath maxPartBytes r w.
Proof.
  unfold Async.mdl_deliver, mdl_deliver. cbv zeta.
  destruct (SPLIT_THRESHOLD <? DownloadResult.fileSize r); same_code.
  apply run_send_parts.
Qed.

Lemma run_cleanup (filePath : string) (w : World) :
  run (Async.cleanup filePath) w = cleanup filePath w.
Proof.
  unfold Async.cleanup, cleanup. same_code.
Qed.

(** A callback of the batch that is given every turn does what
    [mdl_item] does. *)
Lemma run_mdl_item (total i : nat) (u : string) (t : Transfer) (w : World) :
  run (Async.mdl_item cwd send_outcome partPath maxPartBytes total i u t) w
  = mdl_item cwd send_outcome partPath maxPartBytes total i u t w.
Proof.
  unfold Async.mdl_item, mdl_item.
  same_code; first [apply run_handleDownload|apply run_mdl_deliver|apply run_cleanup].
Qed.

End RunAlone.

(* ===================================================================== *)
(** * Code that stays within its footprint *)
(* ===================================================================== *)

Section Local.

Variable F : Footprint.

Lemma agree_refl (w : World) : agree F w w.
Proof. by split. Qed.

Lemma Moves_refl (w : World) : Moves F w w [] 0 [].
Proof.
  split; try done; try (by rewrite app_nil_r); lia.
Qed.

Lemma Moves_trans (w w' w'' : World) sent counted failed sent' counted' failed' :
  Moves F w w' sent counted failed ->
  Moves F w' w'' sent' counted' failed' ->
  Moves F w w'' (sent ++ sent') (counted + counted') (failed ++ failed').
Proof.
  intros [H1 H2 H3 H4 H5 H6] [H1' H2' H3' H4' H5' H6']. split.
  - auto.
  - intros u Hu. by rewrite H2', H2.
  - intros p Hp. by rewrite H3', H3.
  - by rewrite H4', H4, (assoc_L (++)).
  - rewrite H5', H5. lia.
  - by rewrite H6', H6, (assoc_L (++)).
Qed.

Lemma same_move_refl (w1 w2 : World) : agree F w1 w2 -> same_move F w1 w1 w2 w2.
Proof. intros H. split; [done|]. exists [], 0%nat, []. split; apply Moves_refl. Qed.

Lemma same_move_trans (w1 w1' w1'' w2 w2' w2'' : World) :
  same_move F w1 w1' w2 w2' -> same_move F w1' w1'' w2' w2'' ->
  same_move F w1 w1'' w2 w2''.
Proof.
  intros [_ (s & c & f & Ha & Hb)] [Hag (s' & c' & f' & Ha' & Hb')].
  split; [done|]. exists (s ++ s')%list, (c + c')%nat, (f ++ f')%list.
  split; eapply Moves_trans; eauto.
Qed.

Lemma same_move_keyed (w1 w1' w2 w2' : World) :
  same_move F w1 w1' w2 w2' ->
  keyed (progress_map w1) -> keyed (progress_map w2) ->
  keyed (progress_map w1') /\ keyed (progress_map w2').
Proof.
  intros [_ (s & c & f & Ha & Hb)] H1 H2.
  split; [by apply (moves_keyed _ _ _ _ _ _ Ha)|by apply (moves_keyed _ _ _ _ _ _ Hb)].
Qed.

(** ** The combinators *)

Lemma local_weaken {A} (P Q : A -> Prop) (c : M A) :
  (forall a, P a -> Q a) -> local F P c -> local F Q c.
Proof.
  intros HPQ Hc w1 w2 H1 H2 Hag.
  destruct (Hc w1 w2 H1 H2 Hag) as (Ho & HP & Hm). auto.
Qed.

Lemma local_ret {A} (P : A -> Prop) (a : A) : P a -> local F P (ret a).
Proof.
  intros Ha w1 w2 _ _ Hag. split; [done|]. split.
  - by intros a' [= <-].
  - by apply same_move_refl.
Qed.

Lemma local_throw {A} (P : A -> Prop) (e : JsError) : local F P (throw e).
Proof.
  intros w1 w2 _ _ Hag. split; [done|]. split; [done|]. by apply same_move_refl.
Qed.

Lemma local_exit_process {A} (P : A -> Prop) (e : JsError) :
  local F P (exit_process e).
Proof.
  intros w1 w2 _ _ Hag. split; [done|]. split; [done|]. by apply same_move_refl.
Qed.

Lemma local_bind {A B} (P : A -> Prop) (Q : B -> Prop) (c : M A) (k : A -> M B) :
  local F P c -> (forall a, P a -> local F Q (k a)) -> local F Q (bind c k).
Proof.
  intros Hc Hk w1 w2 H1 H2 Hag.
  destruct (Hc w1 w2 H1 H2 Hag) as (Ho & HP & Hm).
  unfold bind. destruct (c w1) as [o1 w1'], (c w2) as [o2 w2']. simpl in *. subst o2.
  destruct (same_move_keyed _ _ _ _ Hm H1 H2) as [H1' H2'].
  destruct o1 as [a|e|e]; [|by auto|by auto].
  destruct (Hk a (HP a eq_refl) w1' w2' H1' H2' (proj1 Hm)) as (Ho' & HQ & Hm').
  split; [done|]. split; [done|]. by eapply same_move_trans.
Qed.

Lemma local_try_catch {A} (P : A -> Prop) (c : M A) (h : JsError -> M A) :
  local F P c -> (forall e, local F P (h e)) -> local F P (try_catch c h).
Proof.
  intros Hc Hh w1 w2 H1 H2 Hag.
  destruct (Hc w1 w2 H1 H2 Hag) as (Ho & HP & Hm).
  unfold try_catch. destruct (c w1) as [o1 w1'], (c w2) as [o2 w2']. simpl in *. subst o2.
  destruct (same_move_keyed _ _ _ _ Hm H1 H2) as [H1' H2'].
  destruct o1 as [a|e|e]; [by auto| |by auto].
  destruct (Hh e w1' w2' H1' H2' (proj1 Hm)) as (Ho' & HQ & Hm').
  split; [done|]. split; [done|]. by eapply same_move_trans.
Qed.

(** ** Callbacks *)

Lemma similar_weaken {A} (P Q : A -> Prop) (p : Task A) :
  (forall a, P a -> Q a) ->
  forall q, similar F P p q -> similar F Q p q.
Proof.
  intros HPQ. induction p as [o|next IH effect]; intros [o'|next' effect']; try done.
  - intros [-> HP]. split; auto.
  - intros Hs w1 w2 H1 H2 Hag. destruct (Hs w1 w2 H1 H2 Hag) as [Hn Hm].
    split; [by apply IH|done].
Qed.

Lemma similar_settled {A} (P : A -> Prop) (o : Outcome A) :
  (forall a, o = Returned a -> P a) -> similar F P (Settled o) (Settled o).
Proof. by split. Qed.

Lemma similar_step {A} (P : A -> Prop) (c : M A) :
  local F P c -> similar F P (step c) (step c).
Proof.
  intros Hc w1 w2 H1 H2 Hag. destruct (Hc w1 w2 H1 H2 Hag) as (Ho & HP & Hm).
  split; [|done]. simpl. rewrite <- Ho. by split.
Qed.

Lemma similar_tbind {A B} (P : A -> Prop) (Q : B -> Prop) (p : Task A)
    (k k' : A -> Task B) :
  (forall a, P a -> similar F Q (k a) (k' a)) ->
  forall q, similar F P p q -> similar F Q (tbind p k) (tbind q k').
Proof.
  intros Hk. induction p as [o|next IH effect]; intros [o'|next' effect']; try done.
  - intros [-> HP]. destruct o' as [a|e|e]; cbn [tbind]; [|done|done].
    by apply Hk, HP.
  - intros Hs w1 w2 H1 H2 Hag. destruct (Hs w1 w2 H1 H2 Hag) as [Hn Hm].
    split; [by apply IH|done].
Qed.

Lemma similar_ttry {A} (P : A -> Prop) (p : Task A) (h h' : JsError -> Task A) :
  (forall e, similar F P (h e) (h' e)) ->
  forall q, similar F P p q -> similar F P (ttry p h) (ttry q h').
Proof.
  intros Hh. induction p as [o|next IH effect]; intros [o'|next' effect']; try done.
  - intros [-> HP]. destruct o' as [a|e|e]; cbn [ttry]; [|by apply Hh|done].
    by split.
  - intros Hs w1 w2 H1 H2 Hag. destruct (Hs w1 w2 H1 H2 Hag) as [Hn Hm].
    split; [by apply IH|done].
Qed.

End Local.

(* ===================================================================== *)
(** * The operations of a callback stay within its footprint *)
(* ===================================================================== *)

Section LocalOperations.

Variable F : Footprint.

Lemma local_gets {A} (P : A -> Prop) (g : World -> A) :
  (forall w1 w2,
      keyed (progress_map w1) -> keyed (progress_map w2) -> agree F w1 w2 ->
      g w1 = g w2) ->
  (forall w, P (g w)) ->
  local F P (gets g).
Proof.
  intros Hg HP w1 w2 H1 H2 Hag. unfold gets. simpl.
  split; [by rewrite (Hg w1 w2)|]. split.
  - intros a [= <-]. apply HP.
  - by apply same_move_refl.
Qed.

Lemma local_modify (f : World -> World) sent counted failed :
  (forall w, Moves F w (f w) sent counted failed) ->
  (forall w1 w2, agree F w1 w2 -> agree F (f w1) (f w2)) ->
  local F anything (modify f).
Proof.
  intros Hm Hf w1 w2 H1 H2 Hag. unfold modify. simpl.
  split; [done|]. split; [done|]. split; [by apply Hf|].
  exists sent, counted, failed. split; apply Hm.
Qed.

Lemma Moves_set_disk (w : World) (path : string) (content : Buffer) :
  owns F path ->
  Moves F w (set_disk w (<[path := content]> (disk w))) [] 0 [].
Proof.
  intros Hown. split; simpl; try done; try (by rewrite app_nil_r); try lia.
  intros p Hp. apply lookup_insert_ne. by intros ->.
Qed.

Lemma agree_set_disk (w1 w2 : World) (path : string) (content : Buffer) :
  agree F w1 w2 ->
  agree F (set_disk w1 (<[path := content]> (disk w1)))
          (set_disk w2 (<[path := content]> (disk w2))).
Proof.
  intros [Hs Hd]. split; [done|]. simpl. intros p Hp.
  destruct (decide (p = path)) as [->|Hne].
  - by rewrite !lookup_insert_eq.
  - rewrite !lookup_insert_ne by done. by apply Hd.
Qed.

Lemma local_write (path : string) (content : Buffer) :
  owns F path ->
  local F anything
    (modify (fun w => set_disk w (<[path := content]> (disk w)))).
Proof.
  intros Hown. apply (local_modify _ [] 0%nat []).
  - intros w. by apply Moves_set_disk.
  - intros w1 w2. apply agree_set_disk.
Qed.

Lemma local_createWriteStream (writer : Writer) :
  owns F (writer_path writer) -> local F anything (createWriteStream writer).
Proof.
  intros Hown. unfold createWriteStream. destruct (writer_open writer).
  - by apply local_ret.
  - by apply local_write.
Qed.

Lemma local_finish_writer (writer : Writer) (queued : Buffer) :
  owns F (writer_path writer) -> local F anything (finish_writer writer queued).
Proof. intros Hown. by apply local_write. Qed.

Lemma local_abandon_writer (writer : Writer) (queued : Buffer) :
  owns F (writer_path writer) -> local F anything (abandon_writer writer queued).
Proof.
  intros Hown. unfold abandon_writer. destruct (writer_open writer).
  - by apply local_ret.
  - by apply local_write.
Qed.

Lemma local_store_find : local F anything (store_find (own_url F)).
Proof.
  apply local_gets; [|done]. intros w1 w2 H1 H2 [Hs _].
  by rewrite !findByUrl_lookup.
Qed.

Lemma local_store_update (p : DownloadProgress) :
  url p = own_url F -> local F anything (store_update (own_url F) p).
Proof.
  intros Hu. apply (local_modify _ [] 0%nat []).
  - intros w. split; simpl; try done; try (by rewrite app_nil_r); try lia.
    + rewrite <- Hu. apply keyed_update.
    + intros u Hne. unfold updateDownloadProgress. by apply lookup_insert_ne.
  - intros w1 w2 [Hs Hd]. split; [|done]. simpl. unfold updateDownloadProgress.
    by rewrite !lookup_insert_eq.
Qed.

Lemma local_log (line : string) : local F anything (log line).
Proof.
  apply (local_modify _ [] 0%nat []).
  - intros w. split; simpl; try done; try (by rewrite app_nil_r); lia.
  - by intros w1 w2 [Hs Hd].
Qed.

Lemma local_mkdir (outcome : option JsError) : local F anything (mkdir outcome).
Proof. destruct outcome; [apply local_throw|by apply local_ret]. Qed.

Lemma local_axios (outcome : JsError + Response) :
  local F (fun response => outcome = inr response) (axios outcome).
Proof. destruct outcome; [apply local_throw|by apply local_ret]. Qed.

Lemma local_existsSync (path : string) :
  owns F path -> local F anything (existsSync path).
Proof.
  intros Hown. apply local_gets; [|done]. intros w1 w2 _ _ [_ Hd].
  by rewrite (Hd path Hown).
Qed.

Lemma local_unlink_without_callback (path : string) :
  local F anything (unlink_without_callback path).
Proof. apply local_throw. Qed.

Lemma local_readFile (path : string) :
  owns F path -> local F anything (readFile path).
Proof.
  intros Hown w1 w2 _ _ Hag. pose proof (proj2 Hag path Hown) as Hd.
  unfold readFile. rewrite Hd. destruct (disk w2 !! path) as [content|].
  - destruct (kIoMaxLength <? buffer_length content);
      (split; [done|]); (split; [done|]); by apply same_move_refl.
  - split; [done|]. split; [done|]. by apply same_move_refl.
Qed.

Lemma local_read_source (path : string) :
  owns F path -> local F anything (Splitter.read_source path).
Proof.
  intros Hown w1 w2 _ _ Hag. pose proof (proj2 Hag path Hown) as Hd.
  unfold Splitter.read_source. rewrite Hd. destruct (disk w2 !! path) as [content|];
    (split; [done|]); (split; [done|]); by apply same_move_refl.
Qed.

Lemma local_unlink (path : string) :
  owns F path -> local F anything (unlink path).
Proof.
  intros Hown w1 w2 _ _ Hag. pose proof (proj2 Hag path Hown) as Hd.
  unfold unlink. rewrite Hd. destruct (disk w2 !! path) as [content|]; simpl.
  - split; [done|]. split; [done|]. split.
    + destruct Hag as [Hs Hdisk]. split; [done|]. simpl. intros p Hp.
      destruct (decide (p = path)) as [->|Hne].
      * by rewrite !lookup_delete_eq.
      * rewrite !lookup_delete_ne by done. by apply Hdisk.
    + exists [], 0%nat, [].
      split; (split; simpl; try done; try (by rewrite app_nil_r); try lia;
              intros p Hp; apply lookup_delete_ne; by intros ->).
  - split; [done|]. split; [done|]. by apply same_move_refl.
Qed.

Lemma local_writeFile (path : string) (content : Buffer) :
  owns F path -> local F anything (writeFile path content).
Proof. intros Hown. by apply local_write. Qed.

Lemma local_sendMessage (send_outcome : Message -> option JsError) (content : Message) :
  local F anything (sendMessage send_outcome content).
Proof.
  intros w1 w2 _ _ Hag. unfold sendMessage. destruct (send_outcome content); simpl.
  - split; [done|]. split; [done|]. by apply same_move_refl.
  - split; [done|]. split; [done|]. split; [by destruct Hag|].
    exists [content], 0%nat, [].
    split; (split; simpl; try done; try (by rewrite app_nil_r); lia).
Qed.

Lemma local_incr_successCount : local F anything incr_successCount.
Proof.
  apply (local_modify _ [] 1%nat []).
  - intros w. split; simpl; try done; try (by rewrite app_nil_r); lia.
  - by intros w1 w2 [Hs Hd].
Qed.

Lemma local_push_failedUrls (u error : string) :
  local F anything (push_failedUrls u error).
Proof.
  apply (local_modify _ [] 0%nat [(u, error)]).
  - intros w. split; simpl; try done; try (by rewrite app_nil_r); lia.
  - by intros w1 w2 [Hs Hd].
Qed.

Lemma local_write_parts (partPath : string -> nat -> string) (source : string)
    (parts : list Buffer) :
  (forall k, owns F (partPath source k)) ->
  forall i,
    local F (fun files => Forall (owns F) (Splitter.path <$> files))
      (Splitter.write_parts partPath source i parts).
Proof.
  intros Hown. induction parts as [|part rest IH]; intros i; cbn [Splitter.write_parts].
  - by apply local_ret.
  - eapply local_bind; [by apply local_writeFile|]. intros _ _.
    eapply local_bind; [apply IH|]. intros files Hfiles.
    apply local_ret. simpl. by constructor.
Qed.

Lemma local_splitFile (partPath : string -> nat -> string) (maxPartBytes : nat)
    (filePath : string) :
  owns F filePath -> (forall k, owns F (partPath filePath k)) ->
  local F (Forall (owns F)) (splitFile partPath maxPartBytes filePath).
Proof.
  intros Hfile Hparts. unfold splitFile, Splitter.split.
  eapply local_bind.
  - eapply local_bind.
    + apply (local_try_catch _ anything); [by apply local_read_source|].
      intros e. apply local_throw.
    + intros source _. by apply local_write_parts.
  - intros files Hfiles. by apply local_ret.
Qed.

End LocalOperations.

(* ===================================================================== *)
(** * The callback of a job stays within the footprint of the job *)
(* ===================================================================== *)

Section LocalJob.

Variable cwd : string.
Variable send_outcome : Message -> option JsError.
Variable partPath : string -> nat -> string.
Variable maxPartBytes : nat.
Variables (u : string) (t : Transfer).

Let F := footprint cwd partPath (u, t).

(** The destination of the job, once the response has arrived, and its
    parts are its own. *)
Lemma owns_destination (response : Response) :
  t_axios t = inr response ->
  let filePath := destination cwd (resolveFileName u (content_disposition response)) in
  owns F filePath /\ forall k, owns F (partPath filePath k).
Proof.
  intros Hax. unfold F, footprint. cbn [owns fst snd]. rewrite Hax.
  split; [by left|]. intros k. right. by exists k.
Qed.

Lemma similar_pipeline (progress : DownloadProgress) (writer : Writer)
    (ending : option JsError) (events : list Event) :
  url progress = u ->
  owns F (writer_path writer) ->
  Forall (fun ev => is_chunk ev = true) events ->
  forall (n : N) (queued : Buffer),
    similar F anything
      (Async.pipeline u progress writer n queued events ending)
      (Async.pipeline u progress writer n queued events ending).
Proof.
  intros Hu Hown. induction 1 as [|ev rest Hev _ IH]; intros n queued.
  - cbn [Async.pipeline]. apply similar_step.
    destruct (writer_open writer); [apply local_throw|].
    destruct ending.
    + eapply local_bind; [by apply local_abandon_writer|]. intros _ _.
      apply local_throw.
    + by apply local_finish_writer.
  - destruct ev as [chunk| |p]; [|done|done].
    cbn [Async.pipeline]. eapply similar_tbind; [intros _ _; apply IH|].
    apply similar_step.
    eapply local_bind; [apply (local_store_find F)|]. intros cur _.
    destruct (bool_decide (status <$> cur = Some "stopped")).
    + eapply local_bind; [by apply local_abandon_writer|]. intros _ _.
      apply local_exit_process.
    + by apply (local_store_update F).
Qed.

Lemma similar_handleDownload :
  undisturbed t ->
  similar F (names_destination F partPath)
    (Async.handleDownload cwd u t) (Async.handleDownload cwd u t).
Proof.
  intros Hev. unfold Async.handleDownload.
  apply similar_ttry.
  { intros e. eapply similar_tbind; [|apply similar_step, local_log].
    intros _ _. by apply similar_settled. }
  eapply similar_tbind; [|apply similar_step, local_mkdir]. intros _ _.
  eapply similar_tbind; [|apply similar_step, local_axios]. intros response Hax.
  cbv zeta. destruct (owns_destination response Hax) as [Hfile Hparts].
  eapply similar_tbind;
    [|apply similar_step; by apply local_createWriteStream].
  intros _ _.
  eapply similar_tbind; [|apply similar_step; by apply (local_store_update F)].
  intros _ _.
  eapply (similar_tbind _ anything).
  - intros _ _.
    eapply similar_tbind; [|apply similar_step; by apply (local_store_update F)].
    intros _ _.
    eapply similar_tbind; [|apply similar_step, local_log]. intros _ _.
    apply similar_settled. intros r [= <-]. by split.
  - apply similar_ttry; [|by apply similar_pipeline].
    intros e.
    eapply similar_tbind; [|apply similar_step; by apply local_existsSync].
    intros present _.
    eapply (similar_tbind _ anything); [intros _ _; by apply similar_settled|].
    destruct present; [apply similar_step, local_unlink_without_callback|].
    by apply similar_settled.
Qed.

Lemma similar_send_parts (fileName : string) (total : nat) (parts : list string) :
  Forall (owns F) parts ->
  forall j,
    similar F anything
      (Async.send_parts send_outcome fileName total j parts)
      (Async.send_parts send_outcome fileName total j parts).
Proof.
  induction 1 as [|part rest Hown _ IH]; intros j; cbn [Async.send_parts].
  - by apply similar_settled.
  - eapply similar_tbind; [|apply similar_step; by apply local_readFile].
    intros document _.
    eapply similar_tbind; [|apply similar_step, local_sendMessage]. intros _ _.
    eapply similar_tbind; [|apply similar_step; by apply local_unlink]. intros _ _.
    apply IH.
Qed.

Lemma similar_mdl_deliver (r : DownloadResult.t) :
  names_destination F partPath r ->
  similar F anything
    (Async.mdl_deliver send_outcome partPath maxPartBytes r)
    (Async.mdl_deliver send_outcome partPath maxPartBytes r).
Proof.
  intros [Hfile Hparts]. unfold Async.mdl_deliver. cbv zeta.
  destruct (SPLIT_THRESHOLD <? DownloadResult.fileSize r).
  - eapply similar_tbind; [|apply similar_step, local_sendMessage]. intros _ _.
    eapply similar_tbind; [|apply similar_step; by apply local_splitFile].
    intros parts Hown. by apply similar_send_parts.
  - eapply similar_tbind; [|apply similar_step; by apply local_readFile].
    intros document _. apply similar_step, local_sendMessage.
Qed.

Lemma similar_cleanup (filePath : string) :
  owns F filePath ->
  similar F anything (Async.cleanup filePath) (Async.cleanup filePath).
Proof.
  intros Hown. unfold Async.cleanup.
  eapply similar_tbind; [|apply similar_step; by apply local_existsSync].
  intros present _. destruct present; [|by apply similar_settled].
  eapply similar_tbind; [|apply similar_step; by apply local_unlink]. intros _ _.
  apply similar_step, local_log.
Qed.

(** The callback of a job whose transfer nobody disturbs reads and
    writes the record of its URL, its destination file and the parts of
    that file, and nothing else that another callback reads. *)
Lemma similar_mdl_item (total i : nat) :
  undisturbed t ->
  similar F anything
    (Async.mdl_item cwd send_outcome partPath maxPartBytes total i u t)
    (Async.mdl_item cwd send_outcome partPath maxPartBytes total i u t).
Proof.
  intros Hev. unfold Async.mdl_item. apply similar_ttry.
  { intros e.
    eapply similar_tbind; [|apply similar_step, local_log]. intros _ _.
    eapply similar_tbind; [|apply similar_step, local_push_failedUrls]. intros _ _.
    eapply similar_tbind; [|apply similar_step, local_sendMessage]. intros _ _.
    by apply similar_settled. }
  eapply similar_tbind; [|by apply similar_handleDownload]. intros r Hr.
  eapply similar_tbind; [|by apply similar_mdl_deliver]. intros _ _.
  eapply similar_tbind; [|apply similar_cleanup, Hr]. intros _ _.
  eapply similar_tbind; [|apply similar_step, local_incr_successCount]. intros _ _.
  eapply similar_tbind; [|apply similar_step, local_sendMessage]. intros _ _.
  by apply similar_settled.
Qed.

End LocalJob.

(* ===================================================================== *)
(** * Callbacks that share nothing do not disturb each other *)
(* ===================================================================== *)

Lemma concat_insert_app {A} (l : list (list A)) (i : nat) (x s : list A) :
  l !! i = Some x -> concat (<[i := (x ++ s)%list]> l) ≡ₚ (concat l ++ s)%list.
Proof.
  revert i. induction l as [|y l IH]; intros [|i] Hi; try done.
  - injection Hi as ->. simpl.
    rewrite <- !(assoc_L (++)). apply Permutation_app_head, Permutation_app_comm.
  - simpl. rewrite (IH i Hi). by rewrite (assoc_L (++)).
Qed.

Lemma sum_list_insert_add (l : list nat) (i x c : nat) :
  l !! i = Some x -> sum_list (<[i := (x + c)%nat]> l) = (sum_list l + c)%nat.
Proof.
  revert i. induction l as [|y l IH]; intros [|i] Hi; try done.
  - injection Hi as ->. simpl. lia.
  - simpl. rewrite (IH i Hi). lia.
Qed.

Lemma turns_app {A} (s1 s2 : list nat) (pool : Pool A) (w : World) :
  turns (s1 ++ s2) pool w = bind (turns s1 pool) (turns s2) w.
Proof.
  revert pool w. induction s1 as [|i s1 IH]; intros pool w; [done|].
  cbn [app turns]. unfold bind in IH |- *.
  destruct (turn i pool w) as [[pool'|e|e] w']; [|done|done].
  apply IH.
Qed.

(** Finishing a callback is giving it a number of turns in a row. *)
Lemma finish_turns {A} (i : nat) (p : Task A) :
  forall (pool : Pool A) (w : World),
    callbacks pool !! i = Some p ->
    exists k, finish i pool w = turns (replicate k i) pool w.
Proof.
  induction p as [o|next IH effect]; intros pool w Hi.
  - exists 0%nat. unfold finish. by rewrite Hi.
  - assert (Hlt : (i < length (callbacks pool))%nat) by (by eapply lookup_lt_Some).
    destruct (next w) as [o|next' effect'] eqn:Hnext.
    + exists 1%nat. cbn [replicate turns]. unfold bind, finish, turn.
      rewrite Hi. cbn [run]. rewrite Hnext. cbn [run].
      by destruct o.
    + set (pool1 := mkPool (<[i := Await next' effect']> (callbacks pool)) (settled pool)).
      destruct (IH w pool1 (effect w)) as [k Hk].
      { rewrite Hnext. simpl. by apply list_lookup_insert_eq. }
      exists (S k). cbn [replicate turns]. unfold bind at 1, turn at 1.
      rewrite Hi, Hnext. fold pool1. rewrite <- Hk.
      unfold finish. rewrite Hi. cbn [callbacks pool1].
      rewrite list_lookup_insert_eq by done.
      change (run (Await next effect) w) with (run (next w) (effect w)).
      rewrite Hnext.
      destruct (run (Await next' effect') (effect w)) as [[a|e|e] w']; try done;
        by rewrite list_insert_insert_eq.
Qed.

Lemma finish_settles {A} (i : nat) (pool pool' : Pool A) (w w' : World) :
  finish i pool w = (Returned pool', w') ->
  length (callbacks pool') = length (callbacks pool) /\
  (forall j o, callbacks pool !! j = Some (Settled o) ->
               callbacks pool' !! j = Some (Settled o)) /\
  ((i < length (callbacks pool))%nat ->
   exists o, callbacks pool' !! i = Some (Settled o)).
Proof.
  unfold finish. destruct (callbacks pool !! i) as [[o|next effect]|] eqn:Hi.
  - intros [= <- <-]. split; [done|]. split; [done|]. eauto.
  - destruct (run (Await next effect) w) as [[a|e|e] w1]; intros [= <- <-]; simpl.
    + split; [apply length_insert|]. split.
      * intros j o Hj. rewrite list_lookup_insert_ne; [done|]. intros ->. congruence.
      * intros Hlt. eexists. by apply list_lookup_insert_eq.
    + split; [apply length_insert|]. split.
      * intros j o Hj. rewrite list_lookup_insert_ne; [done|]. intros ->. congruence.
      * intros Hlt. eexists. by apply list_lookup_insert_eq.
  - intros [= <- <-]. split; [done|]. split; [done|].
    intros Hlt. apply lookup_ge_None in Hi. lia.
Qed.

Lemma finish_each_turns {A} (waiting : list nat) :
  forall (pool : Pool A) (w : World),
    exists schedule, finish_each waiting pool w = turns schedule pool w.
Proof.
  induction waiting as [|i rest IH]; intros pool w.
  - by exists [].
  - cbn [finish_each].
    assert (Hfin : exists k, finish i pool w = turns (replicate k i) pool w).
    { destruct (callbacks pool !! i) as [p|] eqn:Hi.
      - by apply (finish_turns i p).
      - exists 0%nat. unfold finish. by rewrite Hi. }
    destruct Hfin as [k Hk].
    destruct (finish i pool w) as [[pool1|e|e] w1] eqn:Hf.
    + destruct (IH pool1 w1) as [schedule Hs].
      exists (replicate k i ++ schedule)%list.
      rewrite turns_app. unfold bind. rewrite Hf, <- Hk. exact Hs.
    + exists (replicate k i). unfold bind. by rewrite Hf, <- Hk.
    + exists (replicate k i). unfold bind. by rewrite Hf, <- Hk.
Qed.

Lemma finish_each_settles {A} (waiting : list nat) :
  forall (pool pool' : Pool A) (w w' : World),
    finish_each waiting pool w = (Returned pool', w') ->
    length (callbacks pool') = length (callbacks pool) /\
    (forall j o, callbacks pool !! j = Some (Settled o) ->
                 callbacks pool' !! j = Some (Settled o)) /\
    (forall i, i ∈ waiting -> (i < length (callbacks pool))%nat ->
               exists o, callbacks pool' !! i = Some (Settled o)).
Proof.
  induction waiting as [|i rest IH]; intros pool pool' w w' Hrun.
  - injection Hrun as <- <-. split; [done|]. split; [done|].
    intros i Hi. by apply elem_of_nil in Hi.
  - cbn [finish_each] in Hrun. unfold bind in Hrun.
    destruct (finish i pool w) as [[pool1|e|e] w1] eqn:Hf; [|done|done].
    destruct (finish_settles _ _ _ _ _ Hf) as (Hl1 & Hkeep1 & Hi1).
    destruct (IH _ _ _ _ Hrun) as (Hl & Hkeep & Hrest).
    split; [by rewrite Hl, Hl1|]. split; [by auto|].
    intros j Hj Hlt. apply elem_of_cons in Hj as [->|Hj].
    + destruct (Hi1 Hlt) as [o Ho]. exists o. by apply Hkeep.
    + apply Hrest; [done|]. by rewrite Hl1.
Qed.

Lemma twins_start {A} (tasks : list (Task A)) (w0 : World) :
  let twins := (fun p => mkAlone p w0 [] 0%nat []) <$> tasks in
  concat (alone_sent <$> twins) = [] /\
  sum_list (alone_counted <$> twins) = 0%nat /\
  concat (alone_failed <$> twins) = [].
Proof.
  induction tasks as [|p rest IH]; [done|]. simpl. exact IH.
Qed.

Section Isolation.

Context {A : Type}.
Variable Fs : list Footprint.
Variable tasks : list (Task A).
Variable w0 : World.

Hypothesis footprints : length Fs = length tasks.
Hypothesis separated : forall i j F G,
  i <> j -> Fs !! i = Some F -> Fs !! j = Some G -> separate F G.
Hypothesis within : forall i F p,
  Fs !! i = Some F -> tasks !! i = Some p -> similar F anything p p.
Hypothesis no_exit : forall i p e,
  tasks !! i = Some p -> fst (run p w0) <> Exited e.

Lemma isolated_start :
  keyed (progress_map w0) ->
  Isolated Fs tasks w0 tasks w0 ((fun p => mkAlone p w0 [] 0 []) <$> tasks).
Proof.
  intros Hk. split.
  - done.
  - done.
  - by rewrite length_fmap.
  - intros i F p0 p x HF Hp0 Hp Hx.
    rewrite list_lookup_fmap, Hp0 in Hx. injection Hx as <-.
    rewrite Hp0 in Hp. injection Hp as <-. simpl.
    split; [by eapply within|]. split; [apply agree_refl|]. split; [done|].
    split; [done|]. apply Moves_refl.
  - exists []. split; [by rewrite app_nil_r|].
    by rewrite (proj1 (twins_start tasks w0)).
  - rewrite (proj1 (proj2 (twins_start tasks w0))). lia.
  - exists []. split; [by rewrite app_nil_r|].
    by rewrite (proj2 (proj2 (twins_start tasks w0))).
Qed.

Lemma agree_after_move (F G : Footprint) (w w' a : World) sent counted failed :
  separate F G -> Moves F w w' sent counted failed ->
  agree G w a -> agree G w' a.
Proof.
  intros [Hu Hp] Hm [Hs Hd]. split.
  - rewrite <- Hs. apply (moves_store _ _ _ _ _ _ Hm). by intros E.
  - intros p Hown. rewrite <- (Hd p Hown). apply (moves_disk _ _ _ _ _ _ Hm).
    intros HF. by apply (Hp p HF).
Qed.

(** One turn of a callback leaves every callback next to its twin. *)
Lemma isolated_turn (i : nat) (pool : Pool A) (w : World) (twins : list (Alone A)) :
  Isolated Fs tasks w0 (callbacks pool) w twins ->
  exists pool' w' twins',
    turn i pool w = (Returned pool', w') /\
    Isolated Fs tasks w0 (callbacks pool') w' twins'.
Proof.
  intros Hiso. unfold turn.
  destruct (callbacks pool !! i) as [[o|next effect]|] eqn:Hi;
    [by exists pool, w, twins| |by exists pool, w, twins].
  destruct Hiso as [Hk Hlp Hlt Heach [mo [Ho Hmo]] Hc [mf [Hf Hmf]]].
  assert (Hlt_i : (i < length tasks)%nat).
  { rewrite <- Hlp. by eapply lookup_lt_Some. }
  destruct (lookup_lt_is_Some_2 tasks i Hlt_i) as [p0 Hp0].
  destruct (lookup_lt_is_Some_2 Fs i) as [F HF]; [by rewrite footprints|].
  destruct (lookup_lt_is_Some_2 twins i) as [x Hx]; [by rewrite Hlt|].
  destruct (Heach i F p0 _ x HF Hp0 Hi Hx) as (Hsim & Hag & Hka & Hrun & Hmv).
  destruct (alone_task x) as [o'|next' effect'] eqn:Htask; [done|].
  destruct (Hsim w (alone_world x) Hk Hka Hag)
    as [Hnext [Hag' (sent & counted & failed & Hm1 & Hm2)]].
  set (x' := mkAlone (next' (alone_world x)) (effect' (alone_world x))
               (alone_sent x ++ sent) (alone_counted x + counted)
               (alone_failed x ++ failed)).
  assert (Hrun' : run (next' (alone_world x)) (effect' (alone_world x)) = run p0 w0).
  { rewrite <- Hrun. reflexivity. }
  assert (Hiso' : Isolated Fs tasks w0 (<[i := next w]> (callbacks pool)) (effect w)
                    (<[i := x']> twins)).
  { split.
    - by apply (moves_keyed _ _ _ _ _ _ Hm1).
    - by rewrite length_insert.
    - by rewrite length_insert.
    - intros j G q0 q y HG Hq0 Hq Hy.
      destruct (decide (j = i)) as [->|Hne].
      + rewrite list_lookup_insert_eq in Hq by (by rewrite Hlp).
        rewrite list_lookup_insert_eq in Hy by (by rewrite Hlt).
        injection Hq as <-. injection Hy as <-.
        rewrite HF in HG. injection HG as <-.
        rewrite Hp0 in Hq0. injection Hq0 as <-. simpl.
        split; [done|]. split; [done|].
        split; [by apply (moves_keyed _ _ _ _ _ _ Hm2)|]. split; [done|].
        by eapply Moves_trans.
      + rewrite list_lookup_insert_ne in Hq by done.
        rewrite list_lookup_insert_ne in Hy by done.
        destruct (Heach j G q0 q y HG Hq0 Hq Hy) as (H1 & H2 & H3 & H4 & H5).
        split; [done|]. split; [|done].
        eapply agree_after_move; [|exact Hm1|exact H2].
        apply (separated i j); [by intros ->|done|done].
    - exists (mo ++ sent)%list. split.
      + by rewrite (moves_outbox _ _ _ _ _ _ Hm1), Ho, (assoc_L (++)).
      + rewrite list_fmap_insert. simpl.
        rewrite concat_insert_app by (by rewrite list_lookup_fmap, Hx).
        by rewrite Hmo.
    - rewrite (moves_count _ _ _ _ _ _ Hm1), Hc, list_fmap_insert. simpl.
      rewrite sum_list_insert_add by (by rewrite list_lookup_fmap, Hx). lia.
    - exists (mf ++ failed)%list. split.
      + by rewrite (moves_failed _ _ _ _ _ _ Hm1), Hf, (assoc_L (++)).
      + rewrite list_fmap_insert. simpl.
        rewrite concat_insert_app by (by rewrite list_lookup_fmap, Hx).
        by rewrite Hmf. }
  destruct (next w) as [o|next2 effect2] eqn:Hnw.
  - destruct (next' (alone_world x)) as [o2|] eqn:Hna; [|done].
    destruct Hnext as [<- _].
    assert (Ho2 : o = fst (run p0 w0)) by (by rewrite <- Hrun').
    destruct o as [a|e|e].
    + eexists _, _, _. split; [reflexivity|]. exact Hiso'.
    + eexists _, _, _. split; [reflexivity|]. exact Hiso'.
    + exfalso. by apply (no_exit i p0 e Hp0).
  - eexists _, _, _. split; [reflexivity|]. exact Hiso'.
Qed.

Lemma isolated_turns (schedule : list nat) :
  forall (pool : Pool A) (w : World) (twins : list (Alone A)),
    Isolated Fs tasks w0 (callbacks pool) w twins ->
    exists pool' w' twins',
      turns schedule pool w = (Returned pool', w') /\
      Isolated Fs tasks w0 (callbacks pool') w' twins'.
Proof.
  induction schedule as [|i rest IH]; intros pool w twins Hiso.
  - by exists pool, w, twins.
  - destruct (isolated_turn i pool w twins Hiso) as (pool1 & w1 & twins1 & Hturn & Hiso1).
    destruct (IH pool1 w1 twins1 Hiso1) as (pool' & w' & twins' & Hrun & Hiso').
    exists pool', w', twins'. split; [|done].
    cbn [turns]. unfold bind. by rewrite Hturn.
Qed.

(** The event loop, whatever its schedule, settles every callback as the
    callback settles on its own, started in the world in which the loop
    starts; afterwards the world looks to every callback as it does after
    its own run, and the messages, successes and failure entries are
    those of the single runs, merged. *)
Lemma event_loop_isolated (schedule : list nat) :
  keyed (progress_map w0) ->
  exists pool w',
    event_loop schedule tasks w0 = (Returned pool, w') /\
    callbacks pool = (fun p => Settled (fst (run p w0))) <$> tasks /\
    keyed (progress_map w') /\
    (forall i F p, Fs !! i = Some F -> tasks !! i = Some p ->
                   agree F w' (snd (run p w0))) /\
    (exists merged,
        outbox w' = (outbox w0 ++ merged)%list /\
        merged ≡ₚ concat ((fun p => new_outbox w0 (snd (run p w0))) <$> tasks)) /\
    successCount w'
    = (successCount w0 +
       sum_list ((fun p => successCount (snd (run p w0)) - successCount w0) <$> tasks))%nat /\
    (exists merged,
        failedUrls w' = (failedUrls w0 ++ merged)%list /\
        merged ≡ₚ concat ((fun p => drop (length (failedUrls w0))
                                      (failedUrls (snd (run p w0)))) <$> tasks)).
Proof.
  intros Hk.
  destruct (isolated_turns schedule (mkPool tasks []) w0 _ (isolated_start Hk))
    as (pool1 & w1 & twins1 & Hrun1 & Hiso1).
  destruct (finish_each_turns (seq 0 (length tasks)) pool1 w1) as [extra Hextra].
  destruct (isolated_turns extra pool1 w1 twins1 Hiso1)
    as (pool2 & w2 & twins2 & Hrun2 & Hiso2).
  rewrite <- Hextra in Hrun2.
  destruct (finish_each_settles _ _ _ _ _ Hrun2) as (Hlen2 & _ & Hsettled).
  destruct Hiso2 as [Hk2 Hlp Hlt Heach [mo [Ho Hmo]] Hc [mf [Hf Hmf]]].
  assert (Hend : forall i p0,
             tasks !! i = Some p0 ->
             exists F x,
               Fs !! i = Some F /\ twins2 !! i = Some x /\
               callbacks pool2 !! i = Some (Settled (fst (run p0 w0))) /\
               alone_world x = snd (run p0 w0) /\
               agree F w2 (alone_world x) /\
               Moves F w0 (alone_world x) (alone_sent x) (alone_counted x)
                 (alone_failed x)).
  { intros i p0 Hp0.
    assert (Hi : (i < length tasks)%nat) by (by eapply lookup_lt_Some).
    destruct (lookup_lt_is_Some_2 Fs i) as [F HF]; [by rewrite footprints|].
    destruct (lookup_lt_is_Some_2 twins2 i) as [x Hx]; [by rewrite Hlt|].
    destruct (Hsettled i) as [o Ho'].
    { apply elem_of_seq. lia. }
    { destruct Hiso1 as [_ Hlp1 _ _ _ _ _]. by rewrite Hlp1. }
    destruct (Heach i F p0 _ x HF Hp0 Ho' Hx) as (Hsim & Hag & _ & Hrun & Hmv).
    destruct (alone_task x) as [o2|] eqn:Htask; [|done].
    destruct Hsim as [<- _]. cbn [run] in Hrun.
    exists F, x. rewrite <- Hrun. split_and!; done. }
  exists pool2, w2. split; [|split; [|split; [done|split; [|split; [|split]]]]].
  - unfold event_loop, bind. by rewrite Hrun1.
  - apply list_eq. intros i. rewrite list_lookup_fmap.
    destruct (tasks !! i) as [p0|] eqn:Hp0.
    + by destruct (Hend i p0 Hp0) as (F & x & _ & _ & -> & _).
    + apply lookup_ge_None. rewrite Hlp. by apply lookup_ge_None.
  - intros i F p HF Hp. destruct (Hend i p Hp) as (F' & x & HF' & _ & _ & <- & Hag & _).
    rewrite HF in HF'. by injection HF' as <-.
  - exists mo. split; [done|]. rewrite Hmo.
    assert (alone_sent <$> twins2
            = (fun p => new_outbox w0 (snd (run p w0))) <$> tasks) as ->; [|done].
    apply list_eq. intros i. rewrite !list_lookup_fmap.
    destruct (tasks !! i) as [p0|] eqn:Hp0.
    + destruct (Hend i p0 Hp0) as (F & x & _ & -> & _ & Hw & _ & Hmv). simpl.
      rewrite <- Hw.
      f_equal. symmetry. apply new_outbox_app. apply (moves_outbox _ _ _ _ _ _ Hmv).
    + assert (twins2 !! i = None) as ->; [|done].
      apply lookup_ge_None. rewrite Hlt. by apply lookup_ge_None.
  - rewrite Hc.
    assert (alone_counted <$> twins2
            = (fun p => successCount (snd (run p w0)) - successCount w0)%nat <$> tasks)
      as ->; [|done].
    apply list_eq. intros i. rewrite !list_lookup_fmap.
    destruct (tasks !! i) as [p0|] eqn:Hp0.
    + destruct (Hend i p0 Hp0) as (F & x & _ & -> & _ & Hw & _ & Hmv). simpl.
      rewrite <- Hw.
      f_equal. rewrite (moves_count _ _ _ _ _ _ Hmv). lia.
    + assert (twins2 !! i = None) as ->; [|done].
      apply lookup_ge_None. rewrite Hlt. by apply lookup_ge_None.
  - exists mf. split; [done|]. rewrite Hmf.
    assert (alone_failed <$> twins2
            = (fun p => drop (length (failedUrls w0)) (failedUrls (snd (run p w0))))
                <$> tasks) as ->; [|done].
    apply list_eq. intros i. rewrite !list_lookup_fmap.
    destruct (tasks !! i) as [p0|] eqn:Hp0.
    + destruct (Hend i p0 Hp0) as (F & x & _ & -> & _ & Hw & _ & Hmv). simpl.
      rewrite <- Hw.
      f_equal. rewrite (moves_failed _ _ _ _ _ _ Hmv). by rewrite drop_app_length.
    + assert (twins2 !! i = None) as ->; [|done].
      apply lookup_ge_None. rewrite Hlt. by apply lookup_ge_None.
Qed.

End Isolation.
(* ===================================================================== *)
(** * The callbacks of a [.mdl] batch *)
(* ===================================================================== *)

Lemma fmap_imap_pointwise {A B C} (T : nat -> A -> B) (G : B -> C) (h : A -> C)
    (l : list A) :
  (forall i x, l !! i = Some x -> G (T i x) = h x) ->
  G <$> imap T l = h <$> l.
Proof.
  intros H. apply list_eq. intros i.
  rewrite !list_lookup_fmap, list_lookup_imap.
  destruct (l !! i) as [x|] eqn:Hx; [|done]. simpl. f_equal. by apply H.
Qed.

Lemma concat_option_list {A B} (f : A -> option B) (l : list A) :
  concat ((fun x => option_list (f x)) <$> l) = omap f l.
Proof.
  induction l as [|x l IH]; [done|].
  cbn [fmap list_fmap concat omap list_omap]. rewrite <- IH.
  by destruct (f x).
Qed.

Lemma elem_of_concat {B} (b : B) (ls : list (list B)) :
  b ∈ concat ls <-> exists l, b ∈ l /\ l ∈ ls.
Proof.
  induction ls as [|l0 ls IH]; simpl.
  - split; [by intros H%elem_of_nil|]. by intros (l & _ & H%elem_of_nil).
  - rewrite elem_of_app, IH. split.
    + intros [H|(l & H1 & H2)].
      * exists l0. split; [done|]. by left.
      * exists l. split; [done|]. by right.
    + intros (l & H1 & [->|H2]%elem_of_cons); [by left|].
      right. by exists l.
Qed.

Lemma elem_of_concat_imap {A B} (T : nat -> A -> list B) (l : list A)
    (i : nat) (x : A) (b : B) :
  l !! i = Some x -> b ∈ T i x -> b ∈ concat (imap T l).
Proof.
  intros Hx Hb. apply elem_of_concat. exists (T i x). split; [done|].
  apply list_elem_of_lookup. exists i. by rewrite list_lookup_imap, Hx.
Qed.

Lemma undisturbed_never_aborts (u : string) (events : list Event) :
  Forall (fun ev => is_chunk ev = true) events ->
  aborted u "downloading" events = false.
Proof.
  induction 1 as [|ev rest Hev _ IH]; [done|].
  destruct ev as [chunk| |p]; [|done|done]. cbn [aborted].
  by rewrite bool_decide_eq_false_2.
Qed.

Lemma fetch_outcome_eq (cwd : string) (w : World) (job : string * Transfer) :
  keyed (progress_map w) ->
  fetch_outcome cwd w job = transfer_outcome cwd (fst job) (snd job) (disk w).
Proof.
  intros Hk. unfold fetch_outcome.
  by destruct (handleDownload_run cwd (fst job) (snd job) w Hk) as (w' & -> & _).
Qed.

Section BatchRun.

Variable cwd : string.
Variable send_outcome : Message -> option JsError.
Variable partPath : string -> nat -> string.
Variable maxPartBytes : nat.
Hypothesis socket_delivers : forall m, send_outcome m = None.
Hypothesis partPath_inj : forall source i j, partPath source i = partPath source j -> i = j.
Hypothesis part_readable : N.of_nat maxPartBytes <= kIoMaxLength.

(** What the callback of a job does when it runs on its own. *)
Lemma item_alone (total i : nat) (job : string * Transfer) (w : World) :
  keyed (progress_map w) ->
  undisturbed (snd job) ->
  deliverable cwd w job ->
  let run := mdl_item cwd send_outcome partPath maxPartBytes total i
               (fst job) (snd job) w in
  (exists report, fst run = Returned report) /\
  (successCount (snd run) - successCount w
   = if fetched cwd w job then 1 else 0)%nat /\
  drop (length (failedUrls w)) (failedUrls (snd run))
  = option_list (fetch_failure cwd w job) /\
  forall r,
    fetch_outcome cwd w job = Returned r ->
    names_destination (footprint cwd partPath job) partPath r /\
    disk (snd run) !! DownloadResult.filePath r = None /\
    exists sent,
      new_outbox w (snd run)
      = (sent ++ [confirmation total i (DownloadResult.fileName r)])%list /\
      documents sent
      = delivered_documents maxPartBytes r (body (t_events (snd job))).
Proof.
  intros Hk Hev Hread. destruct job as [u t]. cbn [fst snd] in *. cbv zeta.
  unfold fetched, fetch_failure, deliverable in *.
  rewrite (fetch_outcome_eq cwd w (u, t) Hk) in *. cbn [fst snd] in *.
  destruct (transfer_outcome cwd u t (disk w)) as [r|e|e] eqn:Hout.
  - destruct (mdl_item_success cwd send_outcome partPath maxPartBytes socket_delivers
                partPath_inj part_readable total i u t r w Hk Hout (Hread r eq_refl))
      as (w' & sent & Hrun & _ & Ho & Hdocs & Hc & Hf & Hgone & _).
    rewrite Hrun. cbn [fst snd].
    split; [by eexists|]. split; [lia|]. split.
    { by rewrite Hf, drop_ge. }
    intros r' [= <-]. split; [|split; [done|]].
    + destruct (handleDownload_run cwd u t w Hk) as (w1 & Hrun1 & _).
      rewrite Hout in Hrun1.
      destruct (successful_download cwd u t w w1 r Hk Hrun1)
        as (response & _ & Hax & _ & _ & _ & -> & _).
      apply (owns_destination cwd partPath u t response Hax).
    + exists sent. split; [|done]. by apply new_outbox_app.
  - destruct (mdl_item_failure cwd send_outcome partPath maxPartBytes socket_delivers
                total i u t e w Hk Hout)
      as (w' & Hrun & _ & Ho & Hc & Hf).
    rewrite Hrun. cbn [fst snd].
    split; [by eexists|]. split; [lia|]. split; [|done].
    by rewrite Hf, drop_app_length.
  - exfalso. unfold transfer_outcome in Hout.
    destruct (t_mkdir t); [done|]. destruct (t_axios t); [done|].
    unfold pipeline_outcome in Hout.
    rewrite (undisturbed_never_aborts u _ Hev) in Hout.
    destruct (t_open t); [by destruct (disk w !! _)|]. by destruct (t_end t).
Qed.

(** The callbacks of a batch whose jobs share neither a URL nor a file,
    in whatever order they take their turns: every callback settles with
    a report, and what it did is what it does on its own. *)
Lemma batch_settles (jobs : list (string * Transfer)) (schedule : list nat)
    (total : nat) (w : World) :
  keyed (progress_map w) ->
  apart cwd partPath jobs ->
  Forall (fun job => undisturbed (snd job)) jobs ->
  Forall (deliverable cwd w) jobs ->
  let alone i job :=
    snd (mdl_item cwd send_outcome partPath maxPartBytes total i (fst job) (snd job) w) in
  exists pool w',
    event_loop schedule
      (imap (fun i job =>
               Async.mdl_item cwd send_outcome partPath maxPartBytes total i
                 (fst job) (snd job)) jobs) w
    = (Returned pool, w') /\
    (forall i, rejection pool i = None) /\
    (exists merged,
        outbox w' = (outbox w ++ merged)%list /\
        forall i job m, jobs !! i = Some job ->
                        m ∈ new_outbox w (alone i job) -> m ∈ merged) /\
    successCount w'
    = (successCount w +
       sum_list ((fun job => if fetched cwd w job then 1 else 0) <$> jobs))%nat /\
    (exists merged,
        failedUrls w' = (failedUrls w ++ merged)%list /\
        merged ≡ₚ omap (fetch_failure cwd w) jobs) /\
    (forall i job r,
        jobs !! i = Some job -> fetch_outcome cwd w job = Returned r ->
        disk w' !! DownloadResult.filePath r = None).
Proof.
  intros Hk Hapart Hev Hread alone.
  set (tasks := imap (fun i job =>
                        Async.mdl_item cwd send_outcome partPath maxPartBytes total i
                          (fst job) (snd job)) jobs).
  assert (Htask : forall i p, tasks !! i = Some p ->
             exists job, jobs !! i = Some job /\
                         p = Async.mdl_item cwd send_outcome partPath maxPartBytes
                               total i (fst job) (snd job)).
  { intros i p Hp. unfold tasks in Hp. rewrite list_lookup_imap in Hp.
    destruct (jobs !! i) as [job|]; [|done]. injection Hp as <-. by exists job. }
  assert (Hjob : forall i job, jobs !! i = Some job ->
             undisturbed (snd job) /\ deliverable cwd w job).
  { intros i job Hi. rewrite Forall_lookup in Hev. rewrite Forall_lookup in Hread.
    split; [by apply (Hev i)|by apply (Hread i)]. }
  destruct (event_loop_isolated (footprint cwd partPath <$> jobs) tasks w) with
    (schedule := schedule) as (pool & w' & Hrun & Hpool & _ & Hag & Hout & Hcount & Hfail).
  - unfold tasks. by rewrite length_fmap, length_imap.
  - intros i j F G Hij HF HG. rewrite list_lookup_fmap in HF, HG.
    destruct (jobs !! i) as [a|] eqn:Ha; [|done].
    destruct (jobs !! j) as [b|] eqn:Hb; [|done].
    injection HF as <-. injection HG as <-. by apply (Hapart i j).
  - intros i F p HF Hp. destruct (Htask i p Hp) as (job & Hi & ->).
    rewrite list_lookup_fmap, Hi in HF. injection HF as <-.
    destruct job as [u t]. apply similar_mdl_item. by apply (Hjob i (u, t)).
  - intros i p e Hp. destruct (Htask i p Hp) as (job & Hi & ->).
    rewrite run_mdl_item. destruct (Hjob i job Hi) as [H1 H2].
    destruct (item_alone total i job w Hk H1 H2) as [[report Hr] _].
    rewrite Hr. discriminate.
  - done.
  - exists pool, w'. split; [done|]. split; [|split; [|split; [|split]]].
    + intros i. unfold rejection. rewrite Hpool, list_lookup_fmap.
      destruct (tasks !! i) as [p|] eqn:Hp; [|done]. simpl.
      destruct (Htask i p Hp) as (job & Hi & ->).
      rewrite run_mdl_item. destruct (Hjob i job Hi) as [H1 H2].
      destruct (item_alone total i job w Hk H1 H2) as [[report Hr] _].
      by rewrite Hr.
    + destruct Hout as (merged & Ho & Hperm). exists merged. split; [done|].
      intros i job m Hi Hm. rewrite Hperm.
      apply elem_of_concat. exists (new_outbox w (alone i job)). split; [done|].
      apply list_elem_of_fmap.
      exists (Async.mdl_item cwd send_outcome partPath maxPartBytes total i
                (fst job) (snd job)).
      split; [by rewrite run_mdl_item|].
      apply list_elem_of_lookup. exists i. unfold tasks.
      by rewrite list_lookup_imap, Hi.
    + rewrite Hcount. do 2 f_equal. unfold tasks. apply fmap_imap_pointwise.
      intros i job Hi. rewrite run_mdl_item. destruct (Hjob i job Hi) as [H1 H2].
      by destruct (item_alone total i job w Hk H1 H2) as (_ & -> & _).
    + destruct Hfail as (merged & Hf & Hperm). exists merged. split; [done|].
      assert ((fun p => drop (length (failedUrls w)) (failedUrls (snd (run p w))))
                <$> tasks
              = (fun job => option_list (fetch_failure cwd w job)) <$> jobs) as Heq.
      { unfold tasks. apply fmap_imap_pointwise.
        intros i job Hi. rewrite run_mdl_item. destruct (Hjob i job Hi) as [H1 H2].
        by destruct (item_alone total i job w Hk H1 H2) as (_ & _ & -> & _). }
      by rewrite Hperm, Heq, concat_option_list.
    + intros i job r Hi Hr. destruct (Hjob i job Hi) as [H1 H2].
      destruct (item_alone total i job w Hk H1 H2) as (_ & _ & _ & Hgood).
      destruct (Hgood r Hr) as ([Hown _] & Hgone & _).
      destruct (Hag i (footprint cwd partPath job)
                  (Async.mdl_item cwd send_outcome partPath maxPartBytes total i
                     (fst job) (snd job))) as [_ Hdisk].
      { by rewrite list_lookup_fmap, Hi. }
      { unfold tasks. by rewrite list_lookup_imap, Hi. }
      rewrite (Hdisk _ Hown), run_mdl_item. exact Hgone.
Qed.

End BatchRun.

(* ===================================================================== *)
(** * The [.mdl] command *)
(* ===================================================================== *)

Lemma no_rejection {A} (pool : Pool A) (order : list nat) :
  (forall i, rejection pool i = None) -> omap (rejection pool) order = [].
Proof.
  intros H. induction order as [|i rest IH]; [done|]. simpl. by rewrite H.
Qed.

Lemma elem_of_documents (d : string * Buffer) (messages : list Message) :
  d ∈ documents messages <->
  exists caption, Document (snd d) (fst d) caption ∈ messages.
Proof.
  unfold documents. rewrite list_elem_of_omap. split.
  - intros (m & Hm & Hd). destruct m as [text|document name caption|text]; try done.
    injection Hd as <-. by exists caption.
  - intros (caption & Hm). exists (Document (snd d) (fst d) caption).
    split; [done|]. by destruct d.
Qed.

Lemma documents_mono (part whole : list Message) (d : string * Buffer) :
  (forall m, m ∈ part -> m ∈ whole) -> d ∈ documents part -> d ∈ documents whole.
Proof.
  intros Hsub. rewrite !elem_of_documents. intros [caption H]. exists caption. auto.
Qed.


(** Every fetch of an undisturbed transfer resolves or rejects. *)
Lemma fetch_settles (cwd : string) (w : World) (job : string * Transfer) :
  keyed (progress_map w) -> undisturbed (snd job) ->
  (fetched cwd w job = true /\ fetch_failure cwd w job = None) \/
  (fetched cwd w job = false /\ is_Some (fetch_failure cwd w job)).
Proof.
  intros Hk Hev. unfold fetched, fetch_failure.
  rewrite (fetch_outcome_eq cwd w job Hk).
  destruct (transfer_outcome cwd (fst job) (snd job) (disk w)) as [r|e|e] eqn:Hout.
  - by left.
  - right. eauto.
  - exfalso. unfold transfer_outcome in Hout.
    destruct (t_mkdir (snd job)); [done|]. destruct (t_axios (snd job)); [done|].
    unfold pipeline_outcome in Hout.
    rewrite (undisturbed_never_aborts _ _ Hev) in Hout.
    destruct (t_open (snd job)); [by destruct (disk w !! _)|].
    by destruct (t_end (snd job)).
Qed.

Lemma every_url_is_counted (cwd : string) (w : World)
    (jobs : list (string * Transfer)) :
  keyed (progress_map w) ->
  Forall (fun job => undisturbed (snd job)) jobs ->
  (sum_list ((fun job => if fetched cwd w job then 1 else 0) <$> jobs)
   + length (omap (fetch_failure cwd w) jobs) = length jobs)%nat.
Proof.
  intros Hk. induction 1 as [|job rest Hev _ IH]; [done|].
  cbn [fmap list_fmap sum_list omap list_omap length].
  destruct (fetch_settles cwd w job Hk Hev) as [[-> ->]|[-> [x ->]]]; simpl; lia.
Qed.

Section BatchCommand.

Variable cwd : string.
Variable send_outcome : Message -> option JsError.
Variable partPath : string -> nat -> string.
Variable maxPartBytes : nat.
Hypothesis socket_delivers : forall m, send_outcome m = None.
Hypothesis partPath_inj : forall source i j, partPath source i = partPath source j -> i = j.
Hypothesis part_readable : N.of_nat maxPartBytes <= kIoMaxLength.

(** A [.mdl] command whose jobs share neither a URL nor a file, on a
    socket that delivers: whatever the schedule, it runs to its summary;
    the items whose fetch succeeds are delivered, confirmed and cleaned
    up, and the counters are those of the fetches. *)
Lemma mdl_command_run (jobs : list (string * Transfer)) (schedule : list nat)
    (w : World) :
  keyed (progress_map w) ->
  jobs <> [] ->
  apart cwd partPath jobs ->
  Forall (fun job => undisturbed (snd job)) jobs ->
  Forall (deliverable cwd w) jobs ->
  exists w' merged,
    mdl_command cwd send_outcome partPath maxPartBytes jobs schedule w
    = (Returned tt, w') /\
    outbox w' = (outbox w ++ [start_notice (fst <$> jobs)] ++ merged ++
                 [Text (summaryText (length jobs) w')])%list /\
    successCount w'
    = sum_list ((fun job => if fetched cwd w job then 1 else 0)%nat <$> jobs) /\
    failedUrls w' ≡ₚ omap (fetch_failure cwd w) jobs /\
    (forall i job r,
        jobs !! i = Some job -> fetch_outcome cwd w job = Returned r ->
        (forall d, d ∈ delivered_documents maxPartBytes r (body (t_events (snd job))) ->
                   d ∈ documents merged) /\
        confirmation (length jobs) i (DownloadResult.fileName r) ∈ merged /\
        disk w' !! DownloadResult.filePath r = None).
Proof.
  intros Hk Hne Hapart Hev Hread.
  assert (Hlen : length (fst <$> jobs) <> 0%nat).
  { rewrite length_fmap. by destruct jobs. }
  set (w0 := set_counters (add_outbox w (start_notice (fst <$> jobs))) 0 []).
  assert (Hsame : forall job, fetch_outcome cwd w0 job = fetch_outcome cwd w job).
  { intros job. by rewrite !fetch_outcome_eq. }
  assert (Hread0 : Forall (deliverable cwd w0) jobs).
  { eapply Forall_impl; [exact Hread|]. intros job Hjob r Hr. apply Hjob.
    by rewrite <- Hsame. }
  destruct (batch_settles cwd send_outcome partPath maxPartBytes socket_delivers
              partPath_inj part_readable jobs schedule (length (fst <$> jobs)) w0
              Hk Hapart Hev Hread0)
    as (pool & w1 & Hloop & Hrej & (merged & Ho & Hin) & Hc & (failed & Hf & Hperm) & Hgone).
  set (w' := add_outbox w1 (Text (summaryText (length (fst <$> jobs)) w1))).
  exists w', merged. split; [|split; [|split; [|split]]].
  - unfold mdl_command. rewrite (bool_decide_eq_false_2 _ Hlen).
    unfold bind at 1. rewrite (sendMessage_run _ socket_delivers).
    unfold bind at 1, modify. fold (start_notice (fst <$> jobs)). fold w0.
    unfold bind at 1. rewrite Hloop.
    unfold bind at 1, promise_all. rewrite (no_rejection _ _ Hrej). cbn [head ret].
    unfold bind at 1, gets. by rewrite (sendMessage_run _ socket_delivers).
  - unfold w'. cbn [outbox add_outbox]. rewrite Ho. cbn [outbox w0 set_counters add_outbox].
    rewrite length_fmap. unfold summaryText. cbn [successCount failedUrls add_outbox].
    by rewrite <- !(assoc_L (++)).
  - unfold w'. cbn [successCount add_outbox]. rewrite Hc. cbn [successCount w0 set_counters].
    rewrite Nat.add_0_l. f_equal.
    apply list_fmap_ext. intros _ job _. unfold fetched. by rewrite Hsame.
  - unfold w'. cbn [failedUrls add_outbox]. rewrite Hf. cbn [failedUrls w0 set_counters app].
    rewrite Hperm.
    assert (omap (fetch_failure cwd w0) jobs = omap (fetch_failure cwd w) jobs) as ->;
      [|done].
    apply list_omap_ext, Forall2_same_length_lookup. split; [done|].
    intros i job job' Hi Hi'. rewrite Hi in Hi'. injection Hi' as <-.
    unfold fetch_failure. by rewrite Hsame.
  - intros i job r Hi Hr. rewrite <- Hsame in Hr.
    assert (Hev_i : undisturbed (snd job)).
    { rewrite Forall_lookup in Hev. by apply (Hev i). }
    assert (Hread_i : deliverable cwd w0 job).
    { rewrite Forall_lookup in Hread0. by apply (Hread0 i). }
    destruct (item_alone cwd send_outcome partPath maxPartBytes socket_delivers
                partPath_inj part_readable (length (fst <$> jobs)) i job w0
                Hk Hev_i Hread_i) as (_ & _ & _ & Hgood).
    destruct (Hgood r Hr) as (_ & _ & sent & Hsent & Hdocs).
    rewrite length_fmap in *.
    split; [|split].
    + intros d Hd. rewrite <- Hdocs in Hd.
      eapply documents_mono; [|exact Hd]. intros m Hm.
      apply (Hin i job m Hi). rewrite Hsent. apply elem_of_app. by left.
    + apply (Hin i job _ Hi). rewrite Hsent. apply elem_of_app. right.
      by apply list_elem_of_singleton.
    + unfold w'. cbn [disk add_outbox]. by apply (Hgone i job r).
Qed.

End BatchCommand.

(* ===================================================================== *)
(** * A batch with one failed fetch *)
(* ===================================================================== *)




Lemma sample_jobs_apart : apart "/srv" decimal_partPath sample_jobs.
Proof.
  intros i j a b Hij Ha Hb.
  destruct i as [|[|i]], j as [|[|j]]; try done;
    injection Ha as <-; injection Hb as <-; (split; [done|]);
    intros p; unfold footprint; simpl; tauto.
Qed.


(* ===================================================================== *)
(** * The download records of [MemStorage] *)
(* ===================================================================== *)

Section DownloadsFacts.

Context {InsertDownload : Type}.
Implicit Types (s : Downloads.t InsertDownload) (calls : list (Downloads.Call InsertDownload)).

Lemma run_snoc calls (c : Downloads.Call InsertDownload) :
  Downloads.run (calls ++ [c]) = Downloads.step (Downloads.run calls) c.
Proof. unfold Downloads.run. by rewrite fold_left_app. Qed.

Lemma created_snoc calls (c : Downloads.Call InsertDownload) :
  Downloads.created (calls ++ [c])
  = Downloads.created calls +
    match c with Downloads.CreateDownload _ _ => 1 | _ => 0 end.
Proof.
  induction calls as [|c' rest IH]; simpl.
  - destruct c; reflexivity.
  - destruct c'; rewrite IH; lia.
Qed.

(** What every storage reached from the constructor satisfies. *)
Lemma run_invariant calls :
  Downloads.currentId (Downloads.run calls) = 1 + Downloads.created calls /\
  forall k,
    match Downloads.downloads (Downloads.run calls) !! k with
    | Some d => Downloads.id d = k /\ 1 <= k <= Downloads.created calls
    | None => k = 0 \/ Downloads.created calls < k
    end.
Proof.
  induction calls as [|c calls IH] using rev_ind.
  - split; [reflexivity|]. intros k. unfold Downloads.run. simpl.
    rewrite lookup_empty. lia.
  - rewrite run_snoc, created_snoc. destruct IH as [Hid Hdom].
    set (s := Downloads.run calls) in *.
    destruct c as [ins now|i st|i]; simpl.
    + split; [lia|]. intros k.
      destruct (decide (k = Downloads.currentId s)) as [->|Hne].
      * rewrite lookup_insert_eq. simpl. lia.
      * rewrite lookup_insert_ne by done. specialize (Hdom k).
        destruct (Downloads.downloads s !! k); lia.
    + unfold Downloads.updateDownloadStatus, Downloads.getDownload.
      destruct (Downloads.downloads s !! i) as [d|] eqn:Hi; simpl.
      * split; [lia|]. intros k.
        destruct (decide (k = i)) as [->|Hne].
        -- rewrite lookup_insert_eq. simpl. specialize (Hdom i).
           rewrite Hi in Hdom. lia.
        -- rewrite lookup_insert_ne by done. specialize (Hdom k).
           destruct (Downloads.downloads s !! k); lia.
      * split; [lia|]. intros k. specialize (Hdom k).
        destruct (Downloads.downloads s !! k); lia.
    + split; [lia|]. intros k. specialize (Hdom k).
      destruct (Downloads.downloads s !! k); lia.
Qed.

End DownloadsFacts.

(** X1: in a storage reached from the constructor by any sequence of
    calls, the ids in use are exactly 1, ..., n, where n is the number of
    [createDownload] calls so far, and every record is stored under its
    own id: no call removes a record or reuses an id. *)
Theorem download_ids_are_dense {InsertDownload : Type}
    (calls : list (Downloads.Call InsertDownload)) (k : N) :
  (is_Some (Downloads.getDownload k (Downloads.run calls))
   <-> 1 <= k <= Downloads.created calls) /\
  match Downloads.getDownload k (Downloads.run calls) with
  | Some d => Downloads.id d = k
  | None => True
  end.
Proof.
  destruct (run_invariant calls) as [_ H]. specialize (H k).
  unfold Downloads.getDownload.
  destruct (Downloads.downloads (Downloads.run calls) !! k) as [d|].
  - split; [|by destruct H]. split; [intros _; lia|eauto].
  - split; [|done]. split; [by intros [? ?]|lia].
Qed.

(** X2: on a storage reached from the constructor, [createDownload]
    returns a record in status pending under an id that was not in use,
    [getDownload] of that id then returns this record, and every other id
    reads as before. *)
Theorem createDownload_is_fresh {InsertDownload : Type}
    (calls : list (Downloads.Call InsertDownload))
    (insertDownload : InsertDownload) (now : N) :
  let s := Downloads.run calls in
  let d := fst (Downloads.createDownload insertDownload now s) in
  let s' := snd (Downloads.createDownload insertDownload now s) in
  Downloads.getDownload (Downloads.id d) s = None /\
  Downloads.getDownload (Downloads.id d) s' = Some d /\
  Downloads.status d = "pending" /\
  Downloads.insert d = insertDownload /\
  forall j, j <> Downloads.id d ->
            Downloads.getDownload j s' = Downloads.getDownload j s.
Proof.
  destruct (run_invariant calls) as [Hid H]. cbv zeta.
  unfold Downloads.createDownload, Downloads.getDownload. simpl.
  split; [|split; [|split; [|split]]]; try done.
  - specialize (H (Downloads.currentId (Downloads.run calls))).
    destruct (Downloads.downloads (Downloads.run calls) !! _); [lia|done].
  - apply lookup_insert_eq.
  - intros j Hj. by rewrite lookup_insert_ne.
Qed.

(** X3: [updateDownloadStatus] never adds or removes a record.  For an id
    that is in use it returns the record with the new status and all other
    fields as they were, and stores it; for an id that is not in use it
    returns nothing and leaves the storage as it was.  Other ids are not
    touched. *)
Theorem updateDownloadStatus_effect {InsertDownload : Type}
    (s : Downloads.t InsertDownload) (i : N) (st : string) :
  let r := fst (Downloads.updateDownloadStatus i st s) in
  let s' := snd (Downloads.updateDownloadStatus i st s) in
  dom (Downloads.downloads s') = dom (Downloads.downloads s) /\
  Downloads.currentId s' = Downloads.currentId s /\
  Downloads.getDownload i s' = r /\
  (forall j, j <> i -> Downloads.getDownload j s' = Downloads.getDownload j s) /\
  match Downloads.getDownload i s with
  | Some d =>
      r = Some (Downloads.mkDownload (Downloads.insert d) (Downloads.id d) st
                  (Downloads.filename d) (Downloads.parts d) (Downloads.createdAt d))
  | None => r = None /\ s' = s
  end.
Proof.
  cbv zeta. unfold Downloads.updateDownloadStatus, Downloads.getDownload.
  destruct (Downloads.downloads s !! i) as [d|] eqn:Hi; simpl.
  - split; [|split; [done|split; [apply lookup_insert_eq|split; [|done]]]].
    + rewrite dom_insert_L. apply subseteq_union_1_L, singleton_subseteq_l.
      apply elem_of_dom. eauto.
    + intros j Hj. by rewrite lookup_insert_ne.
  - by rewrite Hi.
Qed.
(* ===================================================================== *)
(** * The progress store, read and written *)
(* ===================================================================== *)

(** X4: a record written with [updateDownloadProgress(url, progress)] under
    its own url is the one that [getActiveDownloads().find(d => d.url ===
    url)] returns afterwards, and the search for any other url gives what
    it gave before; this holds in a store where every record sits under its
    own url. *)
Theorem written_record_is_found (m : MemStorage.t) (p : DownloadProgress) (u' : string) :
  keyed m ->
  findByUrl (url p) (updateDownloadProgress (url p) p m) = Some p /\
  (u' <> url p ->
   findByUrl u' (updateDownloadProgress (url p) p m) = findByUrl u' m).
Proof.
  intros Hk. pose proof (keyed_update m p Hk) as Hk'.
  rewrite !(findByUrl_lookup _ _ Hk'). unfold updateDownloadProgress. split.
  - apply lookup_insert_eq.
  - intros Hne. rewrite (findByUrl_lookup _ _ Hk). by apply lookup_insert_ne.
Qed.

Lemma written_record_is_found_witness :
  findByUrl (url finished_record)
    (updateDownloadProgress (url finished_record) finished_record ∅)
  = Some finished_record.
Proof.
  apply (written_record_is_found ∅ finished_record "x" keyed_empty).
Defined.

(** X5: stopping twice is stopping once, and stopping after a write is
    writing the stopped record after stopping:
    [stopAllDownloads] is idempotent and commutes with
    [updateDownloadProgress] up to the status of the written record. *)
Theorem stopAllDownloads_composes (m : MemStorage.t) (u : string) (p : DownloadProgress) :
  stopAllDownloads (stopAllDownloads m) = stopAllDownloads m /\
  stopAllDownloads (updateDownloadProgress u p m)
  = updateDownloadProgress u (with_status p "stopped") (stopAllDownloads m).
Proof.
  split.
  - apply map_eq. intros k. rewrite !stopAllDownloads_lookup.
    by destruct (m !! k).
  - rewrite !stopAllDownloads_fmap. unfold updateDownloadProgress.
    by rewrite fmap_insert.
Qed.

(** X6: the store holds one record per url: writing under a url that has a
    record replaces it and the number of records returned by
    [getActiveDownloads] stays the same; writing under a new url adds
    exactly one.  [stopAllDownloads] never changes that number. *)
Theorem one_record_per_url (m : MemStorage.t) (u : string) (p : DownloadProgress) :
  length (getActiveDownloads (updateDownloadProgress u p m))
  = (if bool_decide (is_Some (m !! u))
     then length (getActiveDownloads m)
     else S (length (getActiveDownloads m))) /\
  length (getActiveDownloads (stopAllDownloads m)) = length (getActiveDownloads m).
Proof.
  unfold getActiveDownloads, updateDownloadProgress.
  rewrite !length_fmap, !length_map_to_list. split.
  - case_bool_decide as H.
    + by apply map_size_insert_Some.
    + apply map_size_insert_None. by apply eq_None_not_Some.
  - rewrite stopAllDownloads_fmap. apply map_size_fmap.
Qed.
(* ===================================================================== *)
(** * What a transfer writes to disk *)
(* ===================================================================== *)

(** X7: when [handleDownload] succeeds, the file at the returned
    [filePath] holds exactly the bytes of the chunks of the body, in
    order of arrival, whatever was at that path before; its length is the
    number of bytes received, and no other file on disk has changed. *)
Theorem downloaded_file_is_the_body
    (cwd u : string) (t : Transfer) (w w' : World) (r : DownloadResult.t) :
  keyed (progress_map w) ->
  handleDownload cwd u t w = (Returned r, w') ->
  disk w' !! DownloadResult.filePath r = Some (body (t_events t)) /\
  buffer_length (body (t_events t)) = received (t_events t) /\
  forall p, p <> DownloadResult.filePath r -> disk w' !! p = disk w !! p.
Proof.
  intros Hk Hrun.
  destruct (successful_download_on_disk cwd u t w w' r Hk Hrun) as [Hfile Hother].
  split; [exact Hfile|]. split; [apply body_length|exact Hother].
Qed.

Lemma downloaded_file_is_the_body_witness :
  exists w',
    handleDownload "/srv" sample_url plain_transfer small_world
    = (Returned small_result, w') /\
    disk w' !! DownloadResult.filePath small_result
    = Some (body (t_events plain_transfer)).
Proof.
  eexists. split; [vm_compute; reflexivity|].
  refine (proj1 (downloaded_file_is_the_body "/srv" sample_url plain_transfer
                   small_world _ small_result _ _)).
  - intros k p H. vm_compute in H. discriminate.
  - vm_compute. reflexivity.
Defined.

(** X8: when [stopAllDownloads] runs during a transfer that has not been
    stopped before and whose writer has opened the destination, and a
    further chunk arrives, the partial file that is left holds a prefix
    of the chunks that arrived before the stop, as many bytes of them as
    the writer had flushed; the chunk that finds the record stopped is not
    written. *)
Theorem stopped_transfer_leaves_partial_file
    (cwd u : string) (t : Transfer) (w : World) (response : Response)
    (pre post : list Event) (chunk : Buffer) :
  keyed (progress_map w) ->
  t_mkdir t = None ->
  t_axios t = inr response ->
  t_open t = None ->
  t_events t = (pre ++ StopAll :: Data chunk :: post)%list ->
  aborted u "downloading" pre = false ->
  let fp := destination cwd (resolveFileName u (content_disposition response)) in
  disk (snd (handleDownload cwd u t w)) !! fp
  = Some (take (t_flushed t) (body pre)) /\
  (take (t_flushed t) (body pre)) `prefix_of` body pre.
Proof.
  intros Hk Hmk Hax Hop Hev Hpre fp.
  destruct (handleDownload_run cwd u t w Hk) as (w' & Hrun & _ & _ & _ & _ & Hcase).
  rewrite Hrun, Hmk, Hax, Hop in *. cbv zeta in Hcase. destruct Hcase as [Hdisk _].
  cbn [snd]. rewrite Hdisk. cbn [fileName first_record]. fold fp.
  rewrite lookup_insert_eq. unfold file_after, pipeline_outcome.
  assert (Hab : aborted u "downloading" (t_events t) = true).
  { rewrite Hev. clear -Hpre. revert Hpre. generalize "downloading".
    induction pre as [|ev pre IH]; intros st Hpre; [done|].
    destruct ev as [c| |p]; cbn [app aborted] in *.
    - destruct (bool_decide (st = "stopped")); [done|]. by apply IH.
    - by apply IH.
    - by apply IH. }
  rewrite Hab. cbn [file_content]. rewrite Hev, (written_until_stop _ _ _ _ _ Hpre).
  split; [reflexivity|]. apply prefix_take.
Qed.

Lemma stopped_transfer_leaves_partial_file_witness :
  disk (snd (handleDownload "/srv" sample_url cancelled_transfer world0))
    !! destination "/srv" (resolveFileName sample_url None)
  = Some (take (t_flushed cancelled_transfer) (body [Data bytes5])) /\
  (take (t_flushed cancelled_transfer) (body [Data bytes5]))
    `prefix_of` body [Data bytes5].
Proof.
  apply (stopped_transfer_leaves_partial_file "/srv" sample_url cancelled_transfer
           world0 (mkResponse None (Some 10)) [Data bytes5] [] bytes5).
  - apply keyed_empty.
  - reflexivity.
  - reflexivity.
  - reflexivity.
  - reflexivity.
  - reflexivity.
Defined.


(* ===================================================================== *)
(** * The file name of a transfer *)
(* ===================================================================== *)

Lemma has_quote_unquoted_run (s : string) : has_quote (unquoted_run s) = false.
Proof.
  induction s as [|c r IH]; [done|]. simpl.
  destruct (Ascii.eqb c quote) eqn:E; [done|]. simpl. by rewrite E.
Qed.

Lemma unquoted_run_closed (n rest : string) :
  has_quote n = false -> unquoted_run (n +:+ String quote rest) = n.
Proof.
  induction n as [|c r IH]; intros Hq.
  - done.
  - simpl in Hq. apply orb_false_elim in Hq as [Hc Hr].
    change (String c r +:+ String quote rest) with (String c (r +:+ String quote rest)).
    simpl. rewrite Hc. by rewrite IH.
Qed.

Lemma match_filename_at_group (s g : string) :
  match_filename_at s = Some g -> g <> "" /\ has_quote g = false.
Proof.
  unfold match_filename_at. destruct (strip_prefix "filename=" s) as [[|c r]|]; try done.
  destruct (Ascii.eqb c quote) eqn:Ec.
  - destruct r as [|c' r']; [done|].
    destruct (Ascii.eqb c' quote) eqn:Ec'; [done|]. intros [= <-].
    split; [|apply (has_quote_unquoted_run (String c' r'))]. simpl. by rewrite Ec'.
  - intros [= <-]. split; [|apply (has_quote_unquoted_run (String c r))].
    simpl. by rewrite Ec.
Qed.

(** X9: a name that the regular expression takes from a
    [Content-Disposition] header is never empty and holds no double
    quote. *)
Theorem match_filename_group (header g : string) :
  match_filename header = Some g -> g <> "" /\ has_quote g = false.
Proof.
  induction header as [|c r IH]; cbn [match_filename].
  - destruct (match_filename_at "") eqn:E; [|done].
    intros [= <-]. by apply (match_filename_at_group "").
  - destruct (match_filename_at (String c r)) eqn:E.
    + intros [= <-]. by apply (match_filename_at_group (String c r)).
    + exact IH.
Qed.

Lemma match_filename_group_witness :
  match_filename (attachment_header "a.bin") = Some "a.bin" /\
  "a.bin" <> "" /\ has_quote "a.bin" = false.
Proof.
  split; [reflexivity|].
  apply (match_filename_group (attachment_header "a.bin") "a.bin"). reflexivity.
Defined.

Lemma unquoted_run_all (n : string) : has_quote n = false -> unquoted_run n = n.
Proof.
  induction n as [|c r IH]; intros Hq; [done|].
  simpl in Hq. apply orb_false_elim in Hq as [Hc Hr].
  simpl. rewrite Hc. by rewrite IH.
Qed.

(** X10: a non-empty file name without a double quote, sent as
    [attachment; filename=QUOTE name QUOTE], is the name under which the
    download is stored, whatever the URL.  Sent without the quotes, the
    name is everything that follows [filename=], to the end of the
    header. *)
Theorem header_names_the_file (u n : string) :
  n <> "" -> has_quote n = false ->
  resolveFileName u (Some (attachment_header n)) = n /\
  resolveFileName u (Some ("attachment; filename=" +:+ n)) = n.
Proof.
  intros Hne Hq. unfold resolveFileName, attachment_header.
  destruct n as [|c r]; [done|].
  simpl in Hq. apply orb_false_elim in Hq as [Hc Hr]. split.
  - set (tail := String quote (String c r +:+ String quote "")).
    cbv [append]. rewrite bool_decide_eq_false_2 by done.
    assert (Hat : match_filename_at ("filename=" +:+ tail) = Some (String c r)).
    { unfold match_filename_at. cbv [append]. simpl. unfold tail.
      change (String c r +:+ String quote "") with (String c (r +:+ String quote "")).
      rewrite Hc. do 2 f_equal. by apply unquoted_run_closed. }
    cbv [append] in Hat. simpl. rewrite Hat. reflexivity.
  - set (tail := String c r).
    cbv [append]. rewrite bool_decide_eq_false_2 by done.
    assert (Hat : match_filename_at ("filename=" +:+ tail) = Some (String c r)).
    { unfold match_filename_at. cbv [append]. simpl. unfold tail.
      rewrite Hc. do 2 f_equal. by apply unquoted_run_all. }
    cbv [append] in Hat. simpl. rewrite Hat. reflexivity.
Qed.

Lemma header_names_the_file_witness :
  resolveFileName sample_url (Some (attachment_header "a b.bin")) = "a b.bin" /\
  resolveFileName sample_url (Some "attachment; filename=a.bin; size=5")
  = "a.bin; size=5".
Proof.
  split.
  - apply (header_names_the_file sample_url "a b.bin"); [discriminate|reflexivity].
  - apply (header_names_the_file sample_url "a.bin; size=5");
      [discriminate|reflexivity].
Defined.

Section BasenameFacts.

Import Path.

Lemma has_slash_of_list (l : list ascii) :
  has_slash (string_of_list_ascii l) = false <-> Forall (fun c => Ascii.eqb c slash = false) l.
Proof.
  induction l as [|c l IH]; simpl.
  - split; [constructor|done].
  - rewrite orb_false_iff, IH, Forall_cons. reflexivity.
Qed.

Lemma take_segment_no_slash (l : list ascii) :
  Forall (fun c => Ascii.eqb c slash = false) (take_segment l).
Proof.
  induction l as [|c l IH]; simpl; [constructor|].
  destruct (Ascii.eqb c slash) eqn:E; [constructor|]. by constructor.
Qed.

Lemma take_segment_app (l r : list ascii) :
  Forall (fun c => Ascii.eqb c slash = false) l ->
  take_segment r = [] ->
  take_segment (l ++ r) = l.
Proof.
  intros Hl Hr. induction Hl as [|c l Hc Hl IH]; simpl; [done|].
  rewrite Hc. by rewrite IH.
Qed.

Lemma list_ascii_app (a b : string) :
  list_ascii_of_string (a +:+ b) = (list_ascii_of_string a ++ list_ascii_of_string b)%list.
Proof.
  induction a as [|c a IH]; [done|].
  change (String c a +:+ b) with (String c (a +:+ b)). simpl. by rewrite IH.
Qed.

Lemma join_prefix_shape (a : string) :
  join_prefix a = "" \/ exists p, join_prefix a = p +:+ "/".
Proof.
  unfold join_prefix. destruct (bool_decide (a = "")); [by left|].
  cbv zeta.
  destruct (fold_left _ _ _) as [|s stack].
  - destruct (starts_with_slash a); [right; by exists ""|by left].
  - right. eexists. by rewrite app_assoc_s.
Qed.

(** X11: [path.basename] never returns a name with a slash in it. *)
Theorem basename_has_no_slash (p : string) : has_slash (basename p) = false.
Proof.
  unfold basename. apply has_slash_of_list, Forall_rev, take_segment_no_slash.
Qed.

(** X12: the file name can be read back from the destination path: for a
    name that is a single path segment, [path.basename] of
    [path.join(DOWNLOAD_DIR, name)] is the name. *)
Theorem basename_of_destination (cwd n : string) :
  plain_name n = true -> basename (destination cwd n) = n.
Proof.
  intros Hp. unfold destination. rewrite (join_plain _ _ Hp).
  pose proof (plain_name_nonempty n Hp) as Hne.
  pose proof (plain_name_no_slash n Hp) as Hns.
  assert (Hl : Forall (fun c => Ascii.eqb c slash = false) (list_ascii_of_string n)).
  { apply has_slash_of_list. by rewrite string_of_list_ascii_of_string. }
  assert (Hr : Forall (fun c => Ascii.eqb c slash = false) (rev (list_ascii_of_string n))).
  { by apply Forall_rev. }
  assert (Hdrop : forall r, drop_slashes (rev (list_ascii_of_string n) ++ r)
                            = (rev (list_ascii_of_string n) ++ r)%list).
  { intros r. destruct (rev (list_ascii_of_string n)) as [|c l] eqn:E.
    - apply (f_equal (@rev ascii)) in E. rewrite rev_involutive in E. simpl in E.
      destruct n; done.
    - apply Forall_cons in Hr as [Hc _]. simpl. by rewrite Hc. }
  unfold basename. rewrite list_ascii_app, rev_app_distr, Hdrop.
  rewrite take_segment_app; [|exact Hr|].
  - by rewrite rev_involutive, string_of_list_ascii_of_string.
  - destruct (join_prefix_shape (DOWNLOAD_DIR cwd)) as [->|[p ->]]; [done|].
    rewrite list_ascii_app, rev_app_distr. reflexivity.
Qed.

Lemma basename_of_destination_witness :
  basename (destination "/srv" "f.bin") = "f.bin".
Proof. apply (basename_of_destination "/srv" "f.bin"). reflexivity. Defined.

End BasenameFacts.
(* ===================================================================== *)
(** * Stopping one transfer, and what stays in the store *)
(* ===================================================================== *)

Lemma aborted_prefix (u : string) (pre rest : list Event) :
  (forall st, aborted u st rest = true) ->
  forall st, aborted u st (pre ++ rest) = true.
Proof.
  intros Hrest. induction pre as [|ev pre IH]; intros st; [apply Hrest|].
  destruct ev as [c| |p]; cbn [app aborted]; [|apply IH|apply IH].
  destruct (bool_decide (st = "stopped")); [done|apply IH].
Qed.

Lemma aborted_leaves_stopped_any (u : string) (progress : DownloadProgress)
    (events : list Event) :
  forall (n : N) (cur : DownloadProgress),
    aborted u (status cur) events = true ->
    status (default cur (last (trace u progress n cur events))) = "stopped".
Proof.
  induction events as [|ev rest IH]; intros n cur Hab; [done|].
  destruct ev as [chunk| |p]; cbn [trace aborted] in *.
  - case_bool_decide as Hs; [done|].
    rewrite default_last_cons. by apply IH.
  - rewrite default_last_cons. by apply IH.
  - rewrite default_last_cons. apply IH.
    by destruct (bool_decide (url p = u)).
Qed.

(** X13: a transfer is stopped by any write that leaves its record
    stopped, not only by [stopAllDownloads]: when another actor stores a
    record with status stopped under the URL and a further chunk arrives,
    with nobody rewriting that record in between, the ['data'] listener
    throws [Download stopped by user] at that chunk, which no handler of
    [handleDownload] catches, and the record is left stopped. *)
Theorem stopped_record_aborts_transfer
    (cwd u : string) (t : Transfer) (w : World) (response : Response)
    (p : DownloadProgress) (pre mid post : list Event) (chunk : Buffer) :
  keyed (progress_map w) ->
  t_mkdir t = None ->
  t_axios t = inr response ->
  t_events t = (pre ++ OtherWrite p :: mid ++ Data chunk :: post)%list ->
  url p = u -> status p = "stopped" ->
  Forall (foreign u) mid ->
  exists w' q,
    handleDownload cwd u t w = (Exited (Error "Download stopped by user"), w') /\
    progress_map w' !! u = Some q /\ status q = "stopped".
Proof.
  intros Hk Hmk Hax Hev Hu Hst Hmid.
  assert (Hab : aborted u "downloading" (t_events t) = true).
  { rewrite Hev. apply aborted_prefix. intros st. cbn [aborted].
    rewrite (bool_decide_eq_true_2 _ Hu), Hst. by apply aborted_after_stop. }
  destruct (handleDownload_run cwd u t w Hk) as (w' & Hrun & _ & _ & _ & _ & Hrest).
  rewrite Hmk, Hax in Hrest. cbv zeta in Hrest. destruct Hrest as (_ & _ & Hrest).
  unfold transfer_outcome in Hrun. rewrite Hmk, Hax in Hrun.
  unfold pipeline_outcome in *. rewrite Hab in *. destruct Hrest as [_ Hlast].
  eexists w', _. split; [exact Hrun|].
  split; [exact Hlast|].
  by apply aborted_leaves_stopped_any.
Qed.

Lemma stopped_record_aborts_transfer_witness :
  exists w' q,
    handleDownload "/srv" sample_url
      (mkTransfer None (inr (mkResponse None (Some 10))) 0 None
         [Data bytes5;
          OtherWrite (mkProgress "x" 10 5 "stopped" sample_url 0);
          Data bytes5] None 5) world0
    = (Exited (Error "Download stopped by user"), w') /\
    progress_map w' !! sample_url = Some q /\ status q = "stopped".
Proof.
  apply (stopped_record_aborts_transfer "/srv" sample_url _ world0
           (mkResponse None (Some 10))
           (mkProgress "x" 10 5 "stopped" sample_url 0)
           [Data bytes5] [] [] bytes5).
  - apply keyed_empty.
  - reflexivity.
  - reflexivity.
  - reflexivity.
  - reflexivity.
  - reflexivity.
  - constructor.
Defined.

Lemma grows_with (A B C : gset string) (u : string) :
  A ∪ {[u]} ⊆ B -> B ⊆ C -> A ⊆ C /\ u ∈ C.
Proof.
  intros H1 H2. split.
  - etrans; [apply union_subseteq_l|]. etrans; [exact H1|exact H2].
  - apply (proj1 (elem_of_subseteq _ _) H2), (proj1 (elem_of_subseteq _ _) H1).
    apply elem_of_union_r, elem_of_singleton. reflexivity.
Qed.

(** X14: [handleDownload] never removes a record from the progress store:
    however the call ends, every URL that had a record before still has
    one afterwards, and once the response has arrived the URL of the call
    has one too. *)
Theorem handleDownload_keeps_every_record
    (cwd u : string) (t : Transfer) (w : World) :
  let w' := snd (handleDownload cwd u t w) in
  dom (progress_map w) ⊆ dom (progress_map w') /\
  (t_mkdir t = None -> (exists response, t_axios t = inr response) ->
   u ∈ dom (progress_map w')).
Proof.
  cbv zeta. destruct (handleDownload cwd u t w) as [r w'] eqn:Hall. cbn [snd].
  revert Hall. unfold handleDownload.
  destruct (t_mkdir t) as [e|].
  { run_js. intros [= <- <-]. split; [done|]. done. }
  destruct (t_axios t) as [e|response].
  { run_js. intros [= <- <-]. split; [done|]. by intros _ [? ?]. }
  set (progress := first_record u t response).
  set (fp := destination cwd (resolveFileName u (content_disposition response))).
  set (writer := mkWriter fp (t_open t) (t_flushed t)).
  destruct (createWriteStream writer w) as [o wd] eqn:Hcw.
  assert (Hwd : o = Returned tt /\ progress_map wd = progress_map w).
  { revert Hcw. unfold createWriteStream, modify, ret. cbn [writer_open writer].
    destruct (t_open t); by intros [= <- <-]. }
  destruct Hwd as [-> Hwd].
  set (w0 := set_store wd (updateDownloadProgress u progress (progress_map wd))).
  destruct (pipeline u progress writer 0 [] (t_events t) (t_end t) w0) as [res w1] eqn:Hrun.
  destruct (pipeline_frame u progress fp (t_open t) (t_flushed t) (t_end t)
              (t_events t) 0 [] w0 res w1 Hrun) as (_ & _ & _ & Hd).
  assert (H0 : dom (progress_map w) ∪ {[u]} ⊆ dom (progress_map w1)).
  { etrans; [|exact Hd]. simpl. unfold updateDownloadProgress.
    rewrite dom_insert, Hwd.
    apply union_least; [apply union_subseteq_r|apply union_subseteq_l]. }
  unfold try_catch at 1, bind at 1, mkdir, ret.
  unfold bind at 1, axios, ret. cbv beta iota zeta.
  change (first_record u t response) with progress.
  change (mkProgress _ _ _ _ _ _) with progress.
  change (resolveFileName u (content_disposition response)) with (fileName progress).
  change (destination cwd (fileName progress)) with fp. fold writer.
  unfold bind at 1. rewrite Hcw.
  unfold bind at 1, store_update at 1, modify. fold w0.
  unfold bind at 1, try_catch at 1.
  rewrite Hrun. destruct res as [[]|e|e].
  - run_js. intros [= <- <-]. simpl. unfold updateDownloadProgress.
    rewrite dom_insert.
    destruct (grows_with _ _ ({[u]} ∪ dom (progress_map w1)) u H0); auto.
    apply union_subseteq_r.
  - unfold bind at 1, existsSync at 1, gets. cbv beta iota.
    destruct (bool_decide _); run_js; intros [= <- <-]; simpl;
      destruct (grows_with _ _ _ u H0 (reflexivity _)); auto.
  - run_js. intros [= <- <-]. simpl.
    destruct (grows_with _ _ _ u H0 (reflexivity _)); auto.
Qed.

Lemma handleDownload_keeps_every_record_witness :
  sample_url ∈ dom (progress_map (snd (handleDownload "/srv" sample_url broken_transfer world0))).
Proof.
  apply (handleDownload_keeps_every_record "/srv" sample_url broken_transfer world0).
  - reflexivity.
  - eexists. reflexivity.
Defined.
(* ===================================================================== *)
(** * The [.dl] command *)
(* ===================================================================== *)

Section DlCommand.

Variable cwd : string.
Variable send_outcome : Message -> option JsError.
Variable partPath : string -> nat -> string.
Variable maxPartBytes : nat.

Hypothesis socket_delivers : forall m, send_outcome m = None.

(** X16: when the download of a [.dl] command fails, the user gets the
    failure reaction and one text with the message of the error, which
    starts with [Failed to download file: ]; no document is sent. *)
Theorem dl_command_reports_failure (u : string) (t : Transfer) (w : World)
    (e : JsError) :
  keyed (progress_map w) ->
  transfer_outcome cwd u t (disk w) = Thrown e ->
  exists cause w',
    dl_command cwd send_outcome partPath maxPartBytes u t w = (Returned tt, w') /\
    e = wrapped cause /\
    new_outbox w w' = [React "⬇️"; React "💔";
                       Text ("❌ *Error:* Failed to download file: "
                               +:+ err_message cause)].
Proof.
  intros Hk Hout.
  assert (Hcause : exists cause, e = wrapped cause).
  { unfold transfer_outcome in Hout.
    destruct (t_mkdir t) as [c|]; [injection Hout as <-; by eexists|].
    destruct (t_axios t) as [c|response]; [injection Hout as <-; by eexists|].
    destruct (pipeline_outcome _ _ _ _ _) as [[]|c|c]; [done| |done].
    destruct (t_open t); [destruct (disk w !! _)|]; injection Hout as <-;
      by eexists. }
  destruct Hcause as [cause ->]. exists cause.
  set (wa := add_outbox w (React "⬇️")).
  destruct (handleDownload_run cwd u t wa Hk) as (w1 & Hrun & _ & Ho1 & _).
  change (disk wa) with (disk w) in Hrun. rewrite Hout in Hrun.
  eexists. split; [|split; [reflexivity|]].
  - unfold dl_command, try_catch. unfold bind at 1.
    rewrite (sendMessage_run _ socket_delivers). fold wa.
    unfold bind at 1. rewrite Hrun.
    unfold bind at 1, log, modify. unfold bind at 1.
    rewrite !(sendMessage_run _ socket_delivers). reflexivity.
  - apply new_outbox_app. simpl. rewrite Ho1. simpl.
    by rewrite <- !(assoc_L (++)).
Qed.

(** X17: a [.dl] command whose download succeeds with a fileSize of at
    most 2 GiB and a body of at most 2^31 - 1 bytes, what [fs.readFile]
    reads, sends, between the reactions, one document that holds exactly
    the bytes received, under the resolved file name; afterwards the
    downloaded file is gone from disk and no other file has changed. *)
Theorem dl_command_delivers_the_body (u : string) (t : Transfer) (w : World)
    (r : DownloadResult.t) :
  keyed (progress_map w) ->
  transfer_outcome cwd u t (disk w) = Returned r ->
  DownloadResult.fileSize r <= SPLIT_THRESHOLD ->
  buffer_length (body (t_events t)) <= kIoMaxLength ->
  exists w',
    dl_command cwd send_outcome partPath maxPartBytes u t w = (Returned tt, w') /\
    new_outbox w w' = [React "⬇️"; React "⬆️";
                       Document (body (t_events t)) (DownloadResult.fileName r)
                         (caption_whole (DownloadResult.fileName r));
                       React "✅"] /\
    disk w' !! DownloadResult.filePath r = None /\
    forall p, p <> DownloadResult.filePath r -> disk w' !! p = disk w !! p.
Proof.
  intros Hk Hout Hsmall Hsize. apply N.ltb_ge in Hsmall.
  set (wa := add_outbox w (React "⬇️")).
  destruct (handleDownload_run cwd u t wa Hk) as (w1 & Hrun & _ & Ho1 & _).
  change (disk wa) with (disk w) in Hrun. rewrite Hout in Hrun.
  destruct (successful_download_on_disk cwd u t wa w1 r Hk Hrun) as [Hfile Hother].
  set (doc := Document (body (t_events t)) (DownloadResult.fileName r)
                (caption_whole (DownloadResult.fileName r))).
  eexists. split; [|split; [|split]].
  - unfold dl_command, try_catch. unfold bind at 1.
    rewrite (sendMessage_run _ socket_delivers). fold wa.
    unfold bind at 1. rewrite Hrun.
    unfold bind at 1, dl_deliver. rewrite Hsmall.
    unfold bind at 1. rewrite (sendMessage_run _ socket_delivers).
    unfold bind at 1.
    rewrite (readFile_run _ _ (add_outbox w1 (React "⬆️")) Hfile Hsize).
    rewrite (sendMessage_run _ socket_delivers). fold doc.
    unfold bind at 1, cleanup, bind at 1, existsSync, gets.
    cbn [disk add_outbox]. rewrite bool_decide_eq_true_2 by (rewrite Hfile; eauto).
    unfold bind at 1, unlink. cbn [disk add_outbox]. rewrite Hfile.
    unfold log, modify. rewrite (sendMessage_run _ socket_delivers). reflexivity.
  - apply new_outbox_app. simpl. rewrite Ho1. simpl.
    by rewrite <- !(assoc_L (++)).
  - simpl. apply lookup_delete_eq.
  - intros p Hp. simpl. rewrite lookup_delete_ne by done. by rewrite Hother.
Qed.

End DlCommand.

Lemma dl_command_reports_failure_witness :
  exists cause w',
    dl_command "/srv" reliable_socket decimal_partPath 1024
      sample_url refused_transfer world0 = (Returned tt, w') /\
    wrapped (Error "connect ECONNREFUSED") = wrapped cause /\
    new_outbox world0 w' = [React "⬇️"; React "💔";
                            Text ("❌ *Error:* Failed to download file: "
                                    +:+ err_message cause)].
Proof.
  apply (dl_command_reports_failure "/srv" reliable_socket decimal_partPath 1024).
  - reflexivity.
  - apply keyed_empty.
  - reflexivity.
Defined.

Lemma dl_command_delivers_the_body_witness :
  exists w',
    dl_command "/srv" reliable_socket decimal_partPath 1024
      sample_url plain_transfer world0 = (Returned tt, w') /\
    new_outbox world0 w' = [React "⬇️"; React "⬆️";
                            Document (body (t_events plain_transfer))
                              (DownloadResult.fileName small_result)
                              (caption_whole (DownloadResult.fileName small_result));
                            React "✅"] /\
    disk w' !! DownloadResult.filePath small_result = None /\
    forall p, p <> DownloadResult.filePath small_result ->
              disk w' !! p = disk world0 !! p.
Proof.
  apply (dl_command_delivers_the_body "/srv" reliable_socket decimal_partPath 1024).
  - reflexivity.
  - apply keyed_empty.
  - reflexivity.
  - unfold SPLIT_THRESHOLD. simpl. lia.
  - by vm_compute.
Defined.
(* ===================================================================== *)
(** * The [.mdl] command: accounting *)
(* ===================================================================== *)

(** X19: in the [.mdl] callback the confirmation is sent inside the [try]
    block, after [successCount++]: when a file with a fileSize of at most
    2 GiB and a body of at most 2^31 - 1 bytes, what [fs.readFile] reads,
    is downloaded, delivered and cleaned up but the socket refuses the
    confirmation text, the item is counted as a success and recorded as a
    failure at once, with the message of the socket's error. *)
Theorem refused_confirmation_counts_twice
    (cwd : string) (send_outcome : Message -> option JsError)
    (partPath : string -> nat -> string) (maxPartBytes : nat)
    (total i : nat) (u : string) (t : Transfer) (r : DownloadResult.t)
    (e : JsError) (w : World) :
  keyed (progress_map w) ->
  fetch_outcome cwd w (u, t) = Returned r ->
  DownloadResult.fileSize r <= SPLIT_THRESHOLD ->
  buffer_length (body (t_events t)) <= kIoMaxLength ->
  send_outcome (Document (body (t_events t)) (DownloadResult.fileName r)
                  (caption_whole (DownloadResult.fileName r))) = None ->
  send_outcome (confirmation total i (DownloadResult.fileName r)) = Some e ->
  send_outcome (failure_notice total i u (err_message e)) = None ->
  exists w',
    mdl_item cwd send_outcome partPath maxPartBytes total i u t w
    = (Returned (mkReport false u (Some (err_message e))), w') /\
    successCount w' = S (successCount w) /\
    failedUrls w' = (failedUrls w ++ [(u, err_message e)])%list /\
    documents (new_outbox w w') = [(DownloadResult.fileName r, body (t_events t))] /\
    disk w' !! DownloadResult.filePath r = None.
Proof.
  intros Hk Hout Hsmall Hsize Hdoc Hconf Hnote. apply N.ltb_ge in Hsmall.
  unfold fetch_outcome in Hout. cbn [fst snd] in Hout.
  destruct (handleDownload_run cwd u t w Hk) as (w1 & Hrun & _ & Ho1 & Hc1 & Hf1 & _).
  rewrite Hrun in Hout. cbn [fst] in Hout. rewrite Hout in Hrun.
  destruct (successful_download_on_disk cwd u t w w1 r Hk Hrun) as [Hfile _].
  unfold confirmation in Hconf. unfold failure_notice in Hnote.
  eexists. split; [|split; [|split; [|split]]].
  - unfold mdl_item, try_catch. unfold bind at 1. rewrite Hrun.
    unfold bind at 1, mdl_deliver. rewrite Hsmall.
    unfold bind at 1. rewrite (readFile_run _ _ _ Hfile Hsize).
    unfold sendMessage at 1. rewrite Hdoc.
    unfold bind at 1, cleanup, bind at 1, existsSync, gets.
    cbn [disk add_outbox]. rewrite bool_decide_eq_true_2 by (rewrite Hfile; eauto).
    unfold bind at 1, unlink. cbn [disk add_outbox]. rewrite Hfile.
    unfold log, modify.
    unfold bind at 1, incr_successCount, modify.
    unfold bind at 1, sendMessage at 1. rewrite Hconf.
    unfold bind at 1. unfold bind at 1, push_failedUrls, modify.
    unfold bind at 1, sendMessage. rewrite Hnote. unfold ret. reflexivity.
  - simpl. by rewrite Hc1.
  - simpl. by rewrite Hf1.
  - rewrite (new_outbox_app w _
               [Document (body (t_events t)) (DownloadResult.fileName r)
                  (caption_whole (DownloadResult.fileName r));
                Text ("❌ Failed to download (" +:+ pretty (i + 1)%nat +:+ "/"
                        +:+ pretty total +:+ "): " +:+ u +:+ nl +:+ "Error: "
                        +:+ err_message e)]).
    + reflexivity.
    + simpl. rewrite Ho1. by rewrite <- (assoc_L (++)).
  - simpl. apply lookup_delete_eq.
Qed.

Lemma refused_confirmation_counts_twice_witness :
  exists w',
    mdl_item "/srv" unconfirming_socket decimal_partPath 1024 1 0
      sample_url plain_transfer world0
    = (Returned (mkReport false sample_url (Some "Connection Closed")), w') /\
    successCount w' = 1%nat /\
    failedUrls w' = [(sample_url, "Connection Closed")] /\
    documents (new_outbox world0 w') = [("f.bin", bytes5)] /\
    disk w' !! "/srv/downloads/f.bin" = None.
Proof.
  apply (refused_confirmation_counts_twice "/srv" unconfirming_socket decimal_partPath
           1024 1 0 sample_url plain_transfer small_result
           (Error "Connection Closed") world0).
  - apply keyed_empty.
  - reflexivity.
  - unfold SPLIT_THRESHOLD. simpl. lia.
  - by vm_compute.
  - reflexivity.
  - reflexivity.
  - reflexivity.
Defined.

(** X18: on a socket that delivers, a batch of any N >= 1 URLs whose
    jobs have different URLs and share no file, whose transfers nobody
    else disturbs in the progress store, and whose files, where they are
    read whole, have at most 2^31 - 1 bytes: whatever the number of
    failed fetches and whatever turns the event loop gives the callbacks,
    the batch runs to its summary; the counters restart from zero, the
    failure entries are those of the failed fetches, in some order, and
    successCount plus the number of failure entries is N. *)
Theorem batch_accounts_for_every_url
    (cwd : string) (send_outcome : Message -> option JsError)
    (partPath : string -> nat -> string) (maxPartBytes : nat)
    (jobs : list (string * Transfer)) (schedule : list nat) (w : World) :
  (forall m, send_outcome m = None) ->
  (forall source i j, partPath source i = partPath source j -> i = j) ->
  N.of_nat maxPartBytes <= kIoMaxLength ->
  keyed (progress_map w) ->
  jobs <> [] ->
  apart cwd partPath jobs ->
  Forall (fun job => undisturbed (snd job)) jobs ->
  Forall (deliverable cwd w) jobs ->
  exists w',
    mdl_command cwd send_outcome partPath maxPartBytes jobs schedule w
    = (Returned tt, w') /\
    failedUrls w' ≡ₚ omap (fetch_failure cwd w) jobs /\
    (successCount w' + length (failedUrls w') = length jobs)%nat /\
    last (outbox w') = Some (Text (summaryText (length jobs) w')).
Proof.
  intros Hsend Hinj Hpart Hk Hne Hapart Hev Hread.
  destruct (mdl_command_run cwd send_outcome partPath maxPartBytes Hsend Hinj Hpart
              jobs schedule w Hk Hne Hapart Hev Hread)
    as (w' & merged & Hrun & Ho & Hc & Hf & _).
  exists w'. split; [exact Hrun|]. split; [exact Hf|]. split.
  - rewrite Hc, Hf. by apply every_url_is_counted.
  - rewrite Ho, !(assoc_L (++)). by rewrite last_snoc.
Qed.

Lemma batch_accounts_for_every_url_witness :
  exists w',
    mdl_command "/srv" reliable_socket decimal_partPath 1024
      sample_jobs (alternating 3) world0 = (Returned tt, w') /\
    failedUrls w' ≡ₚ omap (fetch_failure "/srv" world0) sample_jobs /\
    (successCount w' + length (failedUrls w') = length sample_jobs)%nat /\
    last (outbox w') = Some (Text (summaryText (length sample_jobs) w')).
Proof.
  apply (batch_accounts_for_every_url "/srv" reliable_socket decimal_partPath 1024).
  - reflexivity.
  - apply decimal_partPath_inj.
  - by vm_compute.
  - apply keyed_empty.
  - discriminate.
  - apply sample_jobs_apart.
  - repeat constructor.
  - repeat constructor.
    + intros r Hr. vm_compute in Hr. discriminate.
    + intros r Hr _. vm_compute in Hr. injection Hr as <-. by vm_compute.
Defined.
(* ===================================================================== *)
(** * The admin commands *)
(* ===================================================================== *)

Section AdminFacts.

Import Admin.

Lemma ws1_not_digit (a : ascii) : is_ws1 a = true -> is_digit a = false.
Proof.
  unfold is_ws1, is_digit. cbv zeta.
  rewrite orb_true_iff, !andb_true_iff, andb_false_iff, !N.leb_le, N.eqb_eq, !N.leb_gt.
  lia.
Qed.

Lemma ws2_not_digit (a b : ascii) :
  is_ws2 a b = true -> is_digit a = false /\ is_digit b = false.
Proof.
  unfold is_ws2, is_digit. cbv zeta.
  rewrite !andb_true_iff, !andb_false_iff, !N.eqb_eq, !N.leb_gt. lia.
Qed.

Lemma ws3_not_digit (a b c : ascii) :
  is_ws3 a b c = true ->
  is_digit a = false /\ is_digit b = false /\ is_digit c = false.
Proof.
  unfold is_ws3, is_digit. cbv zeta.
  rewrite !orb_true_iff, !andb_true_iff, !orb_true_iff, !andb_true_iff,
    !andb_false_iff, !N.eqb_eq, !N.leb_le, !N.leb_gt.
  lia.
Qed.

Lemma filter_trimStart (s : list ascii) :
  List.filter is_digit (trimStart s) = List.filter is_digit s.
Proof.
  remember (length s) as n eqn:Hn. revert s Hn.
  induction n as [n IH] using lt_wf_ind. intros s ->.
  destruct s as [|a r1]; [done|]. cbn [trimStart].
  destruct (is_ws1 a) eqn:E1.
  { rewrite (IH (length r1)); [|simpl; lia|done].
    cbn [List.filter]. by rewrite (ws1_not_digit a E1). }
  destruct r1 as [|b r2]; [done|].
  destruct (is_ws2 a b) eqn:E2.
  { rewrite (IH (length r2)); [|simpl; lia|done].
    destruct (ws2_not_digit a b E2) as [Ha Hb].
    cbn [List.filter]. by rewrite Ha, Hb. }
  destruct r2 as [|c r3]; [done|].
  destruct (is_ws3 a b c) eqn:E3; [|done].
  rewrite (IH (length r3)); [|simpl; lia|done].
  destruct (ws3_not_digit a b c E3) as (Ha & Hb & Hc).
  cbn [List.filter]. by rewrite Ha, Hb, Hc.
Qed.

Lemma filter_trimEnd_reversed (s : list ascii) :
  List.filter is_digit (trimEnd_reversed s) = List.filter is_digit s.
Proof.
  remember (length s) as n eqn:Hn. revert s Hn.
  induction n as [n IH] using lt_wf_ind. intros s ->.
  destruct s as [|a r1]; [done|]. cbn [trimEnd_reversed].
  destruct (is_ws1 a) eqn:E1.
  { rewrite (IH (length r1)); [|simpl; lia|done].
    cbn [List.filter]. by rewrite (ws1_not_digit a E1). }
  destruct r1 as [|b r2]; [done|].
  destruct (is_ws2 b a) eqn:E2.
  { rewrite (IH (length r2)); [|simpl; lia|done].
    destruct (ws2_not_digit b a E2) as [Hb Ha].
    cbn [List.filter]. by rewrite Ha, Hb. }
  destruct r2 as [|c r3]; [done|].
  destruct (is_ws3 c b a) eqn:E3; [|done].
  rewrite (IH (length r3)); [|simpl; lia|done].
  destruct (ws3_not_digit c b a E3) as (Hc & Hb & Ha).
  cbn [List.filter]. by rewrite Ha, Hb, Hc.
Qed.

Lemma filter_digit_rev (l : list ascii) :
  List.filter is_digit (rev l) = rev (List.filter is_digit l).
Proof.
  induction l as [|a l IH]; [done|]. simpl.
  rewrite List.filter_app, IH. simpl. destruct (is_digit a); simpl; [done|].
  by rewrite app_nil_r.
Qed.

(** [trim] removes no digit. *)
Lemma digits_trim (s : string) : digits (trim s) = digits s.
Proof.
  unfold digits, trim. rewrite list_ascii_of_string_of_list_ascii.
  rewrite filter_digit_rev, filter_trimEnd_reversed, filter_digit_rev,
    rev_involutive, filter_trimStart. reflexivity.
Qed.

Lemma all_digits_digits (s : string) : all_digits (digits s) = true.
Proof.
  unfold all_digits, digits. rewrite list_ascii_of_string_of_list_ascii.
  apply forallb_forall. intros a Ha. by apply List.filter_In in Ha as [_ Ha].
Qed.

Lemma after_keeps_sudo (admins : gset string) (m : Incoming) :
  SUDO_USER ∈ admins -> SUDO_USER ∈ after admins m.
Proof.
  intros Hs. unfold after, command.
  destruct (textMessage m) as [text|]; [|done].
  destruct (startsWith ".add " text && isAdmin admins (sender m)).
  { unfold add. cbv zeta. destruct (bool_decide _); [done|].
    by apply elem_of_union_r. }
  destruct (startsWith ".remove " text && isAdmin admins (sender m)); [|done].
  unfold remove. cbv zeta. case_bool_decide as Hsudo; [done|].
  destruct (negb _); [done|].
  apply elem_of_difference. split; [done|].
  intros Hin. apply elem_of_singleton in Hin. by symmetry in Hin.
Qed.

(** X20: the sudo user is an admin after any sequence of messages,
    whoever sends them: no command removes [SUDO_USER] from [admins]. *)
Theorem sudo_is_always_admin (messages : list Incoming) :
  isAdmin (fold_left after messages initial) SUDO_USER = true.
Proof.
  apply bool_decide_eq_true.
  assert (H : forall admins, SUDO_USER ∈ admins ->
                             SUDO_USER ∈ fold_left after messages admins).
  { induction messages as [|m rest IH]; intros admins Hs; [done|].
    simpl. by apply IH, after_keeps_sudo. }
  apply H. by apply elem_of_singleton.
Qed.

(** X21: messages from senders that are not admins never change the set
    of admins, whatever their text. *)
Theorem non_admins_cannot_change_admins
    (admins : gset string) (messages : list Incoming) :
  Forall (fun m => isAdmin admins (sender m) = false) messages ->
  fold_left after messages admins = admins /\
  Forall (fun m => command admins m = None) messages.
Proof.
  induction 1 as [|m rest Hm Hrest IH]; [done|].
  assert (Hc : command admins m = None).
  { unfold command. destruct (textMessage m); [|done].
    by rewrite Hm, !andb_false_r. }
  simpl. unfold after at 2. rewrite Hc.
  destruct IH as [IH1 IH2]. split; [exact IH1|]. by constructor.
Qed.

Lemma non_admins_cannot_change_admins_witness :
  fold_left after [mkIncoming (Some ".add 94770000000") "94770000000@s.whatsapp.net" None;
                   mkIncoming (Some ".remove 94711797456") "1@g.us"
                     (Some "94770000000@s.whatsapp.net")] initial
  = initial.
Proof.
  refine (proj1 (non_admins_cannot_change_admins initial _ _)).
  repeat constructor.
Defined.

(** X22: every admin is named by a string of decimal digits followed by
    [@s.whatsapp.net], after any sequence of messages. *)
Theorem admins_are_phone_jids (messages : list Incoming) (jid : string) :
  jid ∈ fold_left after messages initial ->
  exists number, jid = number +:+ "@s.whatsapp.net" /\ all_digits number = true.
Proof.
  set (good := fun a : string =>
         exists number, a = number +:+ "@s.whatsapp.net" /\ all_digits number = true).
  assert (H : forall admins, (forall a, a ∈ admins -> good a) ->
                             forall a, a ∈ fold_left after messages admins -> good a).
  { induction messages as [|m rest IH]; intros admins Hg; [done|].
    simpl. apply IH. intros a. unfold after, command.
    destruct (textMessage m) as [text|]; [|apply Hg].
    destruct (startsWith ".add " text && isAdmin admins (sender m)).
    { unfold add. cbv zeta. destruct (bool_decide _); [apply Hg|].
      intros Ha. apply elem_of_union in Ha as [Ha|Ha]; [|by apply Hg].
      apply elem_of_singleton in Ha as ->. eexists. split; [reflexivity|].
      apply all_digits_digits. }
    destruct (startsWith ".remove " text && isAdmin admins (sender m)); [|apply Hg].
    unfold remove. cbv zeta. destruct (bool_decide _); [apply Hg|].
    destruct (negb _); [apply Hg|].
    intros Ha. apply elem_of_difference in Ha as [Ha _]. by apply Hg. }
  apply H. intros a Ha. apply elem_of_singleton in Ha as ->.
  by exists "94711797456".
Qed.

Lemma admins_are_phone_jids_witness :
  exists number,
    "94770000000@s.whatsapp.net" = number +:+ "@s.whatsapp.net" /\
    all_digits number = true.
Proof.
  apply (admins_are_phone_jids
           [mkIncoming (Some ".add +94 77-000 0000") SUDO_USER None]).
  vm_compute. reflexivity.
Defined.

Lemma add_is_not_remove (text : string) :
  startsWith ".add " text = true -> startsWith ".remove " text = true -> False.
Proof.
  unfold startsWith. destruct text as [|c0 [|c1 r]]; cbn [strip_prefix]; try done.
  - by destruct (Ascii.eqb "." c0).
  - destruct (Ascii.eqb "." c0); [|done].
    destruct (Ascii.eqb_spec "a" c1) as [<-|]; [|done].
    intros _. cbn. done.
Qed.

(** X23: only the digits of the argument of [.add] and [.remove] count.
    When an admin adds a number that is neither an admin nor the sudo
    user, the number is an admin afterwards, and a [.remove] by an admin
    with the same digits gives back the set of admins as it was. *)
Theorem add_then_remove (admins : gset string) (m_add m_remove : Incoming)
    (text_add text_remove : string) :
  textMessage m_add = Some text_add ->
  textMessage m_remove = Some text_remove ->
  startsWith ".add " text_add = true ->
  startsWith ".remove " text_remove = true ->
  isAdmin admins (sender m_add) = true ->
  isAdmin admins (sender m_remove) = true ->
  digits (slice 5 text_add) = digits (slice 8 text_remove) ->
  let jid := digits (slice 5 text_add) +:+ "@s.whatsapp.net" in
  jid ∉ admins -> jid <> SUDO_USER ->
  isAdmin (after admins m_add) jid = true /\
  after admins m_add = {[ jid ]} ∪ admins /\
  after (after admins m_add) m_remove = admins.
Proof.
  intros Ha Hr Hsa Hsr Haa Hra Hd jid Hnew Hsudo.
  assert (Hadd : after admins m_add = {[ jid ]} ∪ admins).
  { unfold after, command. rewrite Ha, Hsa, Haa. cbn [andb].
    unfold add, jid_of. cbv zeta. rewrite digits_trim. fold jid.
    by rewrite (bool_decide_eq_false_2 _ Hnew). }
  split; [|split; [done|]].
  - rewrite Hadd. apply bool_decide_eq_true, elem_of_union_l. by apply elem_of_singleton.
  - rewrite Hadd. unfold after, command, startsWith in *. rewrite Hr.
    destruct (strip_prefix ".add " text_remove) eqn:E.
    { exfalso. apply (add_is_not_remove text_remove); unfold startsWith; [|done].
      by rewrite E. }
    cbn [andb]. rewrite Hsr.
    assert (Hin : isAdmin ({[jid]} ∪ admins) (sender m_remove) = true).
    { apply bool_decide_eq_true, elem_of_union_r.
      by apply bool_decide_eq_true in Hra. }
    rewrite Hin. cbn [andb]. unfold remove, jid_of. cbv zeta.
    rewrite digits_trim, <- Hd. fold jid.
    rewrite (bool_decide_eq_false_2 _ Hsudo).
    rewrite bool_decide_eq_true_2
      by (apply elem_of_union_l; by apply elem_of_singleton).
    cbn [negb]. apply set_eq. intros x.
    rewrite elem_of_difference, elem_of_union, !elem_of_singleton.
    split; [intros [[->|Hx] Hne]; done|].
    intros Hx. split; [by right|]. by intros ->.
Qed.

End AdminFacts.

Lemma add_then_remove_witness :
  let m_add := Admin.mkIncoming (Some ".add +94 77-000 0000") SUDO_USER None in
  let m_remove := Admin.mkIncoming (Some ".remove 94770000000") "1@g.us" (Some SUDO_USER) in
  Admin.isAdmin (Admin.after Admin.initial m_add) "94770000000@s.whatsapp.net" = true /\
  Admin.after Admin.initial m_add = {[ "94770000000@s.whatsapp.net" ]} ∪ Admin.initial /\
  Admin.after (Admin.after Admin.initial m_add) m_remove = Admin.initial.
Proof.
  intros m_add m_remove.
  apply (add_then_remove Admin.initial m_add m_remove
           ".add +94 77-000 0000" ".remove 94770000000");
    try reflexivity.
  - intros H. apply elem_of_singleton in H. discriminate.
  - discriminate.
Defined.
(* ===================================================================== *)
(** * [cleanDirectory] *)
(* ===================================================================== *)

Section DirFacts.

Import Dir.

Lemma unlink_each_all (files : list Entry) :
  forall count,
    Forall (fun f => unlink_error f = None) files ->
    unlink_each files count = (inr (count + length files)%nat, []).
Proof.
  induction files as [|f rest IH]; intros count Hall; simpl.
  - by rewrite Nat.add_0_r.
  - apply Forall_cons in Hall as [Hf Hrest]. rewrite Hf, IH by done.
    by rewrite Nat.add_succ_r.
Qed.

Lemma unlink_each_fails (removed : list Entry) (failing : Entry) (rest : list Entry)
    (e : JsError) :
  forall count,
    Forall (fun f => unlink_error f = None) removed ->
    unlink_error failing = Some e ->
    unlink_each (removed ++ failing :: rest) count = (inl e, failing :: rest).
Proof.
  induction removed as [|f removed IH]; intros count Hall He; simpl.
  - by rewrite He.
  - apply Forall_cons in Hall as [Hf Hrest]. rewrite Hf. by apply IH.
Qed.

(** X24: when every [unlink] succeeds, [cleanDirectory] returns the number
    of entries of the directory and leaves it empty; nothing is logged. *)
Theorem cleanDirectory_counts_every_file (dir : string) (files : list Entry) :
  Forall (fun f => unlink_error f = None) files ->
  cleanDirectory dir (Listing files) = (length files, Listing [], []).
Proof.
  intros Hall. unfold cleanDirectory. by rewrite unlink_each_all.
Qed.

(** X25: when an [unlink] fails, [cleanDirectory] returns 0 although the
    entries before the failing one have been removed; the failing entry
    and those after it are left, and the error is logged, not raised. *)
Theorem cleanDirectory_fails_with_zero
    (dir : string) (removed : list Entry) (failing : Entry) (rest : list Entry)
    (e : JsError) :
  Forall (fun f => unlink_error f = None) removed ->
  unlink_error failing = Some e ->
  cleanDirectory dir (Listing (removed ++ failing :: rest))
  = (0%nat, Listing (failing :: rest), [error_line dir e]).
Proof.
  intros Hall He. unfold cleanDirectory.
  by rewrite (unlink_each_fails removed failing rest e).
Qed.

End DirFacts.

Lemma cleanDirectory_counts_every_file_witness :
  Dir.cleanDirectory "/srv/downloads"
    (Dir.Listing [Dir.mkEntry "a.bin" None; Dir.mkEntry "b.bin" None])
  = (2%nat, Dir.Listing [], []).
Proof.
  apply (cleanDirectory_counts_every_file "/srv/downloads"
           [Dir.mkEntry "a.bin" None; Dir.mkEntry "b.bin" None]).
  repeat constructor.
Defined.

Lemma cleanDirectory_fails_with_zero_witness :
  Dir.cleanDirectory "/srv/downloads"
    (Dir.Listing [Dir.mkEntry "a.bin" None;
                  Dir.mkEntry "old" (Some (Error "EISDIR: illegal operation on a directory, unlink '/srv/downloads/old'"));
                  Dir.mkEntry "b.bin" None])
  = (0%nat,
     Dir.Listing [Dir.mkEntry "old" (Some (Error "EISDIR: illegal operation on a directory, unlink '/srv/downloads/old'"));
                  Dir.mkEntry "b.bin" None],
     [Dir.error_line "/srv/downloads"
        (Error "EISDIR: illegal operation on a directory, unlink '/srv/downloads/old'")]).
Proof.
  apply (cleanDirectory_fails_with_zero "/srv/downloads"
           [Dir.mkEntry "a.bin" None]
           (Dir.mkEntry "old" (Some (Error "EISDIR: illegal operation on a directory, unlink '/srv/downloads/old'")))
           [Dir.mkEntry "b.bin" None]).
  - repeat constructor.
  - reflexivity.
Defined.
(* ===================================================================== *)
(** * [formatBytes] *)
(* ===================================================================== *)

Section FormatFacts.

Import Format.

Lemma hundredths_near (b d : N) :
  0 < d ->
  let n := hundredths (mkSize b d) in
  2 * n * d <= 200 * b + d /\ 200 * b + d < 2 * n * d + 2 * d.
Proof.
  intros Hd. unfold hundredths. cbn [num den].
  pose proof (N.div_mod' (200 * b + d) (2 * d)) as Hdm.
  assert (Hlt : (200 * b + d) mod (2 * d) < 2 * d) by (apply N.mod_lt; lia).
  cbv zeta. revert Hdm Hlt.
  generalize ((200 * b + d) / (2 * d)) ((200 * b + d) mod (2 * d)).
  intros q r Hdm Hlt.
  replace (2 * q * d) with (2 * d * q) by lia. lia.
Qed.

(** X26: [formatBytes] shows a size in the largest of the units B, KB, MB
    and GB that does not exceed it (B below 1024 bytes), as a number with
    two decimals that differs from the exact size in that unit by at most
    half a hundredth; a size below 1024 bytes is shown exactly. *)
Theorem formatBytes_accuracy (bytes : N) :
  bytes < 2 ^ 53 ->
  exists (n : N) (k : nat),
    formatBytes bytes
    = (pretty (n / 100) +:+ "." +:+ two_digits (n mod 100)) +:+ " "
        +:+ default "" (units !! k) /\
    (k <= 3)%nat /\
    ((0 < k)%nat -> 1024 ^ N.of_nat k <= bytes) /\
    ((k < 3)%nat -> bytes < 1024 ^ N.of_nat (S k)) /\
    2 * n * 1024 ^ N.of_nat k <= 200 * bytes + 1024 ^ N.of_nat k /\
    200 * bytes + 1024 ^ N.of_nat k < 2 * n * 1024 ^ N.of_nat k + 2 * 1024 ^ N.of_nat k /\
    (k = 0%nat -> n = 100 * bytes).
Proof.
  intros _. unfold formatBytes. cbn [scale num den length units].
  destruct (N.leb_spec (1024 * 1) bytes) as [H1|H1]; cbn [andb Nat.ltb Nat.leb Nat.sub].
  2:{ exists (hundredths (mkSize bytes 1)), 0%nat.
      destruct (hundredths_near bytes 1) as [Ha Hb]; [lia|].
      cbv zeta in *. change (1024 ^ N.of_nat 0) with 1. change (1024 ^ N.of_nat 1) with 1024.
      repeat split; first [reflexivity|lia]. }
  destruct (N.leb_spec (1024 * (1 * 1024)) bytes) as [H2|H2];
    cbn [andb Nat.ltb Nat.leb Nat.sub].
  2:{ exists (hundredths (mkSize bytes (1 * 1024))), 1%nat.
      destruct (hundredths_near bytes (1 * 1024)) as [Ha Hb]; [lia|].
      cbv zeta in *. change (1024 ^ N.of_nat 1) with 1024.
      change (1024 ^ N.of_nat 2) with 1048576.
      repeat split; first [reflexivity|lia]. }
  destruct (N.leb_spec (1024 * (1 * 1024 * 1024)) bytes) as [H3|H3];
    cbn [andb Nat.ltb Nat.leb Nat.sub].
  2:{ exists (hundredths (mkSize bytes (1 * 1024 * 1024))), 2%nat.
      destruct (hundredths_near bytes (1 * 1024 * 1024)) as [Ha Hb]; [lia|].
      cbv zeta in *. change (1024 ^ N.of_nat 2) with 1048576.
      change (1024 ^ N.of_nat 3) with 1073741824.
      repeat split; first [reflexivity|lia]. }
  rewrite andb_false_r.
  exists (hundredths (mkSize bytes (1 * 1024 * 1024 * 1024))), 3%nat.
  destruct (hundredths_near bytes (1 * 1024 * 1024 * 1024)) as [Ha Hb]; [lia|].
  cbv zeta in *. change (1024 ^ N.of_nat 3) with 1073741824.
  repeat split; first [reflexivity|lia].
Qed.

End FormatFacts.

Lemma formatBytes_accuracy_witness :
  exists (n : N) (k : nat),
    Format.formatBytes 1536
    = (pretty (n / 100) +:+ "." +:+ Format.two_digits (n mod 100)) +:+ " "
        +:+ default "" (Format.units !! k) /\
    (k <= 3)%nat /\
    ((0 < k)%nat -> 1024 ^ N.of_nat k <= 1536) /\
    ((k < 3)%nat -> 1536 < 1024 ^ N.of_nat (S k)) /\
    2 * n * 1024 ^ N.of_nat k <= 200 * 1536 + 1024 ^ N.of_nat k /\
    200 * 1536 + 1024 ^ N.of_nat k < 2 * n * 1024 ^ N.of_nat k + 2 * 1024 ^ N.of_nat k /\
    (k = 0%nat -> n = 100 * 1536).
Proof.
  apply (formatBytes_accuracy 1536). reflexivity.
Defined.
